(** * promote_pipeline: ingredient parsing and identity resolution

    A shallow embedding of the Python sources
    - [pipeline.py]            (normalizer, ingredient text parser, promotion loop),
    - [phase2_alias_job.py]    (dedup normalizer, candidate generator,
                               decision classifier, merge executor),
    - [fill_key_norm.py]       (backfill normalizer),
    - [resolve_collisions.py]  (collision resolver),
    and the properties of the specification that were checked against them.

    Python [str] values are lists of Unicode code points.  What the code takes
    from the Python library and from the database engine (the Unicode
    character database, [difflib], psycopg2 cursors) is an interface
    ([Class Unicode], [Class Difflib], [Class Store]); the functions of the
    repository are written over these interfaces, and a small concrete
    instance of each is given for evaluation on concrete inputs. *)

From Stdlib Require Import List Bool Arith ZArith NArith QArith Qpower Qfield Lia Sorted.
From Stdlib Require Ascii String.
Import ListNotations String.StringSyntax.
Delimit Scope string_scope with string.

Set Implicit Arguments.

(* ================================================================== *)
(** * Python strings *)
(* ================================================================== *)

Module PyStr.

(** A character is a code point, a [str] a list of them. *)
Definition char := N.
Definition str := list char.

(** ** Literals: the bytes of a Rocq string literal, decoded as UTF-8 *)

Fixpoint utf8_decode (bs : list N) : str :=
  match bs with
  | [] => []
  | b0 :: r0 =>
      if (b0 <? 128)%N then b0 :: utf8_decode r0
      else if (b0 <? 224)%N then
        match r0 with
        | b1 :: r1 => ((b0 - 192) * 64 + (b1 - 128))%N :: utf8_decode r1
        | [] => [b0]
        end
      else if (b0 <? 240)%N then
        match r0 with
        | b1 :: b2 :: r2 =>
            ((b0 - 224) * 4096 + (b1 - 128) * 64 + (b2 - 128))%N :: utf8_decode r2
        | _ => [b0]
        end
      else
        match r0 with
        | b1 :: b2 :: b3 :: r3 =>
            ((b0 - 240) * 262144 + (b1 - 128) * 4096 + (b2 - 128) * 64 + (b3 - 128))%N
              :: utf8_decode r3
        | _ => [b0]
        end
  end.

Definition py (s : String.string) : str :=
  utf8_decode (map Ascii.N_of_ascii (String.list_ascii_of_string s)).

Arguments py s%_string_scope.

Definition str_eqb (a b : str) : bool :=
  if list_eq_dec N.eq_dec a b then true else false.

(** [x in l] for a list or set of strings. *)
Definition mem (x : str) (l : list str) : bool := existsb (str_eqb x) l.

(** Truthiness of a string: [if s] / [if not s]. *)
Definition truthy (s : str) : bool := match s with [] => false | _ => true end.

(** ** Character classes *)

(** [str.isspace], which is also the class [\s] of [re] on [str] patterns and
    the set removed by [str.strip()] and split on by [str.split()]. *)
Definition isspace (c : char) : bool :=
  ((9 <=? c) && (c <=? 13) || (28 <=? c) && (c <=? 32) || (c =? 133) || (c =? 160)
   || (c =? 5760) || (8192 <=? c) && (c <=? 8202) || (c =? 8232) || (c =? 8233)
   || (c =? 8239) || (c =? 8287) || (c =? 12288))%N.

(** The class [[a-z0-9]]. *)
Definition is_az09 (c : char) : bool :=
  ((97 <=? c) && (c <=? 122) || (48 <=? c) && (c <=? 57))%N.

Definition SPACE : char := 32%N.

(** ** [strip], [split], [join] *)

Fixpoint lstrip_by (p : char -> bool) (s : str) : str :=
  match s with
  | [] => []
  | c :: r => if p c then lstrip_by p r else s
  end.

Fixpoint rstrip_by (p : char -> bool) (s : str) : str :=
  match s with
  | [] => []
  | c :: r =>
      match rstrip_by p r with
      | [] => if p c then [] else [c]
      | r' => c :: r'
      end
  end.

(** [s.strip(chars)] for the set of characters accepted by [p]. *)
Definition strip_by (p : char -> bool) (s : str) : str := rstrip_by p (lstrip_by p s).

(** [s.strip()]. *)
Definition strip (s : str) : str := strip_by isspace s.

(** The fields of [s] between single separator characters: [s.split(sep)] for
    a one-character separator.  The result is never empty. *)
Fixpoint fields (p : char -> bool) (s : str) : list str :=
  match s with
  | [] => [[]]
  | c :: r =>
      if p c then [] :: fields p r
      else match fields p r with
           | f :: fs => (c :: f) :: fs
           | [] => [[c]]
           end
  end.

(** [s.split()]: the maximal runs of non-whitespace characters. *)
Definition split (s : str) : list str := filter truthy (fields isspace s).

(** [sep.join(l)]. *)
Fixpoint join (sep : str) (l : list str) : str :=
  match l with
  | [] => []
  | [x] => x
  | x :: r => x ++ sep ++ join sep r
  end.

(** [re.sub(r"[..]+", repl, s)] for a character class [p]: every maximal run
    of characters of the class is replaced by [repl].  [in_run] says that the
    previous character belonged to the class. *)
Fixpoint sub_runs_from (p : char -> bool) (repl : str) (in_run : bool) (s : str) : str :=
  match s with
  | [] => []
  | c :: r =>
      if p c then (if in_run then [] else repl) ++ sub_runs_from p repl true r
      else c :: sub_runs_from p repl false r
  end.

Definition sub_runs (p : char -> bool) (repl : str) (s : str) : str :=
  sub_runs_from p repl false s.

(** [s.replace(a, b)] for single characters. *)
Definition replace_char (a b : char) (s : str) : str :=
  map (fun c => if (c =? a)%N then b else c) s.

(** [s.startswith(p)]. *)
Fixpoint startswith (s p : str) : bool :=
  match p, s with
  | [], _ => true
  | x :: p', y :: s' => (x =? y)%N && startswith s' p'
  | _ :: _, [] => false
  end.

End PyStr.
Import PyStr.

(* ================================================================== *)
(** * The Unicode character database, as the code uses it *)
(* ================================================================== *)

(** The functions of the Python library that depend on the Unicode character
    database.  They are an interface: the code of the repository is written
    over it, and the theorems hold for every implementation of it (under the
    laws of [UnicodeLaws] where they say so). *)
Class Unicode := {
  (** [str.lower] *)
  str_lower : str -> str;
  (** [unicodedata.normalize("NFD", s)] and [unicodedata.normalize("NFC", s)] *)
  normalize_NFD : str -> str;
  normalize_NFC : str -> str;
  (** [unicodedata.category(ch) == "Mn"] *)
  category_Mn : char -> bool;
  (** the digit value of a character of the class [\d] ([unicodedata.decimal]),
      [None] for every other character *)
  decimal : char -> option N;
  (** the class [\w] of [re] *)
  is_word : char -> bool;
  (** [ci_eq p c]: the literal [p] of a pattern compiled with [re.IGNORECASE]
      matches the character [c] *)
  ci_eq : char -> char -> bool
}.

(** The class [\d]. *)
Definition is_digit {U : Unicode} (c : char) : bool :=
  match decimal c with Some _ => true | None => false end.

(** Lower-case ASCII letters, ASCII digits and the space are left alone by
    case mapping and normalisation, and none of them is a combining mark. *)
Definition plain (c : char) : bool := is_az09 c || (c =? SPACE)%N.

Class UnicodeLaws (U : Unicode) : Prop := {
  lower_plain : forall s, forallb plain s = true -> str_lower s = s;
  NFD_plain : forall s, forallb plain s = true -> normalize_NFD s = s;
  NFC_plain : forall s, forallb plain s = true -> normalize_NFC s = s;
  Mn_plain : forall c, plain c = true -> category_Mn c = false
}.

(** ** A concrete fragment: Basic Latin and the Vietnamese alphabet

    The instance used to evaluate the code on concrete inputs.  It covers
    Basic Latin, the precomposed Latin letters whose canonical decomposition
    is an ASCII letter followed by the eight combining marks of Vietnamese
    (grave, acute, circumflex, tilde, breve, hook above, horn, dot below),
    D WITH STROKE and those marks; every other code point is treated as a
    caseless symbol without decomposition. *)
Module LatinVN.

(** Canonical decompositions [(c, (first, mark))]. *)
Definition decomp_table : list (N * (N * N)) :=
  [
   (192, (65, 768)); (193, (65, 769)); (194, (65, 770)); (195, (65, 771)); (200, (69, 768));
   (201, (69, 769)); (202, (69, 770)); (204, (73, 768)); (205, (73, 769)); (206, (73, 770));
   (209, (78, 771)); (210, (79, 768)); (211, (79, 769)); (212, (79, 770)); (213, (79, 771));
   (217, (85, 768)); (218, (85, 769)); (219, (85, 770)); (221, (89, 769)); (224, (97, 768));
   (225, (97, 769)); (226, (97, 770)); (227, (97, 771)); (232, (101, 768)); (233, (101, 769));
   (234, (101, 770)); (236, (105, 768)); (237, (105, 769)); (238, (105, 770)); (241, (110, 771));
   (242, (111, 768)); (243, (111, 769)); (244, (111, 770)); (245, (111, 771)); (249, (117, 768));
   (250, (117, 769)); (251, (117, 770)); (253, (121, 769)); (258, (65, 774)); (259, (97, 774));
   (262, (67, 769)); (263, (99, 769)); (264, (67, 770)); (265, (99, 770)); (276, (69, 774));
   (277, (101, 774)); (284, (71, 770)); (285, (103, 770)); (286, (71, 774)); (287, (103, 774));
   (292, (72, 770)); (293, (104, 770)); (296, (73, 771)); (297, (105, 771)); (300, (73, 774));
   (301, (105, 774)); (308, (74, 770)); (309, (106, 770)); (313, (76, 769)); (314, (108, 769));
   (323, (78, 769)); (324, (110, 769)); (334, (79, 774)); (335, (111, 774)); (340, (82, 769));
   (341, (114, 769)); (346, (83, 769)); (347, (115, 769)); (348, (83, 770)); (349, (115, 770));
   (360, (85, 771)); (361, (117, 771)); (364, (85, 774)); (365, (117, 774)); (372, (87, 770));
   (373, (119, 770)); (374, (89, 770)); (375, (121, 770)); (377, (90, 769)); (378, (122, 769));
   (416, (79, 795)); (417, (111, 795)); (431, (85, 795)); (432, (117, 795)); (500, (71, 769));
   (501, (103, 769)); (504, (78, 768)); (505, (110, 768)); (7684, (66, 803)); (7685, (98, 803));
   (7692, (68, 803)); (7693, (100, 803)); (7716, (72, 803)); (7717, (104, 803)); (7728, (75, 769));
   (7729, (107, 769)); (7730, (75, 803)); (7731, (107, 803)); (7734, (76, 803)); (7735, (108, 803));
   (7742, (77, 769)); (7743, (109, 769)); (7746, (77, 803)); (7747, (109, 803)); (7750, (78, 803));
   (7751, (110, 803)); (7756, (213, 769)); (7757, (245, 769)); (7764, (80, 769)); (7765, (112, 769));
   (7770, (82, 803)); (7771, (114, 803)); (7778, (83, 803)); (7779, (115, 803)); (7788, (84, 803));
   (7789, (116, 803)); (7800, (360, 769)); (7801, (361, 769)); (7804, (86, 771)); (7805, (118, 771));
   (7806, (86, 803)); (7807, (118, 803)); (7808, (87, 768)); (7809, (119, 768)); (7810, (87, 769));
   (7811, (119, 769)); (7816, (87, 803)); (7817, (119, 803)); (7824, (90, 770)); (7825, (122, 770));
   (7826, (90, 803)); (7827, (122, 803)); (7840, (65, 803)); (7841, (97, 803)); (7842, (65, 777));
   (7843, (97, 777)); (7844, (194, 769)); (7845, (226, 769)); (7846, (194, 768)); (7847, (226, 768));
   (7848, (194, 777)); (7849, (226, 777)); (7850, (194, 771)); (7851, (226, 771)); (7852, (7840, 770));
   (7853, (7841, 770)); (7854, (258, 769)); (7855, (259, 769)); (7856, (258, 768)); (7857, (259, 768));
   (7858, (258, 777)); (7859, (259, 777)); (7860, (258, 771)); (7861, (259, 771)); (7862, (7840, 774));
   (7863, (7841, 774)); (7864, (69, 803)); (7865, (101, 803)); (7866, (69, 777)); (7867, (101, 777));
   (7868, (69, 771)); (7869, (101, 771)); (7870, (202, 769)); (7871, (234, 769)); (7872, (202, 768));
   (7873, (234, 768)); (7874, (202, 777)); (7875, (234, 777)); (7876, (202, 771)); (7877, (234, 771));
   (7878, (7864, 770)); (7879, (7865, 770)); (7880, (73, 777)); (7881, (105, 777)); (7882, (73, 803));
   (7883, (105, 803)); (7884, (79, 803)); (7885, (111, 803)); (7886, (79, 777)); (7887, (111, 777));
   (7888, (212, 769)); (7889, (244, 769)); (7890, (212, 768)); (7891, (244, 768)); (7892, (212, 777));
   (7893, (244, 777)); (7894, (212, 771)); (7895, (244, 771)); (7896, (7884, 770)); (7897, (7885, 770));
   (7898, (416, 769)); (7899, (417, 769)); (7900, (416, 768)); (7901, (417, 768)); (7902, (416, 777));
   (7903, (417, 777)); (7904, (416, 771)); (7905, (417, 771)); (7906, (416, 803)); (7907, (417, 803));
   (7908, (85, 803)); (7909, (117, 803)); (7910, (85, 777)); (7911, (117, 777)); (7912, (431, 769));
   (7913, (432, 769)); (7914, (431, 768)); (7915, (432, 768)); (7916, (431, 777)); (7917, (432, 777));
   (7918, (431, 771)); (7919, (432, 771)); (7920, (431, 803)); (7921, (432, 803)); (7922, (89, 768));
   (7923, (121, 768)); (7924, (89, 803)); (7925, (121, 803)); (7926, (89, 777)); (7927, (121, 777));
   (7928, (89, 771)); (7929, (121, 771))
  ]%N.

(** Simple lower-case mappings outside ASCII. *)
Definition lower_table : list (N * N) :=
  [
   (192, 224); (193, 225); (194, 226); (195, 227); (200, 232); (201, 233); (202, 234); (204, 236);
   (205, 237); (206, 238); (209, 241); (210, 242); (211, 243); (212, 244); (213, 245); (217, 249);
   (218, 250); (219, 251); (221, 253); (258, 259); (262, 263); (264, 265); (272, 273); (276, 277);
   (284, 285); (286, 287); (292, 293); (296, 297); (300, 301); (308, 309); (313, 314); (323, 324);
   (334, 335); (340, 341); (346, 347); (348, 349); (360, 361); (364, 365); (372, 373); (374, 375);
   (377, 378); (416, 417); (431, 432); (500, 501); (504, 505); (7684, 7685); (7692, 7693); (7716, 7717);
   (7728, 7729); (7730, 7731); (7734, 7735); (7742, 7743); (7746, 7747); (7750, 7751); (7756, 7757); (7764, 7765);
   (7770, 7771); (7778, 7779); (7788, 7789); (7800, 7801); (7804, 7805); (7806, 7807); (7808, 7809); (7810, 7811);
   (7816, 7817); (7824, 7825); (7826, 7827); (7840, 7841); (7842, 7843); (7844, 7845); (7846, 7847); (7848, 7849);
   (7850, 7851); (7852, 7853); (7854, 7855); (7856, 7857); (7858, 7859); (7860, 7861); (7862, 7863); (7864, 7865);
   (7866, 7867); (7868, 7869); (7870, 7871); (7872, 7873); (7874, 7875); (7876, 7877); (7878, 7879); (7880, 7881);
   (7882, 7883); (7884, 7885); (7886, 7887); (7888, 7889); (7890, 7891); (7892, 7893); (7894, 7895); (7896, 7897);
   (7898, 7899); (7900, 7901); (7902, 7903); (7904, 7905); (7906, 7907); (7908, 7909); (7910, 7911); (7912, 7913);
   (7914, 7915); (7916, 7917); (7918, 7919); (7920, 7921); (7922, 7923); (7924, 7925); (7926, 7927); (7928, 7929)
  ]%N.

Fixpoint assoc {B : Type} (k : N) (l : list (N * B)) : option B :=
  match l with
  | [] => None
  | (k', v) :: r => if (k =? k')%N then Some v else assoc k r
  end.

Definition lower_char (c : char) : char :=
  if (c <? 128)%N then (if (65 <=? c)%N && (c <=? 90)%N then c + 32 else c)%N
  else match assoc c lower_table with Some l => l | None => c end.

(** Canonical combining class. *)
Definition ccc (c : char) : N :=
  if (c <? 128)%N then 0
  else if (c =? 795)%N then 216
  else if (c =? 803)%N then 220
  else if existsb (N.eqb c) [768; 769; 770; 771; 774; 777]%N then 230
  else 0%N.

Definition decompose1 (c : char) : str :=
  if (c <? 128)%N then [c]
  else match assoc c decomp_table with Some (b, m) => [b; m] | None => [c] end.

(** Canonical ordering: a mark moves left past the marks of a higher class. *)
Fixpoint insert_mark (m : char) (rev_out : str) : str :=
  match rev_out with
  | x :: r =>
      if (0 <? ccc x)%N && (ccc m <? ccc x)%N then x :: insert_mark m r
      else m :: rev_out
  | [] => [m]
  end.

Definition canonical_order (s : str) : str :=
  rev (fold_left (fun acc c => if (0 <? ccc c)%N then insert_mark c acc else c :: acc) s []).

Definition nfd (s : str) : str :=
  canonical_order (flat_map decompose1 (flat_map decompose1 (flat_map decompose1 s))).

Definition compose_pair (s m : char) : option char :=
  match find (fun e => (fst (snd e) =? s)%N && (snd (snd e) =? m)%N) decomp_table with
  | Some e => Some (fst e)
  | None => None
  end.

(** Canonical composition of a decomposed string: the state is the finished
    output (reversed), the last starter and the marks kept after it
    (reversed). *)
Definition compose_step (st : str * option char * str) (c : char)
  : str * option char * str :=
  let '(done, starter, pending) := st in
  if (0 <? ccc c)%N then
    match starter with
    | Some s =>
        let blocked := match pending with p :: _ => (ccc c <=? ccc p)%N | [] => false end in
        if blocked then (done, starter, c :: pending)
        else match compose_pair s c with
             | Some x => (done, Some x, pending)
             | None => (done, starter, c :: pending)
             end
    | None => (c :: done, None, [])
    end
  else
    match starter with
    | Some s => (pending ++ s :: done, Some c, [])
    | None => (done, Some c, [])
    end.

Definition nfc (s : str) : str :=
  let '(done, starter, pending) := fold_left compose_step (nfd s) ([], None, []) in
  rev (match starter with Some s => pending ++ s :: done | None => done end).

Definition is_letter (c : char) : bool :=
  if (c <? 128)%N then (65 <=? c)%N && (c <=? 90)%N || (97 <=? c)%N && (c <=? 122)%N
  else match assoc c decomp_table with
       | Some _ => true
       | None => (c =? 272)%N || (c =? 273)%N
       end.

#[export] Instance unicode : Unicode := {
  str_lower := map lower_char;
  normalize_NFD := nfd;
  normalize_NFC := nfc;
  category_Mn := fun c => (768 <=? c)%N && (c <=? 879)%N;
  decimal := fun c => if (48 <=? c)%N && (c <=? 57)%N then Some (c - 48)%N else None;
  is_word := fun c => is_letter c || (48 <=? c)%N && (c <=? 57)%N || (c =? 95)%N;
  ci_eq := fun p c => (lower_char p =? lower_char c)%N
}.

End LatinVN.

(** Python [dict.get(k, default)] on a dictionary literal. *)
Fixpoint dict_get (d : list (str * str)) (k : str) (default : str) : str :=
  match d with
  | [] => default
  | (k', v) :: r => if str_eqb k k' then v else dict_get r k default
  end.

(** [str(n)] for a natural number. *)
Fixpoint digits_of (fuel n : nat) (acc : str) : str :=
  match fuel with
  | O => acc
  | S f =>
      let acc' := (48 + N.of_nat (n mod 10))%N :: acc in
      if (n <? 10)%nat then acc' else digits_of f (n / 10) acc'
  end.

Definition str_of_nat (n : nat) : str := digits_of (S n) n [].

(* ================================================================== *)
(** * Regular expressions, as [re] matches them *)
(* ================================================================== *)

(** The fragment of the syntax of [re] that the patterns of [pipeline.py]
    use, with the backtracking order of the library: alternatives are tried
    from left to right, a greedy repetition tries the longest run first, a
    lazy one the shortest.  Every repetition of these patterns repeats a
    character class. *)
Module Regex.

Inductive regex :=
| Eps                                         (* the empty pattern *)
| Lit (c : char)                              (* a literal character *)
| Cls (p : char -> bool)                      (* a class: [..], \d, \s, . *)
| Seq (r1 r2 : regex)
| Alt (r1 r2 : regex)                         (* r1|r2 *)
| Rep (greedy : bool) (lo : nat) (hi : option nat) (p : char -> bool)
                                              (* p{lo,hi}, p*, p+, p*? *)
| Group (name : str) (r : regex)              (* (?P<name>r), (r) *)
| Bol                                         (* ^ *)
| Eol                                         (* $ *)
| WordB.                                      (* \b *)

(** A position in the subject (the text before it, reversed, and the text
    after it) and the groups matched so far. *)
Record mstate := {
  before : str;
  after : str;
  groups : list (str * str)
}.

Definition advance (x : char) (rest : str) (s : mstate) : mstate :=
  {| before := x :: before s; after := rest; groups := groups s |}.

Definition below (count : nat) (hi : option nat) : bool :=
  match hi with Some h => (count <? h)%nat | None => true end.

Section Matching.
Context {U : Unicode}.
Variable ignorecase : bool.

Definition lit_eq (c x : char) : bool := if ignorecase then ci_eq c x else (c =? x)%N.

Definition at_word_boundary (s : mstate) : bool :=
  xorb (match before s with x :: _ => is_word x | [] => false end)
       (match after s with x :: _ => is_word x | [] => false end).

Definition at_end (s : mstate) : bool :=
  match after s with
  | [] => true
  | [x] => (x =? 10)%N
  | _ => false
  end.

(** Repetition of the class [p], from [count] iterations already made. *)
Fixpoint rep (greedy : bool) (lo : nat) (hi : option nat) (p : char -> bool)
  (k : mstate -> option mstate) (count : nat) (bef aft : str) (g : list (str * str))
  : option mstate :=
  let here := {| before := bef; after := aft; groups := g |} in
  let stop := if (lo <=? count)%nat then k here else None in
  match aft with
  | x :: rest =>
      if p x && below count hi then
        if greedy then
          match rep greedy lo hi p k (S count) (x :: bef) rest g with
          | Some r => Some r
          | None => stop
          end
        else
          match stop with
          | Some r => Some r
          | None => rep greedy lo hi p k (S count) (x :: bef) rest g
          end
      else stop
  | [] => stop
  end.

(** [matches r k s]: match [r] at [s], then the continuation [k]. *)
Fixpoint matches (r : regex) (k : mstate -> option mstate) (s : mstate) : option mstate :=
  match r with
  | Eps => k s
  | Lit c =>
      match after s with
      | x :: rest => if lit_eq c x then k (advance x rest s) else None
      | [] => None
      end
  | Cls p =>
      match after s with
      | x :: rest => if p x then k (advance x rest s) else None
      | [] => None
      end
  | Seq r1 r2 => matches r1 (matches r2 k) s
  | Alt r1 r2 =>
      match matches r1 k s with
      | Some res => Some res
      | None => matches r2 k s
      end
  | Rep greedy lo hi p => rep greedy lo hi p k 0 (before s) (after s) (groups s)
  | Group name r =>
      matches r
        (fun s' =>
           let text := firstn (length (after s) - length (after s')) (after s) in
           k {| before := before s'; after := after s'; groups := (name, text) :: groups s' |})
        s
  | Bol => match before s with [] => k s | _ => None end
  | Eol => if at_end s then k s else None
  | WordB => if at_word_boundary s then k s else None
  end.

Definition match_at (r : regex) (s : mstate) : option mstate :=
  matches r (fun s' => Some s') s.

(** [m.group(name)] *)
Fixpoint group (name : str) (g : list (str * str)) : option str :=
  match g with
  | [] => None
  | (n, v) :: r => if str_eqb name n then Some v else group name r
  end.

(** [pattern.match(s)] *)
Definition re_match (r : regex) (s : str) : option (list (str * str)) :=
  match match_at r {| before := []; after := s; groups := [] |} with
  | Some e => Some (groups e)
  | None => None
  end.

(** The non-overlapping matches of [r] from left to right, each with the
    text that precedes it (since the previous match): the scan of
    [findall], [sub] and [search].  A match that consumes nothing lets the
    scan move on by one character. *)
Fixpoint scan (fuel : nat) (r : regex) (bef aft : str) (skipped : str)
  : list (str * str * list (str * str)) * str :=
  match fuel with
  | O => ([], rev skipped ++ aft)
  | S fuel' =>
      let step :=
        match aft with
        | [] => ([], rev skipped)
        | x :: rest => scan fuel' r (x :: bef) rest (x :: skipped)
        end in
      match match_at r {| before := bef; after := aft; groups := [] |} with
      | Some e =>
          let n := (length aft - length (after e))%nat in
          if (n =? 0)%nat then step
          else
            let '(ms, tail) := scan fuel' r (before e) (after e) [] in
            ((rev skipped, firstn n aft, groups e) :: ms, tail)
      | None => step
      end
  end.

Definition scan_all (r : regex) (s : str) : list (str * str * list (str * str)) * str :=
  scan (S (length s)) r [] s [].

(** [pattern.search(s)] as a truth value. *)
Definition re_search (r : regex) (s : str) : bool :=
  match fst (scan_all r s) with [] => false | _ => true end.

(** [pattern.findall(s)] for a pattern whose only group is [name]. *)
Definition re_findall (r : regex) (name : str) (s : str) : list str :=
  map (fun m => match group name (snd m) with Some v => v | None => [] end)
      (fst (scan_all r s)).

(** [pattern.sub(repl, s)] *)
Definition re_sub (r : regex) (repl : str) (s : str) : str :=
  let '(ms, tail) := scan_all r s in
  flat_map (fun m => fst (fst m) ++ repl) ms ++ tail.

End Matching.

(** ** Writing patterns *)

Fixpoint seq (rs : list regex) : regex :=
  match rs with
  | [] => Eps
  | [r] => r
  | r :: rs' => Seq r (seq rs')
  end.

(** [r1|r2|...] of a non-empty list. *)
Fixpoint alt (r : regex) (rs : list regex) : regex :=
  match rs with
  | [] => r
  | r' :: rs' => Alt r (alt r' rs')
  end.

(** A literal text. *)
Definition lit (s : str) : regex := seq (map Lit s).

Definition star (p : char -> bool) : regex := Rep true 0 None p.
Definition plus (p : char -> bool) : regex := Rep true 1 None p.
Definition lazy_star (p : char -> bool) : regex := Rep false 0 None p.
Definition opt (r : regex) : regex := Alt r Eps.

(** [.] *)
Definition dot (c : char) : bool := negb (c =? 10)%N.

End Regex.

(* ================================================================== *)
(** * Python [Decimal] values *)
(* ================================================================== *)

(** A finite [decimal.Decimal]: the number [coefficient * 10 ^ exponent].
    Amounts are never negative zero, infinite or NaN. *)
Record Decimal := mkDecimal {
  coefficient : Z;
  exponent : Z
}.

Definition pow10 (e : Z) : Q := (10 # 1) ^ e.

Definition Decimal_value (d : Decimal) : Q :=
  inject_Z (coefficient d) * pow10 (exponent d).

(** The arithmetic of the module [decimal] in its default context: 28
    significant digits, rounding half to even.  The exponent limits of the
    context ([Emax = 999999]) are not modelled; operands are non-negative. *)
Module PyDecimal.

Definition prec : Z := 28.

(** [len(str(n))] for [n > 0]: the least [d >= 1] with [n < 10 ^ d]. *)
Fixpoint ndigits_from (fuel : nat) (n d : Z) : Z :=
  match fuel with
  | O => d
  | S fuel' => if (n <? 10 ^ d)%Z then d else ndigits_from fuel' n (d + 1)%Z
  end.

Definition ndigits (n : Z) : Z := ndigits_from (S (Z.to_nat (Z.log2 n))) n 1.

(** [while exp < ideal_exp and coeff % 10 == 0: coeff //= 10; exp += 1] *)
Fixpoint strip_zeros (fuel : nat) (ideal_exp coeff exp : Z) : Z * Z :=
  match fuel with
  | O => (coeff, exp)
  | S fuel' =>
      if (exp <? ideal_exp)%Z && (coeff mod 10 =? 0)%Z
      then strip_zeros fuel' ideal_exp (coeff / 10)%Z (exp + 1)%Z
      else (coeff, exp)
  end.

(** [Decimal._fix]: a coefficient of more than [prec] digits is rounded to
    [prec] digits, half to even. *)
Definition fix_ (coeff exp : Z) : Decimal :=
  if (coeff =? 0)%Z then mkDecimal 0 exp
  else
    let len := ndigits coeff in
    if (prec <? len)%Z then
      let k := (len - prec)%Z in
      let hi := (coeff / 10 ^ k)%Z in
      let lo := (coeff mod 10 ^ k)%Z in
      let half := (5 * 10 ^ (k - 1))%Z in
      let up := if (lo =? half)%Z then Z.odd hi else (half <? lo)%Z in
      let hi := if up then (hi + 1)%Z else hi in
      if (prec <? ndigits hi)%Z then mkDecimal (hi / 10)%Z (exp + k + 1)%Z
      else mkDecimal hi (exp + k)%Z
    else mkDecimal coeff exp.

(** [a / b] ([Decimal.__truediv__]) for a divisor that is not zero. *)
Definition div (a b : Decimal) : Decimal :=
  let ideal_exp := (exponent a - exponent b)%Z in
  if (coefficient a =? 0)%Z then mkDecimal 0 ideal_exp
  else
    let shift := (ndigits (coefficient b) - ndigits (coefficient a) + prec + 1)%Z in
    let exp := (ideal_exp - shift)%Z in
    let '(coeff, remainder) :=
      if (0 <=? shift)%Z
      then Z.div_eucl (coefficient a * 10 ^ shift) (coefficient b)
      else Z.div_eucl (coefficient a) (coefficient b * 10 ^ (- shift)) in
    let '(coeff, exp) :=
      if negb (remainder =? 0)%Z
      then ((if (coeff mod 5 =? 0)%Z then coeff + 1 else coeff)%Z, exp)
      else strip_zeros (Z.to_nat (ideal_exp - exp)) ideal_exp coeff exp in
    fix_ coeff exp.

Section Construction.
Context {U : Unicode}.

(** [int(s)] for a string of decimal digits (every character of the strings
    it is applied to is matched by [\d]). *)
Definition int_of_digits (s : str) : Z :=
  fold_left (fun acc c => (acc * 10 + Z.of_N (match decimal c with Some v => v | None => 0 end))%Z)
    s 0%Z.

Definition all_digits (s : str) : bool := truthy s && forallb is_digit s.

(** [Decimal(s)] for the numerals [digits] and [digits.digits], the two
    forms of the group [val], on which alone the parser calls it.  [None]
    stands for [InvalidOperation].  The model answers [None] for every
    other string as well, also where [Decimal] accepts one (a sign, an
    exponent, [.5], [5.], surrounding whitespace): it is the constructor
    on these two forms only. *)
Definition of_str (s : str) : option Decimal :=
  match fields (fun c => (c =? 46)%N) s with
  | [i] => if all_digits i then Some (mkDecimal (int_of_digits i) 0) else None
  | [i; f] =>
      if all_digits i && all_digits f
      then Some (mkDecimal (int_of_digits (i ++ f)) (- Z.of_nat (length f)))
      else None
  | _ => None
  end.

End Construction.
End PyDecimal.

(* ================================================================== *)
(** * Floats and [difflib] *)
(* ================================================================== *)

(** A finite Python [float] is the rational number it denotes; comparisons of
    floats are comparisons of these numbers.  The float literals of the
    source are the binary64 values nearest to the decimals written. *)
Definition float := Q.

Definition float_ltb (a b : float) : bool := negb (Qle_bool b a).

Definition FLOAT_0_98 : float := 2206763817411543 # 2251799813685248.
Definition FLOAT_0_92 : float := 8286623314361713 # 9007199254740992.

(** [SequenceMatcher(None, a, b).ratio()] of the Python library. *)
Class Difflib := {
  ratio : str -> str -> float
}.

(** ** A concrete [difflib]: Ratcliff/Obershelp matching of short strings

    [SequenceMatcher(None, a, b)] without junk, which is the behaviour of the
    library for sequences of fewer than 200 elements: the longest common
    block (the earliest in [a], then the earliest in [b], among the longest)
    is matched, then the parts to its left and the parts to its right.
    [ratio] is the binary64 quotient [2.0 * matches / (len(a) + len(b))]. *)
Module SeqMatcher.

Fixpoint common_prefix (a b : str) : nat :=
  match a, b with
  | x :: a', y :: b' => if (x =? y)%N then S (common_prefix a' b') else O
  | _, _ => O
  end.

(** The best block starting at position [i] of [a], against every suffix of
    [b] from position [j]; [best] is [(i, j, k)]. *)
Fixpoint scan_b (a : str) (i : nat) (b : str) (j : nat) (best : nat * nat * nat)
  : nat * nat * nat :=
  match b with
  | [] => best
  | _ :: b' =>
      let k := common_prefix a b in
      let best := if (snd best <? k)%nat then (i, j, k) else best in
      scan_b a i b' (S j) best
  end.

Fixpoint scan_a (a : str) (i : nat) (b : str) (best : nat * nat * nat)
  : nat * nat * nat :=
  match a with
  | [] => best
  | _ :: a' => scan_a a' (S i) b (scan_b a i b O best)
  end.

Definition find_longest_match (a b : str) : nat * nat * nat :=
  scan_a a O b (O, O, O).

Fixpoint matches (fuel : nat) (a b : str) : nat :=
  match fuel with
  | O => O
  | S fuel' =>
      let '(i, j, k) := find_longest_match a b in
      if (k =? 0)%nat then O
      else (matches fuel' (firstn i a) (firstn j b) + k
            + matches fuel' (skipn (i + k) a) (skipn (j + k) b))%nat
  end.

(** The shift [k] with [d <= n * 2^k]. *)
Fixpoint find_shift (fuel : nat) (n d : Z) (k : Z) : Z :=
  match fuel with
  | O => k
  | S fuel' => if (d <=? n * 2 ^ k)%Z then k else find_shift fuel' n d (k + 1)%Z
  end.

(** The binary64 value nearest to [n / d], ties to even, for [0 <= n <= d],
    [0 < d]. *)
Definition div_double (n d : Z) : float :=
  if (n <=? 0)%Z then 0
  else
    let e := (52 + find_shift (Z.to_nat d) n d 0)%Z in
    let num := (n * 2 ^ e)%Z in
    let m := (num / d)%Z in
    let r := (num mod d)%Z in
    let m := if (d <? 2 * r)%Z || (2 * r =? d)%Z && Z.odd m then (m + 1)%Z else m in
    Qmake m (Z.to_pos (2 ^ e)).

Definition seq_ratio (a b : str) : float :=
  let total := (length a + length b)%nat in
  if (total =? 0)%nat then 1
  else div_double (2 * Z.of_nat (matches (S (length a)) a b)) (Z.of_nat total).

#[export] Instance difflib : Difflib := {
  ratio := seq_ratio
}.

End SeqMatcher.

(* ================================================================== *)
(** * The database, as the code uses it *)
(* ================================================================== *)

(** A value of a row or of a statement parameter. *)
Inductive value :=
| VNull
| VText (s : str)
| VInt (n : Z)
| VBool (b : bool)
| VDecimal (d : Decimal).

(** The exceptions that the modelled code raises or catches:
    [psycopg2.errors.UniqueViolation], every other database error, the
    [ValueError] of [get_or_create_ingredient], and the error of Python when
    a column that should hold a text or a number holds something else. *)
Inductive exn := UniqueViolation | DatabaseError | ValueError | TypeError.

(** The statements executed by [pipeline.py] and [resolve_collisions.py],
    named after the constants and functions that hold their text. *)
Inductive sql :=
(* pipeline.py *)
| SELECT_STG_RECIPE | SELECT_STG_STEPS | SELECT_STG_INGREDIENTS
| UPSERT_RECIPE | DELETE_RECIPE_STEPS | INSERT_RECIPE_STEPS
| SELECT_ALIAS_BY_NORM | SELECT_INGREDIENT_BY_KEY
| INSERT_ALIAS_DO_NOTHING | UPSERT_INGREDIENT_RETURNING_ID
| DELETE_RECIPE_INGREDIENTS | INSERT_RECIPE_INGREDIENTS | UPDATE_RECIPE_ACTIVE
(* resolve_collisions.py *)
| SQL_OTHER_IDS_FOR_ALIAS
| SQL_DELETE_CONFLICTS | COUNT_CONFLICTS
| SQL_UPDATE_RECIPE_INGREDIENTS | COUNT_RECIPE_INGREDIENTS
| SQL_INSERT_ALIASES_TO_CANONICAL | SQL_DELETE_ALIASES_FROM_OTHER | COUNT_ALIASES
| SQL_DELETE_INGREDIENT_IF_ORPHAN | CHECK_ORPHAN.

(** What a cursor holds after [execute]: [cur.rowcount] and the rows that
    [fetchone] and [fetchall] return. *)
Record cursor := {
  rowcount : Z;
  fetchall : list (list value)
}.

(** A psycopg2 connection.  [execute] runs one statement with its
    parameters ([execute_values] passes one parameter list per row); it
    answers with a cursor or raises, and changes the state of the
    connection.  [commit] and [rollback] end the transaction. *)
Class Store := {
  connection : Type;
  execute : sql -> list (list value) -> connection -> (exn + cursor) * connection;
  commit : connection -> connection;
  rollback : connection -> connection;
  (** [uuid.uuid5(NAMESPACE_UUID, name)], as text *)
  uuid5 : str -> str
}.

(** Computations on a state that may raise. *)
Definition M (S A : Type) : Type := S -> (exn + A) * S.

Definition ret {S A : Type} (a : A) : M S A := fun s => (inr a, s).

Definition raise {S A : Type} (e : exn) : M S A := fun s => (inl e, s).

Definition bind {S A B : Type} (c : M S A) (k : A -> M S B) : M S B :=
  fun s =>
    match c s with
    | (inr a, s') => k a s'
    | (inl e, s') => (inl e, s')
    end.

Notation "x <- c ;; k" := (bind c (fun x => k))
  (at level 61, c at next level, right associativity).
Notation "c ;;; k" := (bind c (fun _ => k))
  (at level 61, right associativity).

(** [for x in l: body], with the loop state [a]. *)
Fixpoint for_each {S A X : Type} (l : list X) (body : X -> A -> M S A) (a : A) : M S A :=
  match l with
  | [] => ret a
  | x :: r => a' <- body x a ;; for_each r body a'
  end.

Section Cursor.
Context {St : Store}.

(** [with conn: body]: commit when the body returns, roll back and re-raise
    when it raises. *)
Definition with_conn {A : Type} (body : M connection A) : M connection A :=
  fun c =>
    match body c with
    | (inr a, c') => (inr a, commit c')
    | (inl e, c') => (inl e, rollback c')
    end.

(** [cur.execute(q, params)] *)
Definition cur_execute (q : sql) (params : list value) : M connection cursor :=
  execute q [params].

(** [execute_values(cur, q, rows)] *)
Definition execute_values (q : sql) (rows : list (list value)) : M connection unit :=
  _ <- execute q rows ;; ret tt.

(** [cur.fetchone()] *)
Definition fetchone (cur : cursor) : option (list value) :=
  match fetchall cur with r :: _ => Some r | [] => None end.

(** [row[i]] *)
Definition col (i : nat) (row : list value) : value := nth i row VNull.

End Cursor.

(** [str(n)] for an integer. *)
Definition str_of_Z (n : Z) : str :=
  match n with
  | Zneg p => 45%N :: str_of_nat (Pos.to_nat p)
  | _ => str_of_nat (Z.to_nat n)
  end.

(** [str(v)] for a text or an integer (identifiers are texts). *)
Definition value_str (v : value) : str :=
  match v with
  | VText s => s
  | VInt n => str_of_Z n
  | VNull => py "None"
  | VBool true => py "True"
  | VBool false => py "False"
  | VDecimal d => str_of_Z (coefficient d) ++ py "E" ++ str_of_Z (exponent d)
  end.

Definition value_truthy (v : value) : bool :=
  match v with
  | VNull => false
  | VText s => truthy s
  | VInt n => negb (n =? 0)%Z
  | VBool b => b
  | VDecimal d => negb (coefficient d =? 0)%Z
  end.

Definition option_value {A : Type} (f : A -> value) (o : option A) : value :=
  match o with Some a => f a | None => VNull end.

(** A text column: [v or default]. *)
Definition text_or (v : value) (default : str) : str :=
  match v with
  | VText s => if truthy s then s else default
  | _ => default
  end.

(** A text that the code calls string methods on. *)
Definition as_text {S : Type} (v : value) : M S str :=
  match v with VText s => ret s | _ => raise TypeError end.

(** [int(v)] *)
Definition as_int {S : Type} (v : value) : M S Z :=
  match v with
  | VInt n => ret n
  | VBool b => ret (if b then 1 else 0)%Z
  | _ => raise TypeError
  end.

(** [for x in l: ...] collecting one result per element. *)
Fixpoint map_M {S X Y : Type} (f : X -> M S Y) (l : list X) : M S (list Y) :=
  match l with
  | [] => ret []
  | x :: r => y <- f x ;; ys <- map_M f r ;; ret (y :: ys)
  end.

(* ================================================================== *)
(** * pipeline.py *)
(* ================================================================== *)

Module Pipeline.
Section Normalizer.
Context {U : Unicode}.

(** [RE_SPACES.sub(" ", s).strip()] with [RE_SPACES = \s+]. *)
Definition normalize_spaces (s : str) : str :=
  strip (sub_runs isspace [SPACE] s).

Definition remove_accents (s : str) : str :=
  let s := normalize_NFD s in
  let s := filter (fun ch => negb (category_Mn ch)) s in
  normalize_NFC s.

Definition normalize_alias_norm (key : str) : str :=
  let s := remove_accents (str_lower key) in
  let s := sub_runs (fun c => negb (is_az09 c)) [SPACE] s in
  normalize_spaces s.

End Normalizer.
(** ** Ingredient parsing (Phase 1) *)

Definition UNIT_MAP : list (str * str) :=
  [ (py "g", py "g"); (py "gram", py "g"); (py "gam", py "g");
    (py "kg", py "kg");
    (py "ml", py "ml");
    (py "l", py "l"); (py "lit", py "l"); (py "lít", py "l");
    (py "tbsp", py "tbsp"); (py "tsp", py "tsp");
    (py "thìa", py "thìa"); (py "muỗng", py "muỗng");
    (py "củ", py "củ"); (py "quả", py "quả"); (py "lá", py "lá");
    (py "nhánh", py "nhánh"); (py "tép", py "tép");
    (py "miếng", py "miếng"); (py "khoanh", py "khoanh");
    (py "gói", py "gói"); (py "hộp", py "hộp"); (py "chai", py "chai"); (py "lon", py "lon");
    (py "bát", py "bát"); (py "chén", py "chén") ].

Import Regex.

Section Patterns.
Context {U : Unicode}.

Definition UNIT_PATTERN : regex :=
  alt (lit (py "kg"))
    (map lit
       (map py ["g"; "gram"; "gam"; "ml"; "l"; "lít"; "lit"; "tbsp"; "tsp"; "thìa"; "muỗng";
                "củ"; "quả"; "lá"; "nhánh"; "tép"; "miếng"; "khoanh"; "gói"; "hộp";
                "chai"; "lon"; "bát"; "chén"]%string)).

(** [^[\s\-\•\*\+\·]+] *)
Definition bullet (c : char) : bool :=
  isspace c || (c =? 45)%N || (c =? 8226)%N || (c =? 42)%N || (c =? 43)%N || (c =? 183)%N.

Definition RE_BULLET : regex := seq [Bol; plus bullet].

(** [\(([^)]{1,200})\)] *)
Definition RE_PARENS : regex :=
  seq [Lit 40%N; Group (py "1") (Rep true 1 (Some 200%nat) (fun c => negb (c =? 41)%N));
       Lit 41%N].

(** [^(?P<num>\d+)\s*/\s*(?P<den>\d+)\s*(?P<unit>UNIT)\b\s*], then the group
    [rest] of any characters up to [$]; compiled with [re.IGNORECASE] *)
Definition RE_FRACTION_UNIT : regex :=
  seq [Bol; Group (py "num") (plus is_digit); star isspace; Lit 47%N; star isspace;
       Group (py "den") (plus is_digit); star isspace;
       Group (py "unit") UNIT_PATTERN; WordB; star isspace;
       Group (py "rest") (star dot); Eol].

(** [^(?P<val>\d+(?:[.,]\d+)?)\s*(?P<unit>UNIT)\b\s*], then the group [rest] of
    any characters up to [$]; compiled with [re.IGNORECASE] *)
Definition RE_DECIMAL_UNIT : regex :=
  seq [Bol;
       Group (py "val")
         (Seq (plus is_digit)
              (opt (Seq (Cls (fun c => (c =? 46)%N || (c =? 44)%N)) (plus is_digit))));
       star isspace;
       Group (py "unit") UNIT_PATTERN; WordB; star isspace;
       Group (py "rest") (star dot); Eol].

(** A phrase of the vocabulary, written here with a space where the pattern
    has [\s*] between two words. *)
Definition phrase (s : String.string) : regex :=
  match fields (fun c => (c =? 32)%N) (py s) with
  | w :: ws => Seq (lit w) (seq (flat_map (fun w => [star isspace; lit w]) ws))
  | [] => Eps
  end.

Arguments phrase s%_string_scope.

(** [\b(vừa\s*đủ|tùy\s*thích|tuỳ\s*thích|tùy|tuỳ|ít|một\s*ít|nếu\s*thích|
        không\s*bắt\s*buộc|có\s*thể)\b], [re.IGNORECASE] *)
Definition RE_NOTE_PHRASES : regex :=
  seq [WordB;
       Group (py "1")
         (alt (phrase "vừa đủ")
            [phrase "tùy thích"; phrase "tuỳ thích"; phrase "tùy"; phrase "tuỳ";
             phrase "ít"; phrase "một ít"; phrase "nếu thích";
             phrase "không bắt buộc"; phrase "có thể"]%string);
       WordB].

(** [^(?P<name>.*?)(?:\s+(?P<mod>nhỏ|to|vừa|lớn|tươi|khô|băm\s*nhỏ|băm|
        thái\s*nhỏ|thái|xắt|cắt\s*lát|cắt\s*nhỏ|cắt|xay|giã|đập\s*dập|
        rửa\s*sạch|gọt\s*vỏ|bỏ\s*vỏ|bỏ\s*hạt))$], [re.IGNORECASE] *)
Definition RE_SUFFIX_MOD : regex :=
  seq [Bol; Group (py "name") (lazy_star dot);
       plus isspace;
       Group (py "mod")
         (alt (phrase "nhỏ")
            [phrase "to"; phrase "vừa"; phrase "lớn"; phrase "tươi";
             phrase "khô"; phrase "băm nhỏ"; phrase "băm";
             phrase "thái nhỏ"; phrase "thái"; phrase "xắt";
             phrase "cắt lát"; phrase "cắt nhỏ"; phrase "cắt";
             phrase "xay"; phrase "giã"; phrase "đập dập";
             phrase "rửa sạch"; phrase "gọt vỏ"; phrase "bỏ vỏ";
             phrase "bỏ hạt"]%string);
       Eol].

End Patterns.

Section Parser.
Context {U : Unicode}.

Definition group_text (name : String.string) (g : list (str * str)) : str :=
  match group (py name) g with Some v => v | None => [] end.

Arguments group_text name%_string_scope g.

(** [x or None] for a string. *)
Definition or_None (s : str) : option str := if truthy s then Some s else None.

Definition preclean_extract_parentheses (raw : str) : str * option str :=
  let s := normalize_spaces (re_sub false RE_BULLET [] (strip raw)) in
  let s := replace_char 59%N 44%N s in
  let notes := re_findall false RE_PARENS (py "1") s in
  match notes with
  | _ :: _ =>
      let s := normalize_spaces (re_sub false RE_PARENS [] s) in
      let note :=
        join (py "; ")
          (map normalize_spaces (filter (fun n => truthy (strip n)) notes)) in
      (s, or_None note)
  | [] => (s, None)
  end.

Definition parse_decimal (val : str) : option Decimal :=
  PyDecimal.of_str (replace_char 44%N 46%N val).

Definition normalize_unit (u : str) : option str :=
  if negb (truthy u) then None
  else Some (dict_get UNIT_MAP (str_lower (strip u)) (str_lower (strip u))).

Definition split_combo (text_main : str) : list str :=
  if negb (existsb (fun c => (c =? 44)%N) text_main) then [text_main]
  else
    let parts := map normalize_spaces (fields (fun c => (c =? 44)%N) text_main) in
    filter truthy parts.

Definition parse_amount_unit_minimal (text_main : str)
  : option Decimal * option str * str :=
  let s := strip text_main in
  match re_match true RE_FRACTION_UNIT s with
  | Some m =>
      let num := mkDecimal (PyDecimal.int_of_digits (group_text "num" m)) 0 in
      let den := mkDecimal (PyDecimal.int_of_digits (group_text "den" m)) 0 in
      let unit := normalize_unit (group_text "unit" m) in
      let rest := normalize_spaces (group_text "rest" m) in
      ((if negb (coefficient den =? 0)%Z then Some (PyDecimal.div num den) else None),
       unit, rest)
  | None =>
      match re_match true RE_DECIMAL_UNIT s with
      | Some m =>
          let amount := parse_decimal (group_text "val" m) in
          let unit := normalize_unit (group_text "unit" m) in
          let rest := normalize_spaces (group_text "rest" m) in
          (amount, unit, rest)
      | None => (None, None, s)
      end
  end.

(** The loop over [phrases] in [extract_key_and_note]. *)
Fixpoint add_phrases (phrases : list str) (note_parts : list str) : list str :=
  match phrases with
  | [] => note_parts
  | ph :: r =>
      let phn := normalize_spaces ph in
      if truthy phn && negb (mem phn note_parts)
      then add_phrases r (note_parts ++ [phn])
      else add_phrases r note_parts
  end.

(** [" .:-–—"] *)
Definition key_trim (c : char) : bool :=
  (c =? 32)%N || (c =? 46)%N || (c =? 58)%N || (c =? 45)%N || (c =? 8211)%N || (c =? 8212)%N.

Definition extract_key_and_note (rest : str) (note0 : option str) : str * option str :=
  let s := normalize_spaces rest in
  let note_parts := match note0 with Some n => if truthy n then [n] else [] | None => [] end in
  let phrases := re_findall true RE_NOTE_PHRASES (py "1") s in
  let '(note_parts, s) :=
    match phrases with
    | _ :: _ => (add_phrases phrases note_parts,
                 normalize_spaces (re_sub true RE_NOTE_PHRASES [] s))
    | [] => (note_parts, s)
    end in
  let '(note_parts, s) :=
    match re_match true RE_SUFFIX_MOD s with
    | Some m =>
        let name := normalize_spaces (group_text "name" m) in
        let mod_ := normalize_spaces (group_text "mod" m) in
        ((if truthy mod_ then note_parts ++ [mod_] else note_parts), name)
    | None => (note_parts, s)
    end in
  let s := normalize_spaces (strip_by key_trim s) in
  let key := str_lower s in
  let note :=
    match note_parts with
    | _ :: _ => Some (join (py "; ") (filter truthy note_parts))
    | [] => None
    end in
  (key, note).

Definition infer_role (raw : str) (note : option str) (is_combo : bool) : str :=
  if is_combo then py "optional"
  else if re_search true RE_NOTE_PHRASES (str_lower raw) then py "optional"
  else if match note with
          | Some n => truthy n && re_search true RE_NOTE_PHRASES (str_lower n)
          | None => false
          end then py "optional"
  else py "core".

Record ParsedIngredient := {
  amount : option Decimal;
  unit : option str;
  key : str;
  alias_norm : str;
  note : option str;
  role : str
}.

(** The body of the loop of [parse_ingredient_text_phase1] for one part:
    [None] where the loop [continue]s. *)
Definition parse_part (raw_text : str) (note0 : option str) (is_combo : bool) (part : str)
  : option ParsedIngredient :=
  if negb (truthy part) then None
  else
    let '(amount, unit, rest) := parse_amount_unit_minimal part in
    let '(key, note) := extract_key_and_note rest note0 in
    if negb (truthy key) then None
    else if existsb is_digit key then None
    else
      let alias_norm := normalize_alias_norm key in
      let role := infer_role raw_text note is_combo in
      Some {| amount := amount; unit := unit; key := key; alias_norm := alias_norm;
              note := note; role := role |}.

Definition parse_ingredient_text_phase1 (raw_text : str) : list ParsedIngredient :=
  let '(text_main, note0) := preclean_extract_parentheses raw_text in
  let parts := split_combo text_main in
  let is_combo := (1 <? length parts)%nat in
  flat_map (fun part =>
              match parse_part raw_text note0 is_combo part with
              | Some p => [p]
              | None => []
              end) parts.

End Parser.

(** ** Recipe deterministic UUID, slug, short note *)

Section Promotion.
Context {U : Unicode} {St : Store}.

Definition recipe_uuid (source locale : str) (recipe_id : Z) : str :=
  uuid5 (source ++ py ":" ++ locale ++ py ":" ++ str_of_Z recipe_id).

Definition slugify (name : str) : str :=
  let s := remove_accents (str_lower name) in
  let s := strip_by (fun c => (c =? 45)%N) (sub_runs (fun c => negb (is_az09 c)) (py "-") s) in
  if truthy s then s else py "recipe".

(** [t[:n-1]] is [t] without its last character when [n] is 0. *)
Definition shorten (text : option str) (n : nat) : option str :=
  match text with
  | None => None
  | Some text =>
      if negb (truthy text) then None
      else
        let t := normalize_spaces text in
        Some (if (n <? length t)%nat
              then match n with O => removelast t | S m => firstn m t end ++ py "…"
              else t)
  end.

(** ** STG reads *)

Definition load_stg_recipe (stg_recipe_id : Z) : M connection (option (list value)) :=
  cur <- cur_execute SELECT_STG_RECIPE [VInt stg_recipe_id] ;; ret (fetchone cur).

Definition load_stg_steps (stg_recipe_id : Z) : M connection (list (list value)) :=
  cur <- cur_execute SELECT_STG_STEPS [VInt stg_recipe_id] ;; ret (fetchall cur).

Definition load_stg_ingredients (stg_recipe_id : Z) : M connection (list value) :=
  cur <- cur_execute SELECT_STG_INGREDIENTS [VInt stg_recipe_id] ;;
  ret (map (col 0) (fetchall cur)).

(** ** PROD writes *)

Definition upsert_product_recipe (rid_uuid name slug : str) (image_url short_note : value)
  : M connection Datatypes.unit :=
  _ <- cur_execute UPSERT_RECIPE
         [VText rid_uuid; VText name; VText slug; VText (py "weekday"); VText (py "weekday");
          VInt 15; VText (py "easy"); image_url; short_note] ;;
  ret tt.

Definition replace_recipe_steps (rid_uuid : str) (steps_rows : list (list value))
  : M connection Datatypes.unit :=
  _ <- cur_execute DELETE_RECIPE_STEPS [VText rid_uuid] ;;
  match steps_rows with
  | [] => ret tt
  | _ =>
      values <- map_M (fun row =>
                         step_index <- as_int (col 0 row) ;;
                         ret [VText rid_uuid; VInt (step_index + 1); col 1 row; VNull])
                  steps_rows ;;
      execute_values INSERT_RECIPE_STEPS values
  end.

Definition get_or_create_ingredient (key alias_norm : str) : M connection value :=
  let key := str_lower (strip key) in
  if negb (truthy key) then raise ValueError
  else
    cur <- cur_execute SELECT_ALIAS_BY_NORM [VText alias_norm] ;;
    match fetchone cur with
    | Some row => ret (col 0 row)
    | None =>
        cur <- cur_execute SELECT_INGREDIENT_BY_KEY [VText key] ;;
        match fetchone cur with
        | Some row =>
            let ingredient_id := col 0 row in
            _ <- cur_execute INSERT_ALIAS_DO_NOTHING [ingredient_id; VText key; VText alias_norm] ;;
            ret ingredient_id
        | None =>
            cur <- cur_execute UPSERT_INGREDIENT_RETURNING_ID
                     [VText key; VText key; VText alias_norm] ;;
            match fetchone cur with
            | None => raise TypeError
            | Some row =>
                let ingredient_id := col 0 row in
                _ <- cur_execute INSERT_ALIAS_DO_NOTHING
                       [ingredient_id; VText key; VText alias_norm] ;;
                ret ingredient_id
            end
        end
    end.

(** A value of the dict [dedup]: [(ing_id, amount, unit, note, role)]. *)
Definition dedup_row : Type := value * option Decimal * option str * option str * str.

Definition replace_recipe_ingredients (rid_uuid : str) (parsed_items : list dedup_row)
  : M connection Datatypes.unit :=
  _ <- cur_execute DELETE_RECIPE_INGREDIENTS [VText rid_uuid] ;;
  match parsed_items with
  | [] => ret tt
  | _ =>
      execute_values INSERT_RECIPE_INGREDIENTS
        (map (fun '(ing_id, amt, unit, note, role) =>
                [VText rid_uuid; ing_id; option_value VDecimal amt; option_value VText unit;
                 option_value VText note; VText role]) parsed_items)
  end.

Definition set_recipe_active (rid_uuid : str) (active : bool) : M connection Datatypes.unit :=
  _ <- cur_execute UPDATE_RECIPE_ACTIVE [VBool active; VText rid_uuid] ;; ret tt.

(** ** Orchestrator *)

(** The parts of a note: [[p.strip() for p in x.split(";") if p.strip()]]. *)
Definition note_parts (x : option str) : list str :=
  match x with
  | Some x =>
      if truthy x
      then filter truthy (map strip (fields (fun c => (c =? 59)%N) x))
      else []
  | None => []
  end.

(** The loop of [merge_note] that keeps the first of the parts that are
    equal up to case. *)
Fixpoint uniq_parts (parts : list str) (seen : list str) : list str :=
  match parts with
  | [] => []
  | p :: r =>
      let pl := str_lower p in
      if mem pl seen then uniq_parts r seen
      else p :: uniq_parts r (pl :: seen)
  end.

Definition merge_note (a b : option str) (max_len : nat) : option str :=
  let parts := note_parts a ++ note_parts b in
  let uniq := uniq_parts parts [] in
  let out := join (py "; ") uniq in
  if negb (truthy out) then None else Some (firstn max_len out).

Definition pick_role (old_role new_role : str) : str :=
  if str_eqb old_role (py "core") || str_eqb new_role (py "core") then py "core"
  else py "optional".

Definition has_amount (amount : option Decimal) : bool :=
  match amount with Some _ => true | None => false end.

Definition looks_like_sentence (text : str) : bool :=
  (8 <? length (split text))%nat.

Definition BAD_PREFIXES : list str :=
  map py ["mình có"; "bạn nào"; "ai có"; "nhà mình"; "ở sg"; "ở hn"; "mình ở"]%string.

Definition strip_bad_prefix (text : str) : str :=
  let t := str_lower text in
  match find (fun p => startswith t p) BAD_PREFIXES with
  | Some p => strip (skipn (length p) text)
  | None => text
  end.

(** [dedup]: an insertion-ordered dict. *)
Definition dedup_dict : Type := list (str * dedup_row).

Fixpoint dedup_get (d : dedup_dict) (k : str) : option dedup_row :=
  match d with
  | [] => None
  | (k', v) :: r => if str_eqb k k' then Some v else dedup_get r k
  end.

Fixpoint dedup_set (d : dedup_dict) (k : str) (v : dedup_row) : dedup_dict :=
  match d with
  | [] => [(k, v)]
  | (k', v') :: r => if str_eqb k k' then (k', v) :: r else (k', v') :: dedup_set r k v
  end.

(** The body of [for pi in parse_ingredient_text_phase1(raw)]. *)
Definition promote_item (pi_ : ParsedIngredient) (dedup : dedup_dict)
  : M connection dedup_dict :=
  ing_id <- get_or_create_ingredient (key pi_) (alias_norm pi_) ;;
  let ing_key := value_str ing_id in
  match dedup_get dedup ing_key with
  | None => ret (dedup_set dedup ing_key (ing_id, amount pi_, unit pi_, note pi_, role pi_))
  | Some (_, amt0, unit0, note0, role0) =>
      let role := pick_role role0 (role pi_) in
      let '(amt, unit) :=
        if has_amount amt0 then (amt0, unit0)
        else if has_amount (amount pi_) then (amount pi_, unit pi_)
        else (None, None) in
      let note := merge_note note0 (note pi_) 200 in
      ret (dedup_set dedup ing_key (ing_id, amt, unit, note, role))
  end.

(** The body of [for raw in ing_texts]. *)
Definition promote_line (raw : value) (dedup : dedup_dict) : M connection dedup_dict :=
  raw <- as_text raw ;;
  let raw := strip_bad_prefix raw in
  if looks_like_sentence raw then ret dedup
  else if negb (truthy raw) || negb (truthy (strip raw)) then ret dedup
  else for_each (parse_ingredient_text_phase1 raw) promote_item dedup.

Inductive promote_result :=
| Skipped (recipe_id : Z)
| Promoted (stg_recipe_id : Z) (product_recipe_id : str) (steps ingredients : nat)
    (active : bool).

(** The block [with prod_conn: with prod_conn.cursor() as pcur: ...]. *)
Definition promote_into_prod (rid_uuid pname slug : str) (name hero : value)
  (short_note : option str) (steps : list (list value)) (ing_texts : list value)
  : M connection (nat * bool) :=
  with_conn
    (upsert_product_recipe rid_uuid pname slug hero (option_value VText short_note) ;;;
     replace_recipe_steps rid_uuid steps ;;;
     dedup <- for_each ing_texts promote_line [] ;;
     let parsed_rows := map snd dedup in
     replace_recipe_ingredients rid_uuid parsed_rows ;;;
     let active := (3 <=? length steps)%nat && (4 <=? length parsed_rows)%nat
                   && (10 <=? length (text_or name []))%nat in
     set_recipe_active rid_uuid active ;;;
     ret (length parsed_rows, active)).

(** The two connections of [promote_recipe]. *)
Record connections := {
  stg_conn : connection;
  prod_conn : connection
}.

Definition on_stg {A : Type} (c : M connection A) : M connections A :=
  fun w =>
    let '(r, s) := c (stg_conn w) in
    (r, {| stg_conn := s; prod_conn := prod_conn w |}).

Definition on_prod {A : Type} (c : M connection A) : M connections A :=
  fun w =>
    let '(r, s) := c (prod_conn w) in
    (r, {| stg_conn := stg_conn w; prod_conn := s |}).

Definition promote_recipe (stg_recipe_id : Z) : M connections promote_result :=
  r <- on_stg (load_stg_recipe stg_recipe_id) ;;
  match r with
  | None => ret (Skipped stg_recipe_id)
  | Some r =>
      let name := col 3 r in
      let desc := col 4 r in
      let hero := col 5 r in
      steps <- on_stg (load_stg_steps stg_recipe_id) ;;
      ing_texts <- on_stg (load_stg_ingredients stg_recipe_id) ;;
      recipe_id <- as_int (col 0 r) ;;
      let rid_uuid :=
        recipe_uuid (text_or (col 1 r) (py "cookpad")) (text_or (col 2 r) (py "vi")) recipe_id in
      let pname := text_or name (py "Recipe " ++ value_str (col 0 r)) in
      let slug := slugify pname ++ py "-" ++ value_str (col 0 r) in
      let short_note :=
        shorten (match desc with VText d => Some d | _ => None end) 240 in
      res <- on_prod (promote_into_prod rid_uuid pname slug name hero short_note
                        steps ing_texts) ;;
      ret (Promoted stg_recipe_id rid_uuid (length steps) (fst res) (snd res))
  end.

(** ** The batch *)

(** The counters [ok], [skip] and [fail] of [run_batch]. *)
Record batch := {
  ok : Z;
  skip : Z;
  fail : Z
}.

(** The body of [for rid in ids]: whatever the promotion of one recipe
    raises is caught and counted. *)
Definition run_batch_step (rid : value) (b : batch) : M connections batch :=
  fun w =>
    match (rid <- as_int rid ;; promote_recipe rid) w with
    | (inr (Promoted _ _ _ _ _), w') =>
        (inr {| ok := ok b + 1; skip := skip b; fail := fail b |}%Z, w')
    | (inr (Skipped _), w') =>
        (inr {| ok := ok b; skip := skip b + 1; fail := fail b |}%Z, w')
    | (inl _, w') =>
        (inr {| ok := ok b; skip := skip b; fail := fail b + 1 |}%Z, w')
    end.

(** [run_batch] from [ids = list_recent_stg_ids(stg_conn, limit=limit)] on,
    the two connections being open: the counters and [total].  The query
    that lists the ids and the closing of the connections are not part of
    it. *)
Definition run_batch (ids : list value) : M connections (batch * Z) :=
  b <- for_each ids run_batch_step {| ok := 0; skip := 0; fail := 0 |}%Z ;;
  ret (b, Z.of_nat (length ids)).

End Promotion.

End Pipeline.

(* ================================================================== *)
(** * CSV files, as the code reads them *)
(* ================================================================== *)

(** A row as [csv.DictReader] yields it: the cells by column name.  A row
    with fewer cells than the header has [None] for the cells it lacks. *)
Definition csv_row : Type := list (str * option str).

(** [row.get(k)]: [None] when there is no column [k] or no cell for it. *)
Fixpoint row_get (row : csv_row) (k : str) : option str :=
  match row with
  | [] => None
  | (k', v) :: r => if str_eqb k k' then v else row_get r k
  end.

(** [row[k]]: the outer [None] stands for [KeyError]. *)
Fixpoint row_item (row : csv_row) (k : str) : option (option str) :=
  match row with
  | [] => None
  | (k', v) :: r => if str_eqb k k' then Some v else row_item r k
  end.

(** [x or ""] *)
Definition or_empty (x : option str) : str :=
  match x with Some s => s | None => [] end.

(* ================================================================== *)
(** * phase2_alias_job.py *)
(* ================================================================== *)

Module Phase2.

Definition STOPWORDS : list str :=
  map py ["va"; "voi"; "loai"; "moi"; "neu"; "thi"; "dung"; "cung"; "duoc"; "de";
          "it"; "mot"; "vai"; "khoang"; "hoac"; "cai"; "goi"; "hop"; "chai"; "lon";
          "tuoi"; "kho"; "an"; "uong"]%string.

Definition ABBREV_MAP : list (str * str) :=
  [ (py "nc", py "nuoc");
    (py "n.c", py "nuoc");
    (py "nuoc", py "nuoc");
    (py "sg", []);
    (py "hn", []) ].

Section Normalizer.
Context {U : Unicode}.

Definition remove_accents (s : str) : str :=
  let s := normalize_NFD s in
  let s := filter (fun ch => negb (category_Mn ch)) s in
  normalize_NFC s.

(** The loop of [normalize_key] over [s.split()]. *)
Fixpoint normalize_key_tokens (ts : list str) : list str :=
  match ts with
  | [] => []
  | t :: r =>
      let t := dict_get ABBREV_MAP t t in
      if negb (truthy t) || mem t STOPWORDS then normalize_key_tokens r
      else t :: normalize_key_tokens r
  end.

Definition normalize_key (s : str) : str :=
  let s := str_lower (strip s) in
  let s := remove_accents s in
  let s := sub_runs (fun c => negb (is_az09 c || isspace c)) [SPACE] s in
  let s := strip (sub_runs isspace [SPACE] s) in
  if negb (truthy s) then []
  else join [SPACE] (normalize_key_tokens (split s)).

End Normalizer.
Section Similarity.
Context {D : Difflib}.

Definition similarity (a b : str) : float :=
  if negb (truthy a) || negb (truthy b) then 0 else ratio a b.

End Similarity.

Section Heuristics.
Context {U : Unicode}.

Definition looks_bad_key (key : str) : bool :=
  if negb (truthy key) then true
  else if existsb is_digit key then true
  else if (40 <=? length key)%nat then true
  else if (8 <? length (split key))%nat then true
  else false.

Definition PACKAGING_WORDS : list str :=
  map py ["hop"; "goi"; "chai"; "lon"; "hu"; "bi"; "tui"; "loai"; "hop"; "chai"; "th";
          "lo"; "thung"; "vien"; "que"; "mieng"]%string.

Definition DANGEROUS_NEAR_PAIRS : list (str * str) :=
  [ (py "canh", py "chanh"); (py "chanh", py "canh");
    (py "suon", py "sun"); (py "sun", py "suon");
    (py "ga", py "gao"); (py "gao", py "ga");
    (py "ca", py "cua"); (py "cua", py "ca");
    (py "chan", py "cha"); (py "cha", py "chan") ].

Definition PROTEIN_TOKENS : list str :=
  map py ["ga"; "heo"; "bo"; "tom"; "ca"; "cua"; "de"; "vit"; "lon"]%string.

Definition tokens (n : str) : list str := filter truthy (split n).

Definition list_str_eqb (a b : list str) : bool :=
  if list_eq_dec (list_eq_dec N.eq_dec) a b then true else false.

(** Python sets of strings are lists read up to order and repetition. *)
Definition set_inter (a b : list str) : list str := filter (fun t => mem t b) a.

Definition set_eqb (a b : list str) : bool :=
  forallb (fun t => mem t b) a && forallb (fun t => mem t a) b.

Definition has_packaging_suffix (alias_norm canon_norm : str) : bool :=
  let ct := tokens canon_norm in
  let at_ := tokens alias_norm in
  if match ct with [] => true | _ => false end || (length at_ <=? length ct)%nat then false
  else if negb (list_str_eqb (firstn (length ct) at_) ct) then false
  else forallb (fun t => mem t PACKAGING_WORDS) (skipn (length ct) at_).

Definition is_format_only (canon_norm alias_norm : str) : bool :=
  str_eqb canon_norm alias_norm.

Definition has_dangerous_pair (canon_norm alias_norm : str) : bool :=
  let ct := tokens canon_norm in
  let at_ := tokens alias_norm in
  existsb (fun ab => mem (fst ab) ct && mem (snd ab) at_) DANGEROUS_NEAR_PAIRS.

Definition protein_mismatch (canon_norm alias_norm : str) : bool :=
  let ct := set_inter (tokens canon_norm) PROTEIN_TOKENS in
  let at_ := set_inter (tokens alias_norm) PROTEIN_TOKENS in
  match ct with [] => false | _ => true end
  && match at_ with [] => false | _ => true end
  && negb (set_eqb ct at_).

Definition last_token_diff (canon_norm alias_norm : str) : bool :=
  let ct := tokens canon_norm in
  let at_ := tokens alias_norm in
  match ct, at_ with
  | [], _ | _, [] => false
  | _, _ => negb (str_eqb (last ct []) (last at_ []))
  end.

End Heuristics.

(** ** Data structures *)

Record IngredientRow := {
  id : str;
  key : str;
  norm : str;
  used_count : Z
}.

(** [reason] is the text [norm_sim=<sc:.3f> bucket=<bucket>]; the record keeps
    the two values the text is rendered from. *)
Record Suggestion := {
  canonical_id : str;
  canonical_key : str;
  alias_id : str;
  alias_key : str;
  score : float;
  used_count_canonical : Z;
  used_count_alias : Z;
  reason : float * str
}.

(** ** Candidate grouping *)

Definition bucket_key (n : str) : str :=
  match n with
  | [] => py "empty"
  | first :: _ =>
      let ln := length n in
      let band := ((ln / 5) * 5)%nat in
      first :: py ":" ++ str_of_nat band
  end.

(** [buckets.setdefault(k, []).append(ing)] on an insertion-ordered dict. *)
Fixpoint bucket_append (k : str) (ing : IngredientRow)
  (buckets : list (str * list IngredientRow)) : list (str * list IngredientRow) :=
  match buckets with
  | [] => [(k, [ing])]
  | (k', items) :: r =>
      if str_eqb k k' then (k', items ++ [ing]) :: r
      else (k', items) :: bucket_append k ing r
  end.

(** [sorted(l, key=..., reverse=True)] and [l.sort(key=..., reverse=True)]: a
    stable sort by descending key; [gtb x y] says that the key of [x] is
    greater than the key of [y]. *)
Section Sorting.
Variable A : Type.
Variable gtb : A -> A -> bool.

Fixpoint insert_desc (x : A) (l : list A) : list A :=
  match l with
  | [] => [x]
  | y :: r => if gtb y x then y :: insert_desc x r else x :: l
  end.

Fixpoint sorted_desc (l : list A) : list A :=
  match l with
  | [] => []
  | x :: r => insert_desc x (sorted_desc r)
  end.

End Sorting.

Section Generator.
Context {U : Unicode} {D : Difflib}.
Variable min_score : float.
Variable max_pairs : Z.

Definition abs_diff (a b : nat) : nat := (a - b) + (b - a).

(** The body of the inner loop for the pair [(a, b2)]: [inr] is the early
    [return suggestions]. *)
Definition compare_pair (a b2 : IngredientRow) (st : list Suggestion * Z)
  : (list Suggestion * Z) + list Suggestion :=
  let '(suggestions, pair_count) := st in
  if (max_pairs <=? pair_count)%Z then inr suggestions
  else if (8 <=? abs_diff (length (norm a)) (length (norm b2)))%nat then inl st
  else
    let sc := similarity (norm a) (norm b2) in
    let pair_count := (pair_count + 1)%Z in
    if float_ltb sc min_score then inl (suggestions, pair_count)
    else
      let '(canonical, alias) :=
        if (used_count b2 <? used_count a)%Z
           || (used_count a =? used_count b2)%Z
              && (length (norm a) <=? length (norm b2))%nat
        then (a, b2) else (b2, a) in
      if str_eqb (str_lower (strip (key canonical))) (str_lower (strip (key alias)))
      then inl (suggestions, pair_count)
      else
        inl (suggestions ++
               [ {| canonical_id := id canonical;
                    canonical_key := key canonical;
                    alias_id := id alias;
                    alias_key := key alias;
                    score := sc;
                    used_count_canonical := used_count canonical;
                    used_count_alias := used_count alias;
                    reason := (sc, bucket_key (norm canonical)) |} ],
             pair_count).

(** [for j in range(i + 1, len(items))] *)
Fixpoint compare_with (a : IngredientRow) (rest : list IngredientRow)
  (st : list Suggestion * Z) : (list Suggestion * Z) + list Suggestion :=
  match rest with
  | [] => inl st
  | b2 :: rest' =>
      match compare_pair a b2 st with
      | inl st' => compare_with a rest' st'
      | inr r => inr r
      end
  end.

(** [for i in range(len(items))] *)
Fixpoint compare_within (items : list IngredientRow) (st : list Suggestion * Z)
  : (list Suggestion * Z) + list Suggestion :=
  match items with
  | [] => inl st
  | a :: rest =>
      match compare_with a rest st with
      | inl st' => compare_within rest st'
      | inr r => inr r
      end
  end.

(** [for b, items in buckets.items()] *)
Fixpoint compare_buckets (buckets : list (str * list IngredientRow))
  (st : list Suggestion * Z) : (list Suggestion * Z) + list Suggestion :=
  match buckets with
  | [] => inl st
  | (_, items) :: r =>
      if (length items <? 2)%nat then compare_buckets r st
      else
        let items := sorted_desc (fun x y => (used_count y <? used_count x)%Z) items in
        match compare_within items st with
        | inl st' => compare_buckets r st'
        | inr res => inr res
        end
  end.

Definition suggestion_key_gtb (x y : Suggestion) : bool :=
  float_ltb (score y) (score x)
  || Qeq_bool (score x) (score y) && (used_count_alias y <? used_count_alias x)%Z.

Definition generate_suggestions (ingredients : list IngredientRow) : list Suggestion :=
  let clean := filter (fun x => truthy (norm x) && negb (looks_bad_key (key x))) ingredients in
  let buckets :=
    fold_left (fun buckets ing => bucket_append (bucket_key (norm ing)) ing buckets) clean [] in
  match compare_buckets buckets ([], 0%Z) with
  | inr suggestions => suggestions
  | inl (suggestions, _) => sorted_desc suggestion_key_gtb suggestions
  end.

End Generator.

(** ** Decision classifier: the decision computed by [export_csv] *)

Inductive decision := manual_review | auto_reject | auto_approve.

Section Classifier.
Context {U : Unicode}.

(** The columns [decision] and [approved] of the row written for [s]. *)
Definition classify (approve_packaging : bool) (s : Suggestion) : decision * str :=
  let canon_norm := normalize_key (canonical_key s) in
  let alias_norm := normalize_key (alias_key s) in
  if looks_bad_key (alias_key s) || looks_bad_key (canonical_key s) then (auto_reject, [])
  else if protein_mismatch canon_norm alias_norm then (auto_reject, [])
  else if has_dangerous_pair canon_norm alias_norm then (auto_reject, [])
  else if last_token_diff canon_norm alias_norm && float_ltb (score s) FLOAT_0_98
  then (auto_reject, [])
  else if is_format_only canon_norm alias_norm then (auto_approve, py "Y")
  else if approve_packaging && has_packaging_suffix alias_norm canon_norm
  then (auto_approve, py "Y")
  else (manual_review, []).

(** [suggestions[:limit]] *)
Definition slice_to {A : Type} (limit : Z) (l : list A) : list A :=
  if (limit <? 0)%Z then firstn (length l - Z.to_nat (- limit)) l
  else firstn (Z.to_nat limit) l.

(** The data rows of the CSV written by [export_csv], before formatting. *)
Definition export_csv (suggestions : list Suggestion) (limit : Z) (approve_packaging : bool)
  : list (Suggestion * (decision * str)) :=
  map (fun s => (s, classify approve_packaging s)) (slice_to limit suggestions).

End Classifier.

(** ** Apply (alias + migrate) *)

(** The two tables written by the Merge Executor.  Nullable columns are
    options. *)
Record alias_row := {
  al_ingredient_id : str;
  al_alias : str;
  al_alias_norm : str
}.

Record recipe_ingredient := {
  ri_recipe_id : str;
  ri_ingredient_id : str;
  ri_amount : option Decimal;
  ri_unit : option str;
  ri_note : option str;
  ri_role : option str
}.

Record database := {
  ingredient_aliases : list alias_row;
  recipe_ingredients : list recipe_ingredient
}.

Section Apply.
Context {U : Unicode}.

(** The uniqueness constraints of the table [ingredient_aliases], whose
    declaration is not part of the repository: [alias_conflict new old] says
    that inserting [new] conflicts with the existing row [old]. *)
Variable alias_conflict : alias_row -> alias_row -> bool.

Definition alias_norm_for_alias (alias_key : str) : str := normalize_key alias_key.

(** [SQL_INSERT_ALIAS]: insert ... on conflict do nothing. *)
Definition sql_insert_alias (canonical_id alias_key an : str) (t : list alias_row)
  : list alias_row :=
  let row := {| al_ingredient_id := canonical_id; al_alias := alias_key;
                al_alias_norm := an |} in
  if existsb (alias_conflict row) t then t else t ++ [row].

Definition coalesce {A : Type} (a b : option A) : option A :=
  match a with Some _ => a | None => b end.

Definition is_core (role : option str) : bool :=
  match role with Some r => str_eqb r (py "core") | None => false end.

(** The [set] clause of the [update] of [SQL_MERGE_CONFLICTS], for the
    canonical row [c] and the conflicting alias row [a]. *)
Definition merge_rows (c a : recipe_ingredient) : recipe_ingredient :=
  {| ri_recipe_id := ri_recipe_id c;
     ri_ingredient_id := ri_ingredient_id c;
     ri_amount := coalesce (ri_amount c) (ri_amount a);
     ri_unit := coalesce (ri_unit c) (ri_unit a);
     ri_note :=
       match ri_note c, ri_note a with
       | None, None => None
       | None, Some an => Some an
       | Some cn, None => Some cn
       | Some cn, Some an => Some (firstn 200 (cn ++ py "; " ++ an))
       end;
     ri_role := if is_core (ri_role c) || is_core (ri_role a) then Some (py "core")
                else ri_role c |}.

Definition row_of (recipe ingredient : str) (r : recipe_ingredient) : bool :=
  str_eqb (ri_recipe_id r) recipe && str_eqb (ri_ingredient_id r) ingredient.

(** [SQL_MERGE_CONFLICTS]: [conflicts] pairs the canonical row and the alias
    row of a recipe that has both; the canonical row is updated from the
    pair, the alias row of the pair is deleted.  Both read the table as it
    was before the statement.  With the unique [(recipe_id, ingredient_id)]
    there is at most one pair per recipe; [find] takes the first. *)
Definition sql_merge_conflicts (canonical_id alias_id : str) (t : list recipe_ingredient)
  : list recipe_ingredient :=
  let updated :=
    map (fun c =>
           if str_eqb (ri_ingredient_id c) canonical_id then
             match find (row_of (ri_recipe_id c) alias_id) t with
             | Some a => merge_rows c a
             | None => c
             end
           else c) t in
  filter (fun a =>
            negb (str_eqb (ri_ingredient_id a) alias_id
                  && existsb (row_of (ri_recipe_id a) canonical_id) t)) updated.

(** [SQL_UPDATE_NON_CONFLICT] *)
Definition sql_update_non_conflict (canonical_id alias_id : str) (t : list recipe_ingredient)
  : list recipe_ingredient :=
  map (fun a =>
         if str_eqb (ri_ingredient_id a) alias_id
            && negb (existsb (row_of (ri_recipe_id a) canonical_id) t)
         then {| ri_recipe_id := ri_recipe_id a;
                 ri_ingredient_id := canonical_id;
                 ri_amount := ri_amount a;
                 ri_unit := ri_unit a;
                 ri_note := ri_note a;
                 ri_role := ri_role a |}
         else a) t.

(** [apply_one_pair]: with [dry_run] the statements are only printed. *)
Definition apply_one_pair (conn : database)
  (canonical_id canonical_key alias_id alias_key : str) (dry_run : bool) : database :=
  let an := alias_norm_for_alias alias_key in
  let aliases :=
    if dry_run then ingredient_aliases conn
    else sql_insert_alias canonical_id alias_key an (ingredient_aliases conn) in
  let ri := recipe_ingredients conn in
  let ri := if dry_run then ri else sql_merge_conflicts canonical_id alias_id ri in
  let ri := if dry_run then ri else sql_update_non_conflict canonical_id alias_id ri in
  {| ingredient_aliases := aliases; recipe_ingredients := ri |}.

End Apply.

(** ** The approved pairs *)

Section Load.
Context {U : Unicode}.

(** The test of [load_approved_pairs] on the column [approved]. *)
Definition is_approved (row : csv_row) : bool :=
  let approved := str_lower (strip (or_empty (row_get row (py "approved")))) in
  mem approved (map py ["y"; "yes"; "1"; "true"]%string).

(** [(canonical_id, canonical_key, alias_id, alias_key)], each a cell. *)
Definition pair : Type := (option str * option str * option str * option str)%type.

(** [load_approved_pairs], from the rows that [csv.DictReader] yields;
    [None] stands for the [KeyError] of an approved row without one of the
    four columns. *)
Fixpoint load_approved_pairs (rows : list csv_row) : option (list pair) :=
  match rows with
  | [] => Some []
  | row :: rest =>
      if is_approved row then
        match row_item row (py "canonical_id"), row_item row (py "canonical_key"),
              row_item row (py "alias_id"), row_item row (py "alias_key") with
        | Some cid, Some ckey, Some aid, Some akey =>
            match load_approved_pairs rest with
            | Some pairs => Some ((cid, ckey, aid, akey) :: pairs)
            | None => None
            end
        | _, _, _, _ => None
        end
      else load_approved_pairs rest
  end.

End Load.

End Phase2.

(* ================================================================== *)
(** * fill_key_norm.py *)
(* ================================================================== *)

Module FillKeyNorm.
Section Normalizer.
Context {U : Unicode}.

Definition norm_text (s : str) : str :=
  if negb (truthy s) then []
  else
    let s := str_lower s in
    let s := normalize_NFD s in
    let s := filter (fun c => negb (category_Mn c)) s in
    let s := sub_runs (fun c => negb (is_az09 c)) [SPACE] s in
    strip s.

End Normalizer.
End FillKeyNorm.

(* ================================================================== *)
(** * resolve_collisions.py *)
(* ================================================================== *)

Module ResolveCollisions.

Record Row := {
  alias_norm : str;
  canonical_id : str;
  canonical_key : str;
  decision : str;
  notes : str
}.

(** The dict [stats] of [apply_one_alias]. *)
Record stats := {
  aliases : Z;
  ri_conflicts_deleted : Z;
  ri_updated : Z;
  ingredients_deleted : Z
}.

(** The dict [total] of [run_apply]. *)
Record totals := {
  t_alias_norms : Z;
  t_skipped_manual : Z;
  t_aliases : Z;
  t_ri_conflicts_deleted : Z;
  t_ri_updated : Z;
  t_ingredients_deleted : Z
}.

Section Resolver.
Context {St : Store}.

(** [cur.fetchone()[0]] as a number. *)
Definition fetch_count (cur : cursor) : M connection Z :=
  match fetchone cur with
  | Some row => as_int (col 0 row)
  | None => raise TypeError
  end.

(** The body of [for other_id in other_ids]. *)
Definition resolve_other (alias_norm canonical_id : str) (dry_run : bool)
  (other_id : value) (st : stats) : M connection stats :=
  (* 1) remove conflicts to avoid unique violation *)
  n1 <- (if negb dry_run
         then cur <- cur_execute SQL_DELETE_CONFLICTS [other_id; VText canonical_id] ;;
              ret (rowcount cur)
         else cur <- cur_execute COUNT_CONFLICTS [other_id; VText canonical_id] ;;
              fetch_count cur) ;;
  (* 2) migrate recipe_ingredients *)
  n2 <- (if negb dry_run
         then cur <- cur_execute SQL_UPDATE_RECIPE_INGREDIENTS [VText canonical_id; other_id] ;;
              ret (rowcount cur)
         else cur <- cur_execute COUNT_RECIPE_INGREDIENTS [other_id] ;;
              fetch_count cur) ;;
  (* 3) repoint aliases of this alias_norm *)
  n3 <- (if negb dry_run
         then _ <- cur_execute SQL_INSERT_ALIASES_TO_CANONICAL
                     [VText canonical_id; other_id; VText alias_norm; VText canonical_id] ;;
              cur <- cur_execute SQL_DELETE_ALIASES_FROM_OTHER [other_id; VText alias_norm] ;;
              ret (rowcount cur)
         else cur <- cur_execute COUNT_ALIASES [other_id; VText alias_norm] ;;
              fetch_count cur) ;;
  (* 4) delete orphan ingredient if no longer referenced *)
  n4 <- (if negb dry_run
         then cur <- cur_execute SQL_DELETE_INGREDIENT_IF_ORPHAN [other_id] ;;
              ret (rowcount cur)
         else cur <- cur_execute CHECK_ORPHAN [other_id; other_id] ;;
              match fetchone cur with
              | Some row => ret (if value_truthy (col 0 row) then 1 else 0)%Z
              | None => raise TypeError
              end) ;;
  ret {| aliases := aliases st + n3;
         ri_conflicts_deleted := ri_conflicts_deleted st + n1;
         ri_updated := ri_updated st + n2;
         ingredients_deleted := ingredients_deleted st + n4 |}%Z.

Definition apply_one_alias (alias_norm canonical_id : str) (dry_run : bool)
  : M connection stats :=
  cur <- cur_execute SQL_OTHER_IDS_FOR_ALIAS [VText alias_norm; VText canonical_id] ;;
  let other_ids := map (col 0) (fetchall cur) in
  for_each other_ids (resolve_other alias_norm canonical_id dry_run)
    {| aliases := 0; ri_conflicts_deleted := 0; ri_updated := 0;
       ingredients_deleted := 0 |}%Z.

(** [for attempt in range(3)], from [attempt] on: the transaction of one
    alias_norm; a [UniqueViolation] rolls back and, unless it is the last
    attempt, tries again; every other exception propagates at once.
    [remaining] counts the iterations left and only makes the recursion
    structural: called as [attempts 3 0], the loop leaves by [break] or by
    [raise] at [attempt = 2], so the case [O] (where Python would find
    [stats] unbound) is never reached. *)
Fixpoint attempts (remaining : nat) (attempt : nat) (r : Row) (dry_run : bool)
  : M connection stats :=
  match remaining with
  | O => raise TypeError
  | S remaining' =>
      fun conn =>
        match with_conn (apply_one_alias (alias_norm r) (canonical_id r) dry_run) conn with
        | (inr st, conn') => (inr st, conn')
        | (inl UniqueViolation, conn') =>
            let conn' := rollback conn' in
            if (attempt =? 2)%nat then (inl UniqueViolation, conn')
            else attempts remaining' (S attempt) r dry_run conn'
        | (inl e, conn') => (inl e, conn')
        end
  end.

(** The body of [for idx, r in enumerate(rows, 1)]; the progress line it
    prints is not part of the state. *)
Definition apply_row (dry_run : bool) (r : Row) (total : totals) : M connection totals :=
  if negb (truthy (alias_norm r)) || negb (truthy (canonical_id r)) then ret total
  else if negb (str_eqb (decision r) (py "auto")) then
    ret {| t_alias_norms := t_alias_norms total;
           t_skipped_manual := t_skipped_manual total + 1;
           t_aliases := t_aliases total;
           t_ri_conflicts_deleted := t_ri_conflicts_deleted total;
           t_ri_updated := t_ri_updated total;
           t_ingredients_deleted := t_ingredients_deleted total |}%Z
  else
    st <- attempts 3 0 r dry_run ;;
    ret {| t_alias_norms := t_alias_norms total + 1;
           t_skipped_manual := t_skipped_manual total;
           t_aliases := t_aliases total + aliases st;
           t_ri_conflicts_deleted := t_ri_conflicts_deleted total + ri_conflicts_deleted st;
           t_ri_updated := t_ri_updated total + ri_updated st;
           t_ingredients_deleted := t_ingredients_deleted total + ingredients_deleted st |}%Z.

Definition run_apply (rows : list Row) (dry_run : bool) : M connection totals :=
  for_each rows (apply_row dry_run)
    {| t_alias_norms := 0; t_skipped_manual := 0; t_aliases := 0;
       t_ri_conflicts_deleted := 0; t_ri_updated := 0; t_ingredients_deleted := 0 |}%Z.

End Resolver.

Section Reader.
Context {U : Unicode}.

(** [read_csv], from the rows that [csv.DictReader] yields. *)
Definition read_csv (rows : list csv_row) : list Row :=
  map (fun r =>
         {| alias_norm := strip (or_empty (row_get r (py "alias_norm")));
            canonical_id := strip (or_empty (row_get r (py "canonical_id")));
            canonical_key := strip (or_empty (row_get r (py "canonical_key")));
            decision := str_lower (strip (or_empty (row_get r (py "decision"))));
            notes := strip (or_empty (row_get r (py "notes"))) |})
      rows.

End Reader.

End ResolveCollisions.

(* ================================================================== *)
(** * A scripted store *)
(* ================================================================== *)

(** A store for evaluating the code on concrete inputs.  Its state is the
    trace of the statements executed and of the commits and rollbacks, the
    latest first.  A statement answers with the rows scripted for it;
    [SQL_INSERT_ALIASES_TO_CANONICAL] raises [UniqueViolation] when the
    alias_norm it is given is in [colliding]. *)
Module Scripted.

Inductive event :=
| Executed (q : sql) (params : list (list value))
| Committed
| RolledBack.

Definition has_text (s : str) (params : list (list value)) : bool :=
  existsb (existsb (fun v => match v with VText x => str_eqb x s | _ => false end)) params.

Definition store (colliding : list str) (answer : sql -> list (list value) -> cursor)
  : Store := {|
  connection := list event;
  execute := fun q params trace =>
    let trace := Executed q params :: trace in
    match q with
    | SQL_INSERT_ALIASES_TO_CANONICAL =>
        if existsb (fun s => has_text s params) colliding
        then (inl UniqueViolation, trace)
        else (inr (answer q params), trace)
    | _ => (inr (answer q params), trace)
    end;
  commit := fun trace => Committed :: trace;
  rollback := fun trace => RolledBack :: trace;
  uuid5 := fun name => py "uuid5:" ++ name
|}.

(** The statements of the trace that mention the text [s]. *)
Definition mentions (s : str) (trace : list event) : list event :=
  filter (fun e => match e with Executed _ params => has_text s params | _ => false end) trace.

End Scripted.

(** ** A store with scripted faults

    As the scripted store, with the statements that raise chosen by
    [fault], from the trace so far, the statement and its parameters. *)
Module Faulty.

Definition store
  (fault : list Scripted.event -> sql -> list (list value) -> option exn)
  (answer : sql -> list (list value) -> cursor) : Store := {|
  connection := list Scripted.event;
  execute := fun q params trace =>
    let trace' := Scripted.Executed q params :: trace in
    match fault trace q params with
    | Some e => (inl e, trace')
    | None => (inr (answer q params), trace')
    end;
  commit := fun trace => Scripted.Committed :: trace;
  rollback := fun trace => Scripted.RolledBack :: trace;
  uuid5 := fun name => py "uuid5:" ++ name
|}.

Definition rolled_back (trace : list Scripted.event) : bool :=
  existsb (fun e => match e with Scripted.RolledBack => true | _ => false end) trace.

End Faulty.

(** ** A store that keeps the trace of another

    The connection of [St] with the statements executed on it and its
    commits and rollbacks, the latest first.  The store answers as [St]
    does. *)
Module Traced.
Section Traced.
Variable St : Store.

Definition store : Store := {|
  connection := (@connection St * list Scripted.event)%type;
  execute := fun q params c =>
    let '(r, c') := @execute St q params (fst c) in
    (r, (c', Scripted.Executed q params :: snd c));
  commit := fun c => (@commit St (fst c), Scripted.Committed :: snd c);
  rollback := fun c => (@rollback St (fst c), Scripted.RolledBack :: snd c);
  uuid5 := @uuid5 St
|}.

End Traced.
End Traced.

(* ================================================================== *)
(** * Notions used in the statements *)
(* ================================================================== *)

(** The common core of the three normalizers: every maximal run of
    characters of the class [p] becomes one space, and the spaces at both
    ends are dropped. *)
Definition squeeze (p : char -> bool) (s : str) : str :=
  rstrip_by isspace (sub_runs_from p [SPACE] true s).

(** The characters of the class [p] in [s] are single spaces, none of them
    next to another ([after_sep]: the previous character was one). *)
Fixpoint isolated (p : char -> bool) (after_sep : bool) (s : str) : bool :=
  match s with
  | [] => true
  | c :: r =>
      if p c then (c =? SPACE)%N && negb after_sep && isolated p true r
      else isolated p false r
  end.

(** A token: a non-empty string of characters of [[a-z0-9]]. *)
Definition is_token (t : str) : bool := truthy t && forallb is_az09 t.

Definition not_az09 (c : char) : bool := negb (is_az09 c).

Definition tokens_ok (ts : list str) : Prop := Forall (fun t => is_token t = true) ts.

(** What the Candidate Generator promises of a suggestion [s] drawn from
    [ingredients]: its score reaches [min_score] and is the similarity of the
    normalized keys of the two rows it names, and the canonical row is used
    more often than the alias row, or as often with a normalized key that is
    not longer. *)
Definition well_chosen {D : Difflib} (min_score : float)
  (ingredients : list Phase2.IngredientRow) (s : Phase2.Suggestion) : Prop :=
  (min_score <= Phase2.score s)%Q
  /\ exists c al : Phase2.IngredientRow,
       In c ingredients /\ In al ingredients
       /\ Phase2.canonical_id s = Phase2.id c /\ Phase2.canonical_key s = Phase2.key c
       /\ Phase2.alias_id s = Phase2.id al /\ Phase2.alias_key s = Phase2.key al
       /\ Phase2.used_count_canonical s = Phase2.used_count c
       /\ Phase2.used_count_alias s = Phase2.used_count al
       /\ (Phase2.score s = Phase2.similarity (Phase2.norm c) (Phase2.norm al)
           \/ Phase2.score s = Phase2.similarity (Phase2.norm al) (Phase2.norm c))
       /\ ((Phase2.used_count al < Phase2.used_count c)%Z
           \/ (Phase2.used_count c = Phase2.used_count al
               /\ (length (Phase2.norm c) <= length (Phase2.norm al))%nat)).

(** The suggestions collected so far, at a normal exit of a loop ([inl]) or
    at the early return ([inr]), are all as promised. *)
Definition promised {D : Difflib} (min_score : float)
  (ingredients : list Phase2.IngredientRow)
  (r : (list Phase2.Suggestion * Z) + list Phase2.Suggestion) : Prop :=
  match r with
  | inl (suggestions, _) => Forall (well_chosen min_score ingredients) suggestions
  | inr suggestions => Forall (well_chosen min_score ingredients) suggestions
  end.

(** [x] is used at least as often as [y]. *)
Definition usage_ge (x y : Phase2.IngredientRow) : Prop :=
  (Phase2.used_count y <= Phase2.used_count x)%Z.

(** A constraint of [ingredient_aliases] for evaluation on concrete states:
    unique [(ingredient_id, alias_norm)]. *)
Definition unique_ingredient_alias_norm (new old : Phase2.alias_row) : bool :=
  str_eqb (Phase2.al_ingredient_id new) (Phase2.al_ingredient_id old)
  && str_eqb (Phase2.al_alias_norm new) (Phase2.al_alias_norm old).

(** The transaction of one group of the Collision Resolver: the block
    [with conn: stats = apply_one_alias(...)]. *)
Definition group_transaction {St : Store} (r : ResolveCollisions.Row) (dry_run : bool)
  : M connection ResolveCollisions.stats :=
  with_conn (ResolveCollisions.apply_one_alias (ResolveCollisions.alias_norm r)
               (ResolveCollisions.canonical_id r) dry_run).

(** A row of the collision CSV that [run_apply] acts on. *)
Definition selected (r : ResolveCollisions.Row) : bool :=
  truthy (ResolveCollisions.alias_norm r) && truthy (ResolveCollisions.canonical_id r)
  && str_eqb (ResolveCollisions.decision r) (py "auto").

(** The ingredient lines that the promotion loop does not skip as
    sentences. *)
Definition not_sentence {U : Unicode} (raw : value) : bool :=
  match raw with
  | VText raw => negb (Pipeline.looks_like_sentence (Pipeline.strip_bad_prefix raw))
  | _ => true
  end.

(** A pattern without groups, and the texts it can consume: what remains of
    its meaning when the conditions on the context ([^], [$], [\b]) and the
    order of the attempts are forgotten. *)
Fixpoint group_free (r : Regex.regex) : bool :=
  match r with
  | Regex.Group _ _ => false
  | Regex.Seq r1 r2 | Regex.Alt r1 r2 => group_free r1 && group_free r2
  | _ => true
  end.

Fixpoint lang {U : Unicode} (ignorecase : bool) (r : Regex.regex) (w : str) : Prop :=
  match r with
  | Regex.Eps | Regex.Bol | Regex.Eol | Regex.WordB => w = []
  | Regex.Lit c => exists x, w = [x] /\ Regex.lit_eq ignorecase c x = true
  | Regex.Cls p => exists x, w = [x] /\ p x = true
  | Regex.Seq r1 r2 => exists w1 w2, w = w1 ++ w2 /\ lang ignorecase r1 w1 /\ lang ignorecase r2 w2
  | Regex.Alt r1 r2 => lang ignorecase r1 w \/ lang ignorecase r2 w
  | Regex.Rep _ lo _ p => forallb p w = true /\ (lo <= length w)%nat
  | Regex.Group _ r => lang ignorecase r w
  end.

(** The full stop and the comma are not digits. *)
Class DigitLaws (U : Unicode) : Prop := {
  stop_not_digit : decimal 46%N = None;
  comma_not_digit : decimal 44%N = None
}.

(** What [NFC] does once the marks are removed.  In the Unicode character
    database every canonical composition whose first character is one of
    [[a-z0-9]] has a combining mark of the category [Mn] as its second, and
    no canonical decomposition is a single character of [[a-z0-9]].  So in a
    decomposed text without its marks, recomposition puts together, and
    canonical ordering moves, only characters outside [[a-z0-9]]: the runs of
    [[a-z0-9]] stay, and the text in which every other run is one space is
    the same before and after [NFC]. *)
Class ComposeLaws (U : Unicode) : Prop := {
  NFC_marks_free : forall s,
    let u := filter (fun c => negb (category_Mn c)) (normalize_NFD s) in
    squeeze not_az09 (normalize_NFC u) = squeeze not_az09 u
}.

(** ** The instance: what decomposition leaves *)

(** Three rounds of [decompose1], as in [LatinVN.nfd]. *)
Definition latinvn_decompose3 (s : str) : str :=
  flat_map LatinVN.decompose1 (flat_map LatinVN.decompose1 (flat_map LatinVN.decompose1 s)).

(** A character that has no decomposition and is not reordered. *)
Definition latinvn_fixed (c : char) : bool :=
  match LatinVN.decompose1 c with [x] => (x =? c)%N | _ => false end
  && (LatinVN.ccc c =? 0)%N.

(** A character of a decomposed text: a combining mark or a fixed one. *)
Definition latinvn_settled (c : char) : bool :=
  category_Mn (Unicode := LatinVN.unicode) c || latinvn_fixed c.

(** ** The table of aliases *)

(** Modelled from the spec: the declaration of the table
    [ingredient_aliases] is not in the repository.  The spec gives its shape
    as [IngredientAlias{ingredient_id, alias, alias_norm}], without a
    uniqueness constraint (it writes [UNIQUE] for the keys of the two other
    tables), and says that [alias_norm] is not unique: no row conflicts with
    another. *)
Definition no_alias_constraint (new old : Phase2.alias_row) : bool := false.

(** The alias row that [apply_one_pair] inserts. *)
Definition inserted_alias {U : Unicode} (canonical_id alias_key : str) : Phase2.alias_row :=
  {| Phase2.al_ingredient_id := canonical_id;
     Phase2.al_alias := alias_key;
     Phase2.al_alias_norm := Phase2.alias_norm_for_alias alias_key |}.

(** ** Notes *)

(** A part of a note: not empty, stripped, without [;]. *)
Definition note_part (p : str) : Prop :=
  p <> [] /\ strip p = p /\ forallb (fun c => negb (c =? 59)%N) p = true.

(** ** The dict of the promotion loop *)

(** The identifier of a row of [dedup]. *)
Definition ing_id_of (row : Pipeline.dedup_row) : value :=
  let '(ing_id, _, _, _, _) := row in ing_id.

(** The invariant of the dict [dedup]: the keys are distinct, and a key is
    the text of the identifier of its row. *)
Definition dedup_ok (d : Pipeline.dedup_dict) : Prop :=
  NoDup (map fst d) /\ Forall (fun kv => fst kv = value_str (ing_id_of (snd kv))) d.

(** ** The loops of the generator *)

(** What a loop keeps: [Q] of its state at a normal exit, [Qr] of the list
    returned early. *)
Definition kept {A B : Type} (Q : A -> Prop) (Qr : B -> Prop) (r : A + B) : Prop :=
  match r with inl st => Q st | inr res => Qr res end.

(** [int(s)] for a string of ASCII digits. *)
Definition nat_of_digits (s : str) : nat :=
  fold_left (fun a c => (a * 10 + N.to_nat (c - 48))%nat) s O.

(** The two rows of a suggestion come from [ingredients], have normalized
    keys that are not empty, start with the same character and have lengths
    in the same band of five (they are filed in the same bucket), hence
    lengths that differ by less than five; [reason] names that bucket. *)
Definition same_bucket (ingredients : list Phase2.IngredientRow) (s : Phase2.Suggestion)
  : Prop :=
  exists c al : Phase2.IngredientRow,
    In c ingredients /\ In al ingredients
    /\ Phase2.canonical_id s = Phase2.id c /\ Phase2.canonical_key s = Phase2.key c
    /\ Phase2.alias_id s = Phase2.id al /\ Phase2.alias_key s = Phase2.key al
    /\ Phase2.norm c <> [] /\ Phase2.norm al <> []
    /\ hd_error (Phase2.norm c) = hd_error (Phase2.norm al)
    /\ (length (Phase2.norm c) / 5 = length (Phase2.norm al) / 5)%nat
    /\ (Phase2.abs_diff (length (Phase2.norm c)) (length (Phase2.norm al)) <= 4)%nat
    /\ snd (Phase2.reason s) = Phase2.bucket_key (Phase2.norm c).

(** The keys of a suggestion are not garbage, and not the same key up to
    case and surrounding whitespace. *)
Definition clean_pair {U : Unicode} (s : Phase2.Suggestion) : Prop :=
  Phase2.looks_bad_key (Phase2.canonical_key s) = false
  /\ Phase2.looks_bad_key (Phase2.alias_key s) = false
  /\ str_lower (strip (Phase2.canonical_key s)) <> str_lower (strip (Phase2.alias_key s)).

(** A row that the generator files in the bucket [k]. *)
Definition in_bucket {U : Unicode} (ingredients : list Phase2.IngredientRow) (k : str)
  (x : Phase2.IngredientRow) : Prop :=
  In x ingredients /\ Phase2.norm x <> [] /\ Phase2.looks_bad_key (Phase2.key x) = false
  /\ Phase2.bucket_key (Phase2.norm x) = k.

Definition paired {U : Unicode} (ingredients : list Phase2.IngredientRow)
  (s : Phase2.Suggestion) : Prop :=
  same_bucket ingredients s /\ clean_pair s.

(** The order of the final sort: by score, then by the usage of the alias,
    both descending. *)
Definition suggestion_key_ge (x y : Phase2.Suggestion) : Prop :=
  (Phase2.score y < Phase2.score x)%Q
  \/ ((Phase2.score x == Phase2.score y)%Q
      /\ (Phase2.used_count_alias y <= Phase2.used_count_alias x)%Z).

(** The number of pairs [(i, j)], [i < j], of [n] items. *)
Fixpoint npairs (n : nat) : nat :=
  match n with
  | O => O
  | S m => (m + npairs m)%nat
  end.

(** ** The rules of the classifier *)

(** The suggestion with its two sides exchanged. *)
Definition swapped (s : Phase2.Suggestion) : Phase2.Suggestion :=
  {| Phase2.canonical_id := Phase2.alias_id s;
     Phase2.canonical_key := Phase2.alias_key s;
     Phase2.alias_id := Phase2.canonical_id s;
     Phase2.alias_key := Phase2.canonical_key s;
     Phase2.score := Phase2.score s;
     Phase2.used_count_canonical := Phase2.used_count_alias s;
     Phase2.used_count_alias := Phase2.used_count_canonical s;
     Phase2.reason := Phase2.reason s |}.

(** The four rules of [export_csv] that reject a suggestion. *)
Definition rejected {U : Unicode} (s : Phase2.Suggestion) : bool :=
  let canon_norm := Phase2.normalize_key (Phase2.canonical_key s) in
  let alias_norm := Phase2.normalize_key (Phase2.alias_key s) in
  Phase2.looks_bad_key (Phase2.alias_key s) || Phase2.looks_bad_key (Phase2.canonical_key s)
  || Phase2.protein_mismatch canon_norm alias_norm
  || Phase2.has_dangerous_pair canon_norm alias_norm
  || Phase2.last_token_diff canon_norm alias_norm && float_ltb (Phase2.score s) FLOAT_0_98.

Definition is_auto_approve (d : Phase2.decision) : bool :=
  match d with Phase2.auto_approve => true | _ => false end.

(** The row of the CSV holds what [export_csv] wrote for a suggestion, in
    the columns that [load_approved_pairs] reads. *)
Definition written (row : csv_row) (x : Phase2.Suggestion * (Phase2.decision * str)) : Prop :=
  row_item row (py "canonical_id") = Some (Some (Phase2.canonical_id (fst x)))
  /\ row_item row (py "canonical_key") = Some (Some (Phase2.canonical_key (fst x)))
  /\ row_item row (py "alias_id") = Some (Some (Phase2.alias_id (fst x)))
  /\ row_item row (py "alias_key") = Some (Some (Phase2.alias_key (fst x)))
  /\ row_get row (py "approved") = Some (snd (snd x)).

(** The pair that [load_approved_pairs] returns for a suggestion. *)
Definition pair_of (s : Phase2.Suggestion) : Phase2.pair :=
  (Some (Phase2.canonical_id s), Some (Phase2.canonical_key s),
   Some (Phase2.alias_id s), Some (Phase2.alias_key s)).

(** ** The join-rows *)

(** The key of a join-row: [(recipe_id, ingredient_id)]. *)
Definition ri_key (r : Phase2.recipe_ingredient) : str * str :=
  (Phase2.ri_recipe_id r, Phase2.ri_ingredient_id r).

(** The recipe [recipe] uses the ingredient [ingredient]. *)
Definition uses (t : list Phase2.recipe_ingredient) (recipe ingredient : str) : bool :=
  existsb (Phase2.row_of recipe ingredient) t.

(** The join-rows of the ingredients other than [c] and [a]. *)
Definition other_rows (c a : str) (t : list Phase2.recipe_ingredient)
  : list Phase2.recipe_ingredient :=
  filter (fun r => negb (str_eqb (Phase2.ri_ingredient_id r) c)
                   && negb (str_eqb (Phase2.ri_ingredient_id r) a)) t.

(** The row that [SQL_MERGE_CONFLICTS] leaves in the place of [c]. *)
Definition merged_row (cid aid : str) (t : list Phase2.recipe_ingredient)
  (c : Phase2.recipe_ingredient) : Phase2.recipe_ingredient :=
  if str_eqb (Phase2.ri_ingredient_id c) cid then
    match find (Phase2.row_of (Phase2.ri_recipe_id c) aid) t with
    | Some a => Phase2.merge_rows c a
    | None => c
    end
  else c.

(** The row [a] with the ingredient [cid]: what [SQL_UPDATE_NON_CONFLICT]
    sets. *)
Definition repointed (cid : str) (a : Phase2.recipe_ingredient) : Phase2.recipe_ingredient :=
  {| Phase2.ri_recipe_id := Phase2.ri_recipe_id a;
     Phase2.ri_ingredient_id := cid;
     Phase2.ri_amount := Phase2.ri_amount a;
     Phase2.ri_unit := Phase2.ri_unit a;
     Phase2.ri_note := Phase2.ri_note a;
     Phase2.ri_role := Phase2.ri_role a |}.

(** ** The rows and the statements of the resolver *)

(** A row that [run_apply] counts as skipped: it names a group but its
    decision is not [auto]. *)
Definition manual (r : ResolveCollisions.Row) : bool :=
  truthy (ResolveCollisions.alias_norm r) && truthy (ResolveCollisions.canonical_id r)
  && negb (str_eqb (ResolveCollisions.decision r) (py "auto")).

Definition count_rows (p : ResolveCollisions.Row -> bool) (rows : list ResolveCollisions.Row)
  : Z :=
  Z.of_nat (length (filter p rows)).

(** The statements of [resolve_collisions.py] that only read; the end of a
    transaction changes nothing when nothing was written. *)
Definition reads (e : Scripted.event) : bool :=
  match e with
  | Scripted.Executed q _ =>
      match q with
      | SQL_OTHER_IDS_FOR_ALIAS | COUNT_CONFLICTS | COUNT_RECIPE_INGREDIENTS
      | COUNT_ALIASES | CHECK_ORPHAN => true
      | _ => false
      end
  | _ => true
  end.

Definition is_statement (e : Scripted.event) : bool :=
  match e with Scripted.Executed _ _ => true | _ => false end.

(** What a computation adds to the trace satisfies [P]. *)
Definition emits (St : Store) (P : Scripted.event -> bool) {A : Type}
  (m : M (@connection (Traced.store St)) A) : Prop :=
  forall c, exists new, snd (snd (m c)) = new ++ snd c /\ forallb P new = true.

Arguments emits St P {A} m.

(* ################################################################## *)
(** * Properties *)
(* ################################################################## *)

(** ** Strings *)

Lemma str_eqb_eq a b : str_eqb a b = true <-> a = b.
Proof. unfold str_eqb; destruct (list_eq_dec N.eq_dec a b); split; congruence. Qed.

Lemma str_eqb_refl a : str_eqb a a = true.
Proof. now apply str_eqb_eq. Qed.

Lemma str_eqb_neq a b : str_eqb a b = false <-> a <> b.
Proof. unfold str_eqb; destruct (list_eq_dec N.eq_dec a b); split; congruence. Qed.

Lemma mem_In x l : mem x l = true <-> In x l.
Proof.
  unfold mem; rewrite existsb_exists; split.
  - intros (y & Hy & E); apply str_eqb_eq in E; now subst.
  - intros H; exists x; split; [assumption | apply str_eqb_refl].
Qed.

Example py_literal : py "lít" = [108; 237; 116]%N.
Proof. reflexivity. Qed.

(** ** Runs, strips and joins *)

Section Runs.
Variable p : char -> bool.

Lemma lstrip_by_cons q c r :
  lstrip_by q (c :: r) = if q c then lstrip_by q r else c :: r.
Proof. reflexivity. Qed.

Lemma rstrip_by_idem q s : rstrip_by q (rstrip_by q s) = rstrip_by q s.
Proof.
  induction s as [|c r IH]; simpl; [reflexivity|].
  destruct (rstrip_by q r) as [|x r'] eqn:E.
  - destruct (q c) eqn:Q; simpl; [reflexivity | now rewrite Q].
  - change (rstrip_by q (c :: x :: r')) with
      (match rstrip_by q (x :: r') with
       | [] => if q c then [] else [c]
       | y => c :: y
       end).
    now rewrite IH.
Qed.

Lemma rstrip_by_Forall (P : char -> Prop) q s :
  Forall P s -> Forall P (rstrip_by q s).
Proof.
  induction 1 as [|c r Hc Hr IH]; simpl; [constructor|].
  destruct (rstrip_by q r); [destruct (q c)|]; auto.
Qed.

Lemma sub_runs_from_Forall (P : char -> Prop) f s :
  P SPACE -> Forall P s -> Forall P (sub_runs_from p [SPACE] f s).
Proof.
  intros HP H; revert f; induction H as [|c r Hc Hr IH]; intros f; simpl; [constructor|].
  destruct (p c); [destruct f; simpl|]; auto.
Qed.

(** Every character of the output is a space or outside the class. *)
Lemma sub_runs_from_chars f s :
  Forall (fun c => c = SPACE \/ p c = false) (sub_runs_from p [SPACE] f s).
Proof.
  revert f; induction s as [|c r IH]; intros f; simpl; [constructor|].
  destruct (p c) eqn:E; [destruct f; simpl|]; auto.
Qed.

Lemma isolated_fixed f y :
  isolated p f y = true -> sub_runs_from p [SPACE] f y = y.
Proof.
  revert f; induction y as [|c r IH]; intros f; simpl; [reflexivity|].
  destruct (p c).
  - intros H. apply andb_prop in H as [H H3]. apply andb_prop in H as [H1 H2].
    apply N.eqb_eq in H1. destruct f; [discriminate|]. simpl. subst c.
    now rewrite (IH true H3).
  - intros H. now rewrite (IH false H).
Qed.

Lemma sub_runs_from_isolated f s :
  p SPACE = true -> isolated p f (sub_runs_from p [SPACE] f s) = true.
Proof.
  intros Hsp; revert f; induction s as [|c r IH]; intros f; simpl; [reflexivity|].
  destruct (p c) eqn:E.
  - destruct f; simpl; [apply IH|]. now rewrite Hsp, IH.
  - simpl. now rewrite E, IH.
Qed.

Lemma rstrip_by_isolated q f y :
  isolated p f y = true -> isolated p f (rstrip_by q y) = true.
Proof.
  revert f; induction y as [|c r IH]; intros f; simpl; [reflexivity|].
  intros H. destruct (rstrip_by q r) as [|x r'] eqn:E.
  - destruct (q c); [reflexivity|]. simpl.
    destruct (p c); [|reflexivity].
    apply andb_prop in H as [H _]. now rewrite H.
  - change (isolated p f (c :: x :: r')) with
      (if p c then (c =? SPACE)%N && negb f && isolated p true (x :: r')
       else isolated p false (x :: r')).
    destruct (p c).
    + apply andb_prop in H as [H H3]. rewrite H. exact (IH true H3).
    + exact (IH false H).
Qed.

(** A string without characters of the class is left alone. *)
Lemma sub_runs_from_none repl f s :
  forallb (fun c => negb (p c)) s = true -> sub_runs_from p repl f s = s.
Proof.
  revert f; induction s as [|c r IH]; intros f; simpl; [reflexivity|].
  intros H. apply andb_prop in H as [H1 H2].
  destruct (p c); [discriminate|]. now rewrite IH.
Qed.

Hypothesis space_in_p : forall c, isspace c = true -> p c = true.

(** Collapsing the whitespace of the output changes nothing. *)
Lemma collapse_sub_runs f s :
  sub_runs_from isspace [SPACE] f (sub_runs_from p [SPACE] f s)
  = sub_runs_from p [SPACE] f s.
Proof.
  revert f; induction s as [|c r IH]; intros f; simpl; [reflexivity|].
  destruct (p c) eqn:E.
  - destruct f; simpl; [apply IH|]. now rewrite IH.
  - simpl. destruct (isspace c) eqn:W; [apply space_in_p in W; congruence|].
    now rewrite IH.
Qed.

Lemma lstrip_sub_runs_true s :
  lstrip_by isspace (sub_runs_from p [SPACE] true s) = sub_runs_from p [SPACE] true s.
Proof.
  induction s as [|c r IH]; simpl; [reflexivity|].
  destruct (p c) eqn:E; simpl; [exact IH|].
  destruct (isspace c) eqn:W; [apply space_in_p in W; congruence|reflexivity].
Qed.

Lemma lstrip_sub_runs s :
  lstrip_by isspace (sub_runs_from p [SPACE] false s) = sub_runs_from p [SPACE] true s.
Proof.
  destruct s as [|c r]; simpl; [reflexivity|].
  destruct (p c) eqn:E; simpl.
  - apply lstrip_sub_runs_true.
  - destruct (isspace c) eqn:W; [apply space_in_p in W; congruence|reflexivity].
Qed.

(** [strip] after the substitution is [squeeze]. *)
Lemma strip_sub_runs s : strip (sub_runs p [SPACE] s) = squeeze p s.
Proof. unfold strip, strip_by, sub_runs, squeeze. now rewrite lstrip_sub_runs. Qed.

(** ... also with the whitespace collapsed in between ([normalize_spaces]). *)
Lemma normalize_spaces_sub_runs {U : Unicode} s :
  Pipeline.normalize_spaces (sub_runs p [SPACE] s) = squeeze p s.
Proof.
  unfold Pipeline.normalize_spaces, sub_runs at 1 2. rewrite collapse_sub_runs.
  apply strip_sub_runs.
Qed.

(** [squeeze] is idempotent, and its output is made of spaces and characters
    outside the class. *)
Lemma squeeze_fixed s : squeeze p (squeeze p s) = squeeze p s.
Proof.
  assert (Hsp : p SPACE = true) by (apply space_in_p; reflexivity).
  unfold squeeze at 1.
  rewrite isolated_fixed.
  - unfold squeeze. apply rstrip_by_idem.
  - unfold squeeze. apply rstrip_by_isolated. now apply sub_runs_from_isolated.
Qed.

Lemma squeeze_chars s : Forall (fun c => c = SPACE \/ p c = false) (squeeze p s).
Proof. unfold squeeze. apply rstrip_by_Forall, sub_runs_from_chars. Qed.

End Runs.

(** ** The normalizers *)

Ltac bool_N :=
  repeat match goal with
         | H : _ && _ = true |- _ => apply andb_prop in H as [? ?]
         | H : _ || _ = true |- _ => apply orb_prop in H as [?|?]
         | H : negb _ = true |- _ => apply negb_true_iff in H
         | H : (_ <=? _)%N = true |- _ => apply N.leb_le in H
         | H : (_ =? _)%N = true |- _ => apply N.eqb_eq in H
         end.

Lemma az09_not_space c : is_az09 c = true -> isspace c = false.
Proof.
  unfold is_az09, isspace; intros H.
  repeat (apply orb_false_iff; split);
    try (apply andb_false_iff);
    rewrite ?N.leb_gt, ?N.eqb_neq; bool_N; lia.
Qed.

Lemma space_not_az09 c : isspace c = true -> not_az09 c = true.
Proof.
  unfold not_az09; intros H. destruct (is_az09 c) eqn:E; [|reflexivity].
  apply az09_not_space in E. congruence.
Qed.

Lemma az09_plain c : is_az09 c = true -> plain c = true.
Proof. unfold plain; intros ->; reflexivity. Qed.

Lemma squeeze_plain s : forallb plain (squeeze not_az09 s) = true.
Proof.
  apply forallb_forall. apply Forall_forall.
  eapply Forall_impl; [|apply squeeze_chars].
  intros c [->|H]; [reflexivity|].
  unfold not_az09 in H. apply negb_false_iff in H. now apply az09_plain.
Qed.

(** Replacing the runs outside [[a-z0-9\s]] and then collapsing the
    whitespace is replacing the runs outside [[a-z0-9]]. *)
Lemma collapse_after_symbols f g s :
  (g = true -> f = true) ->
  sub_runs_from isspace [SPACE] f
    (sub_runs_from (fun c => negb (is_az09 c || isspace c)) [SPACE] g s)
  = sub_runs_from not_az09 [SPACE] f s.
Proof.
  revert f g; induction s as [|c r IH]; intros f g Hfg; simpl; [reflexivity|].
  unfold not_az09 at 1.
  destruct (is_az09 c) eqn:A; simpl.
  - rewrite (az09_not_space _ A).
    f_equal. apply IH. discriminate.
  - destruct (isspace c) eqn:W; simpl.
    + rewrite W. f_equal. apply IH. discriminate.
    + destruct g; simpl.
      * rewrite (Hfg eq_refl). simpl. now apply IH.
      * f_equal. now apply IH.
Qed.

Section Normalizers.
Context {U : Unicode}.

Lemma normalize_alias_norm_squeeze key :
  Pipeline.normalize_alias_norm key
  = squeeze not_az09 (Pipeline.remove_accents (str_lower key)).
Proof.
  unfold Pipeline.normalize_alias_norm.
  exact (@normalize_spaces_sub_runs not_az09 space_not_az09 U _).
Qed.

Lemma norm_text_squeeze s :
  s <> [] ->
  FillKeyNorm.norm_text s
  = squeeze not_az09 (filter (fun c => negb (category_Mn c)) (normalize_NFD (str_lower s))).
Proof.
  intros Hs. unfold FillKeyNorm.norm_text.
  destruct s; [congruence|]. simpl negb. cbv iota.
  exact (@strip_sub_runs not_az09 space_not_az09 _).
Qed.

Lemma normalize_key_squeeze s :
  Phase2.normalize_key s
  = join [SPACE]
      (Phase2.normalize_key_tokens
         (split (squeeze not_az09 (Phase2.remove_accents (str_lower (strip s)))))).
Proof.
  unfold Phase2.normalize_key.
  set (u := Phase2.remove_accents (str_lower (strip s))).
  unfold sub_runs. rewrite collapse_after_symbols by discriminate.
  change (sub_runs_from not_az09 [SPACE] false u) with (sub_runs not_az09 [SPACE] u).
  rewrite (@strip_sub_runs not_az09 space_not_az09).
  destruct (squeeze not_az09 u); reflexivity.
Qed.

Context {L : UnicodeLaws U}.

Lemma filter_Mn_plain s :
  forallb plain s = true -> filter (fun c => negb (category_Mn c)) s = s.
Proof.
  induction s as [|c r IH]; simpl; [reflexivity|].
  intros H. apply andb_prop in H as [H1 H2].
  rewrite (Mn_plain _ H1). simpl. now rewrite IH.
Qed.

Lemma remove_accents_plain s :
  forallb plain s = true -> Pipeline.remove_accents s = s.
Proof.
  intros H. unfold Pipeline.remove_accents.
  rewrite (NFD_plain _ H), (filter_Mn_plain _ H). now apply NFC_plain.
Qed.

End Normalizers.

(** ** Token lists and [join] *)

Lemma is_token_inv t :
  is_token t = true -> t <> [] /\ forallb is_az09 t = true.
Proof.
  unfold is_token; intros H. apply andb_prop in H as [H1 H2].
  split; [destruct t; [discriminate|congruence] | assumption].
Qed.

Lemma fields_app q w rest :
  forallb (fun c => negb (q c)) w = true ->
  fields q (w ++ rest)
  = match fields q rest with f :: fs => (w ++ f) :: fs | [] => [w] end.
Proof.
  induction w as [|c w IH]; simpl.
  - intros _. destruct (fields q rest) eqn:E; [|reflexivity].
    destruct rest; simpl in E; [discriminate|].
    destruct (q c); [discriminate|]. destruct (fields q rest); discriminate.
  - intros H. apply andb_prop in H as [H1 H2]. apply negb_true_iff in H1.
    rewrite H1, (IH H2). destruct (fields q rest); reflexivity.
Qed.

Lemma fields_Forall (P : char -> Prop) q s :
  Forall P s -> Forall (Forall (fun c => P c /\ q c = false)) (fields q s).
Proof.
  induction 1 as [|c r Hc Hr IH]; simpl; [repeat constructor|].
  destruct (q c) eqn:E; [constructor; [constructor|assumption]|].
  destruct (fields q r) as [|f fs]; [repeat constructor; auto|].
  inversion IH; subst. constructor; [constructor; auto | assumption].
Qed.

Lemma token_no_space t :
  forallb is_az09 t = true -> forallb (fun c => negb (isspace c)) t = true.
Proof.
  intros H. apply forallb_forall. intros c Hc.
  rewrite forallb_forall in H. now rewrite (az09_not_space _ (H c Hc)).
Qed.

Lemma fields_app_space w rest :
  forallb (fun c => negb (isspace c)) w = true ->
  fields isspace (w ++ SPACE :: rest) = w :: fields isspace rest.
Proof. intros H. rewrite (fields_app _ _ _ H). simpl. now rewrite app_nil_r. Qed.

Lemma split_join ts : tokens_ok ts -> split (join [SPACE] ts) = ts.
Proof.
  unfold split. induction 1 as [|x r Hx Hr IH]; [reflexivity|].
  apply is_token_inv in Hx as [Hne Haz].
  destruct r as [|y r'].
  - simpl. rewrite <- (app_nil_r x) at 1.
    rewrite fields_app by now apply token_no_space. cbn [fields].
    rewrite app_nil_r. destruct x; [congruence|reflexivity].
  - change (join [SPACE] (x :: y :: r')) with (x ++ SPACE :: join [SPACE] (y :: r')).
    rewrite fields_app_space by now apply token_no_space.
    destruct x; [congruence|]. cbn [filter truthy]. f_equal. exact IH.
Qed.

Lemma rstrip_by_last q s c : q c = false -> rstrip_by q (s ++ [c]) = s ++ [c].
Proof.
  intros Hc. induction s as [|a s IH]; simpl; [now rewrite Hc|].
  rewrite IH. destruct s; reflexivity.
Qed.

Lemma join_last ts :
  tokens_ok ts -> ts <> [] ->
  exists s c, join [SPACE] ts = s ++ [c] /\ is_az09 c = true.
Proof.
  induction 1 as [|x r Hx Hr IH]; [congruence|]. intros _.
  apply is_token_inv in Hx as [Hne Haz].
  destruct r as [|y r'].
  - destruct (exists_last Hne) as (s & c & ->). exists s, c. split; [reflexivity|].
    rewrite forallb_app in Haz. apply andb_prop in Haz as [_ Haz].
    simpl in Haz. now rewrite andb_true_r in Haz.
  - destruct IH as (s & c & E & Hc); [discriminate|].
    exists (x ++ SPACE :: s), c. split; [|assumption].
    change (join [SPACE] (x :: y :: r')) with (x ++ SPACE :: join [SPACE] (y :: r')).
    rewrite E. now rewrite <- app_assoc.
Qed.

Lemma join_first ts :
  tokens_ok ts -> ts <> [] ->
  exists c s, join [SPACE] ts = c :: s /\ is_az09 c = true.
Proof.
  intros H Hne. destruct H as [|x r Hx Hr]; [congruence|].
  apply is_token_inv in Hx as [Hx Haz].
  destruct x as [|c x]; [congruence|]. simpl in Haz. apply andb_prop in Haz as [Hc _].
  destruct r; simpl; eauto.
Qed.

Lemma strip_join ts : tokens_ok ts -> strip (join [SPACE] ts) = join [SPACE] ts.
Proof.
  intros H. destruct ts as [|x r]; [reflexivity|].
  destruct (join_first H) as (c & s & E & Hc); [discriminate|].
  destruct (join_last H) as (s' & c' & E' & Hc'); [discriminate|].
  unfold strip, strip_by. rewrite E. simpl. rewrite (az09_not_space _ Hc).
  rewrite <- E, E'. apply rstrip_by_last. now apply az09_not_space.
Qed.

Lemma join_plain ts : tokens_ok ts -> forallb plain (join [SPACE] ts) = true.
Proof.
  induction 1 as [|x r Hx Hr IH]; [reflexivity|].
  apply is_token_inv in Hx as [_ Haz].
  assert (Hp : forallb plain x = true).
  { apply forallb_forall. intros c Hc. rewrite forallb_forall in Haz.
    apply az09_plain; auto. }
  destruct r as [|y r']; [assumption|].
  change (join [SPACE] (x :: y :: r')) with (x ++ SPACE :: join [SPACE] (y :: r')).
  rewrite forallb_app, Hp. simpl. exact IH.
Qed.

Lemma isolated_app_token f w rest :
  w <> [] -> forallb is_az09 w = true ->
  isolated not_az09 f (w ++ rest) = isolated not_az09 false rest.
Proof.
  intros Hne. revert f. induction w as [|c w IH]; [congruence|]. intros f H.
  simpl in H. apply andb_prop in H as [Hc Hw]. simpl.
  unfold not_az09 at 1. rewrite Hc. simpl.
  destruct w as [|d w]; [reflexivity|]. apply IH; [discriminate|assumption].
Qed.

Lemma join_isolated ts f : tokens_ok ts -> isolated not_az09 f (join [SPACE] ts) = true.
Proof.
  intros H. revert f. induction H as [|x r Hx Hr IH]; intros f; [reflexivity|].
  apply is_token_inv in Hx as [Hne Haz].
  destruct r as [|y r'].
  - simpl. rewrite <- (app_nil_r x). now rewrite isolated_app_token.
  - change (join [SPACE] (x :: y :: r')) with (x ++ SPACE :: join [SPACE] (y :: r')).
    rewrite isolated_app_token by assumption.
    change (isolated not_az09 false (SPACE :: join [SPACE] (y :: r')))
      with (isolated not_az09 true (join [SPACE] (y :: r'))).
    apply IH.
Qed.

Lemma squeeze_join ts : tokens_ok ts -> squeeze not_az09 (join [SPACE] ts) = join [SPACE] ts.
Proof.
  intros H. unfold squeeze. rewrite isolated_fixed by now apply join_isolated.
  destruct ts as [|x r]; [reflexivity|].
  destruct (join_last H) as (s' & c' & E' & Hc'); [discriminate|].
  rewrite E'. apply rstrip_by_last. now apply az09_not_space.
Qed.

(** The tokens of a squeezed string. *)
Lemma split_squeeze_tokens s : tokens_ok (split (squeeze not_az09 s)).
Proof.
  unfold tokens_ok, split.
  pose proof (fields_Forall isspace (squeeze_chars not_az09 s)) as H.
  induction H as [|w fs Hf Hfs IH]; simpl; [constructor|].
  destruct w as [|c w]; simpl; [assumption|].
  constructor; [|assumption].
  unfold is_token; cbn [truthy andb].
  apply forallb_forall. intros d Hd.
  rewrite Forall_forall in Hf. destruct (Hf d Hd) as [[->|Hn] Hs].
  - discriminate.
  - unfold not_az09 in Hn. now apply negb_false_iff in Hn.
Qed.

(** ** Abbreviations and stop words *)

Lemma abbrev_token t :
  is_token t = true ->
  truthy (dict_get Phase2.ABBREV_MAP t t) = true ->
  is_token (dict_get Phase2.ABBREV_MAP t t) = true.
Proof.
  intros Ht. unfold Phase2.ABBREV_MAP, dict_get.
  repeat match goal with
         | |- context [str_eqb t ?k] => destruct (str_eqb t k)
         end; try reflexivity; try discriminate.
  intros _. exact Ht.
Qed.

(** A token that survives the loop of [normalize_key] is left alone by a
    second pass. *)
Lemma abbrev_fixed t :
  negb (truthy (dict_get Phase2.ABBREV_MAP t t))
  || mem (dict_get Phase2.ABBREV_MAP t t) Phase2.STOPWORDS = false ->
  dict_get Phase2.ABBREV_MAP (dict_get Phase2.ABBREV_MAP t t) (dict_get Phase2.ABBREV_MAP t t)
  = dict_get Phase2.ABBREV_MAP t t.
Proof.
  unfold Phase2.ABBREV_MAP at 1 3 4 6. unfold dict_get at 1 3 4 6.
  destruct (str_eqb t (py "nc")) eqn:E1; [reflexivity|].
  destruct (str_eqb t (py "n.c")) eqn:E2; [reflexivity|].
  destruct (str_eqb t (py "nuoc")) eqn:E3; [reflexivity|].
  destruct (str_eqb t (py "sg")) eqn:E4; [discriminate|].
  destruct (str_eqb t (py "hn")) eqn:E5; [discriminate|].
  intros _. unfold Phase2.ABBREV_MAP, dict_get. now rewrite E1, E2, E3, E4, E5.
Qed.

Lemma normalize_key_tokens_ok ts :
  tokens_ok ts -> tokens_ok (Phase2.normalize_key_tokens ts).
Proof.
  induction 1 as [|t r Ht Hr IH]; [constructor|].
  cbn [Phase2.normalize_key_tokens].
  destruct (truthy (dict_get Phase2.ABBREV_MAP t t)) eqn:T; cbn [negb orb]; [|assumption].
  destruct (mem _ Phase2.STOPWORDS); [assumption|].
  constructor; [now apply abbrev_token | assumption].
Qed.

Lemma normalize_key_tokens_fixed ts :
  Phase2.normalize_key_tokens (Phase2.normalize_key_tokens ts)
  = Phase2.normalize_key_tokens ts.
Proof.
  induction ts as [|t r IH]; [reflexivity|].
  cbn [Phase2.normalize_key_tokens].
  destruct (negb (truthy (dict_get Phase2.ABBREV_MAP t t))
            || mem (dict_get Phase2.ABBREV_MAP t t) Phase2.STOPWORDS) eqn:E;
    [exact IH|].
  cbn [Phase2.normalize_key_tokens]. rewrite (abbrev_fixed _ E), E. now rewrite IH.
Qed.

(** ** Idempotence of the normalizers *)

Section Idempotence.
Context {U : Unicode} {L : UnicodeLaws U}.

Lemma normalize_alias_norm_idempotent x :
  Pipeline.normalize_alias_norm (Pipeline.normalize_alias_norm x)
  = Pipeline.normalize_alias_norm x.
Proof.
  rewrite (normalize_alias_norm_squeeze (Pipeline.normalize_alias_norm x)).
  rewrite (normalize_alias_norm_squeeze x).
  set (u := Pipeline.remove_accents (str_lower x)).
  rewrite (lower_plain _ (squeeze_plain u)).
  rewrite (remove_accents_plain _ (squeeze_plain u)).
  apply squeeze_fixed, space_not_az09.
Qed.

Lemma normalize_key_idempotent x :
  Phase2.normalize_key (Phase2.normalize_key x) = Phase2.normalize_key x.
Proof.
  rewrite (normalize_key_squeeze (Phase2.normalize_key x)).
  rewrite (normalize_key_squeeze x).
  set (ts := Phase2.normalize_key_tokens
               (split (squeeze not_az09 (Phase2.remove_accents (str_lower (strip x)))))).
  assert (Hts : tokens_ok ts)
    by apply normalize_key_tokens_ok, split_squeeze_tokens.
  rewrite (strip_join Hts), (lower_plain _ (join_plain Hts)).
  change (Phase2.remove_accents (join [SPACE] ts))
    with (Pipeline.remove_accents (join [SPACE] ts)).
  rewrite (remove_accents_plain _ (join_plain Hts)).
  rewrite (squeeze_join Hts), (split_join Hts).
  unfold ts. now rewrite normalize_key_tokens_fixed.
Qed.

End Idempotence.

(** C9: the Normalizer is idempotent, on the parser side
    ([normalize_alias_norm]) and on the dedup side ([normalize_key]):
    normalizing a normalized string returns it unchanged.  The Unicode
    functions of the Python library are only assumed to leave strings of
    lower-case ASCII letters, digits and spaces alone. *)
Theorem normalizer_idempotent (U : Unicode) (L : UnicodeLaws U) (x : str) :
  Pipeline.normalize_alias_norm (Pipeline.normalize_alias_norm x)
  = Pipeline.normalize_alias_norm x
  /\ Phase2.normalize_key (Phase2.normalize_key x) = Phase2.normalize_key x.
Proof.
  split; [apply normalize_alias_norm_idempotent | apply normalize_key_idempotent].
Qed.

(** ** The Basic Latin / Vietnamese instance satisfies the laws *)

Lemma plain_ascii c : plain c = true -> (c <? 128)%N = true /\ ((65 <=? c) && (c <=? 90))%N = false.
Proof.
  unfold plain, is_az09, SPACE. intros H. split.
  - apply N.ltb_lt. bool_N; lia.
  - apply andb_false_iff. rewrite !N.leb_gt. bool_N; lia.
Qed.

Lemma latinvn_lower_plain s : forallb plain s = true -> map LatinVN.lower_char s = s.
Proof.
  induction s as [|c r IH]; simpl; [reflexivity|].
  intros H. apply andb_prop in H as [Hc Hr].
  destruct (plain_ascii _ Hc) as [H1 H2].
  unfold LatinVN.lower_char at 1. rewrite H1, H2. now rewrite IH.
Qed.

Lemma latinvn_decompose_plain s :
  forallb plain s = true -> flat_map LatinVN.decompose1 s = s.
Proof.
  induction s as [|c r IH]; simpl; [reflexivity|].
  intros H. apply andb_prop in H as [Hc Hr].
  destruct (plain_ascii _ Hc) as [H1 _].
  unfold LatinVN.decompose1 at 1. rewrite H1. simpl. now rewrite IH.
Qed.

Lemma latinvn_ccc_plain c : plain c = true -> LatinVN.ccc c = 0%N.
Proof.
  intros H. destruct (plain_ascii _ H) as [H1 _]. unfold LatinVN.ccc. now rewrite H1.
Qed.

Lemma latinvn_order_plain s acc :
  forallb plain s = true ->
  fold_left (fun acc c => if (0 <? LatinVN.ccc c)%N then LatinVN.insert_mark c acc else c :: acc)
    s acc = rev s ++ acc.
Proof.
  revert acc. induction s as [|c r IH]; intros acc; cbn [fold_left forallb rev];
    [reflexivity|].
  intros H. apply andb_prop in H as [Hc Hr].
  destruct (plain_ascii _ Hc) as [H1 _].
  rewrite (latinvn_ccc_plain _ Hc). cbn [N.ltb N.compare]. rewrite (IH _ Hr).
  now rewrite <- app_assoc.
Qed.

Lemma latinvn_nfd_plain s : forallb plain s = true -> LatinVN.nfd s = s.
Proof.
  intros H. unfold LatinVN.nfd, LatinVN.canonical_order.
  rewrite !(latinvn_decompose_plain _ H), (latinvn_order_plain _ [] H).
  rewrite app_nil_r. apply rev_involutive.
Qed.

Lemma latinvn_compose_plain s done starter :
  forallb plain s = true ->
  (let '(d, st, p) := fold_left LatinVN.compose_step s (done, starter, []) in
   rev (match st with Some a => p ++ a :: d | None => d end))
  = rev (match starter with Some a => a :: done | None => done end) ++ s.
Proof.
  revert done starter. induction s as [|c r IH]; intros done starter;
    cbn [fold_left forallb].
  - intros _. now rewrite app_nil_r.
  - intros H. apply andb_prop in H as [Hc Hr].
    destruct (plain_ascii _ Hc) as [H1 _].
    unfold LatinVN.compose_step at 2. rewrite (latinvn_ccc_plain _ Hc).
    cbn [N.ltb N.compare].
    destruct starter as [a|]; rewrite (IH _ _ Hr); simpl; now rewrite <- app_assoc.
Qed.

Lemma latinvn_nfc_plain s : forallb plain s = true -> LatinVN.nfc s = s.
Proof.
  intros H. unfold LatinVN.nfc. rewrite (latinvn_nfd_plain _ H).
  exact (latinvn_compose_plain s [] None H).
Qed.

Lemma latinvn_laws : UnicodeLaws LatinVN.unicode.
Proof.
  split.
  - exact latinvn_lower_plain.
  - exact latinvn_nfd_plain.
  - exact latinvn_nfc_plain.
  - intros c H. destruct (plain_ascii _ H) as [H1 _]. simpl.
    apply N.ltb_lt in H1. apply andb_false_iff. left. apply N.leb_gt. lia.
Qed.

Lemma normalizer_idempotent_witness :
  let nan := Pipeline.normalize_alias_norm (U := LatinVN.unicode) in
  let nk := Phase2.normalize_key (U := LatinVN.unicode) in
  nan (nan (py "Phở  Bò-Tái")) = nan (py "Phở  Bò-Tái")
  /\ nk (nk (py "Phở  Bò-Tái")) = nk (py "Phở  Bò-Tái").
Proof. exact (normalizer_idempotent latinvn_laws (py "Phở  Bò-Tái")). Defined.

(** ** How the three normalizers are related *)

Lemma join_fields q s :
  (forall c, In c s -> q c = true -> c = SPACE) ->
  join [SPACE] (fields q s) = s.
Proof.
  induction s as [|c r IH]; intros H; [reflexivity|].
  assert (Hr : join [SPACE] (fields q r) = r) by (apply IH; intros; apply H; simpl; auto).
  cbn [fields]. destruct (q c) eqn:Q.
  - rewrite (H c (or_introl eq_refl) Q).
    destruct (fields q r) as [|f fs] eqn:F; [destruct r; simpl in F; [discriminate|];
      destruct (q c0); [discriminate|]; destruct (fields q r); discriminate|].
    change (join [SPACE] ([] :: f :: fs)) with (SPACE :: join [SPACE] (f :: fs)).
    now rewrite Hr.
  - destruct (fields q r) as [|f fs] eqn:F.
    + destruct r; simpl in F; [discriminate|].
      destruct (q c0); [discriminate|]. destruct (fields q r); discriminate.
    + destruct fs; simpl in *; now rewrite Hr.
Qed.

Lemma rstrip_by_fixed_inv q c r :
  rstrip_by q (c :: r) = c :: r ->
  (r = [] /\ q c = false) \/ (r <> [] /\ rstrip_by q r = r).
Proof.
  simpl. destruct (rstrip_by q r) as [|x r'] eqn:E.
  - destruct (q c); [discriminate|]. intros H. injection H as <-. now left.
  - intros H. injection H as <-. right. split; [discriminate|reflexivity].
Qed.

(** In a string whose separators are isolated and which does not end with
    one, no field after the first is empty; nor is the first when the string
    does not start with a separator. *)
Lemma fields_truthy q s :
  rstrip_by q s = s ->
  (isolated q false s = true -> forallb truthy (tl (fields q s)) = true)
  /\ (isolated q true s = true -> s <> [] -> forallb truthy (fields q s) = true).
Proof.
  induction s as [|c r IH]; intros Hs.
  - split; [reflexivity | congruence].
  - apply rstrip_by_fixed_inv in Hs. cbn [isolated fields].
    destruct (q c) eqn:Q.
    + split; [|intros H; rewrite andb_false_r in H; discriminate].
      intros H. apply andb_prop in H as [_ H].
      destruct Hs as [[_ Hq]|[Hne Hr]]; [congruence|].
      cbn [tl]. now apply IH.
    + assert (Hf : isolated q false r = true -> forallb truthy (fields q (c :: r)) = true).
      { intros H. cbn [fields]. rewrite Q.
        destruct Hs as [[-> _]|[Hne Hr]]; [reflexivity|].
        destruct (IH Hr) as [IH1 _]. specialize (IH1 H).
        destruct (fields q r); [reflexivity|]. exact IH1. }
      cbn [fields] in Hf. rewrite Q in Hf.
      split; intros H; [|intros _; now apply Hf].
      specialize (Hf H). destruct (fields q r); [reflexivity|].
      cbn [forallb] in Hf. apply andb_prop in Hf as [_ Hf]. exact Hf.
Qed.

Lemma isolated_weaken (p q : char -> bool) fp fq s :
  (forall c, q c = true -> p c = true) ->
  (fq = true -> fp = true) ->
  isolated p fp s = true -> isolated q fq s = true.
Proof.
  intros Hqp. revert fp fq. induction s as [|c r IH]; intros fp fq Hf; [reflexivity|].
  cbn [isolated]. destruct (q c) eqn:Q.
  - rewrite (Hqp _ Q). intros H. apply andb_prop in H as [H H2].
    apply andb_prop in H as [H0 H1]. rewrite H0.
    destruct fq; [rewrite (Hf eq_refl) in H1; discriminate|].
    simpl. now apply (IH true true).
  - destruct (p c).
    + intros H. apply andb_prop in H as [_ H]. apply (IH true false); [discriminate|exact H].
    + apply IH. discriminate.
Qed.

Lemma join_split_squeeze u :
  join [SPACE] (split (squeeze not_az09 u)) = squeeze not_az09 u.
Proof.
  set (y := squeeze not_az09 u).
  assert (Hfix : rstrip_by isspace y = y) by apply rstrip_by_idem.
  assert (Hiso : isolated isspace true y = true).
  { apply (@isolated_weaken not_az09 isspace true true); [apply space_not_az09|auto|].
    apply rstrip_by_isolated, sub_runs_from_isolated. reflexivity. }
  assert (Hsp : forall c, In c y -> isspace c = true -> c = SPACE).
  { intros c Hc W. pose proof (squeeze_chars not_az09 u) as H.
    rewrite Forall_forall in H. destruct (H c Hc) as [->|N]; [reflexivity|].
    rewrite (space_not_az09 _ W) in N. discriminate. }
  unfold split. destruct y as [|c r] eqn:E; [reflexivity|].
  destruct (@fields_truthy isspace _ Hfix) as [_ H].
  specialize (H Hiso ltac:(discriminate)).
  assert (F : filter truthy (fields isspace (c :: r)) = fields isspace (c :: r)).
  { revert H. generalize (fields isspace (c :: r)). intros l.
    induction l as [|x l IH]; simpl; [reflexivity|].
    intros H. apply andb_prop in H as [-> H]. now rewrite IH. }
  rewrite F. now apply join_fields.
Qed.

Section Related.
Context {U : Unicode} {L : UnicodeLaws U}.

(** [normalize_key] is [normalize_alias_norm] of the stripped input, followed
    by the abbreviation and stop-word loop over its tokens. *)
Lemma normalize_key_via_alias_norm x :
  Phase2.normalize_key x
  = join [SPACE]
      (Phase2.normalize_key_tokens (split (Pipeline.normalize_alias_norm (strip x)))).
Proof. rewrite normalize_key_squeeze, normalize_alias_norm_squeeze. reflexivity. Qed.

Lemma normalize_key_agrees x :
  Phase2.normalize_key_tokens (split (Pipeline.normalize_alias_norm (strip x)))
  = split (Pipeline.normalize_alias_norm (strip x)) ->
  Phase2.normalize_key x = Pipeline.normalize_alias_norm (strip x).
Proof.
  intros H. rewrite normalize_key_via_alias_norm, H.
  rewrite normalize_alias_norm_squeeze. apply join_split_squeeze.
Qed.

(** [norm_text] is [normalize_alias_norm] without the NFC recomposition. *)
Lemma norm_text_agrees x :
  (let u := filter (fun c => negb (category_Mn c)) (normalize_NFD (str_lower x)) in
   normalize_NFC u = u) ->
  FillKeyNorm.norm_text x = Pipeline.normalize_alias_norm x.
Proof.
  intros H. rewrite normalize_alias_norm_squeeze.
  destruct x as [|c r].
  - rewrite (lower_plain [] eq_refl), (remove_accents_plain [] eq_refl). reflexivity.
  - rewrite norm_text_squeeze by discriminate.
    unfold Pipeline.remove_accents. cbv zeta in H |- *. now rewrite H.
Qed.

End Related.

(** C1 (as stated, refuted): the three normalizers are not extensionally
    equal.  On the input [va] the dedup-side [normalize_key] returns the
    empty string (a stop word is dropped) while the parser-side
    [normalize_alias_norm] and the backfill [norm_text] return [va]. *)
Lemma normalizers_differ_on_stop_word :
  Phase2.normalize_key (U := LatinVN.unicode) (py "va") = []
  /\ Pipeline.normalize_alias_norm (U := LatinVN.unicode) (py "va") = py "va"
  /\ FillKeyNorm.norm_text (U := LatinVN.unicode) (py "va") = py "va"
  /\ Phase2.normalize_key (U := LatinVN.unicode) (py "va")
     <> Pipeline.normalize_alias_norm (U := LatinVN.unicode) (py "va").
Proof. repeat split; try reflexivity. discriminate. Qed.

(** ** The instance recomposes nothing without marks *)

Lemma latinvn_assoc_In {B : Type} k (l : list (N * B)) v :
  LatinVN.assoc k l = Some v -> In (k, v) l.
Proof.
  induction l as [|[k' v'] l IH]; simpl; [discriminate|].
  destruct (k =? k')%N eqn:E.
  - intros H. injection H as ->. apply N.eqb_eq in E. subst. now left.
  - intros H. right. now apply IH.
Qed.

Lemma latinvn_ccc_mark c :
  LatinVN.ccc c <> 0%N -> category_Mn (Unicode := LatinVN.unicode) c = true.
Proof.
  unfold LatinVN.ccc. cbn [category_Mn LatinVN.unicode].
  destruct (c <? 128)%N; [congruence|].
  destruct (c =? 795)%N eqn:E1; [apply N.eqb_eq in E1; now subst|].
  destruct (c =? 803)%N eqn:E2; [apply N.eqb_eq in E2; now subst|].
  destruct (existsb (N.eqb c) [768; 769; 770; 771; 774; 777]%N) eqn:E3; [|congruence].
  intros _. apply existsb_exists in E3 as (x & Hx & E). apply N.eqb_eq in E. subst x.
  simpl in Hx. repeat (destruct Hx as [<-|Hx]; [reflexivity|]). contradiction.
Qed.

(** Every entry of the table is decomposed in three rounds. *)
Lemma latinvn_table_settled :
  forallb (fun e => forallb latinvn_settled (latinvn_decompose3 [fst e]))
    LatinVN.decomp_table = true.
Proof. vm_compute. reflexivity. Qed.

Lemma latinvn_char_settled (c : char) :
  forallb latinvn_settled (latinvn_decompose3 [c]) = true.
Proof.
  destruct (LatinVN.assoc c LatinVN.decomp_table) as [[b m]|] eqn:A.
  - destruct (c <? 128)%N eqn:E.
    + unfold latinvn_decompose3. cbn [flat_map].
      unfold LatinVN.decompose1 at 3. rewrite E.
      cbn [flat_map app]. unfold LatinVN.decompose1 at 2. rewrite E.
      cbn [flat_map app]. unfold LatinVN.decompose1 at 1. rewrite E.
      cbn [flat_map app forallb].
      unfold latinvn_settled, latinvn_fixed, LatinVN.decompose1, LatinVN.ccc.
      rewrite E, N.eqb_refl. cbn. now rewrite orb_true_r.
    + apply latinvn_assoc_In in A. pose proof latinvn_table_settled as H.
      rewrite forallb_forall in H. exact (H _ A).
  - assert (Hd : LatinVN.decompose1 c = [c]).
    { unfold LatinVN.decompose1. rewrite A. now destruct (c <? 128)%N. }
    unfold latinvn_decompose3. cbn [flat_map]. rewrite Hd.
    cbn [flat_map app]. rewrite Hd.
    cbn [flat_map app]. rewrite Hd. cbn [flat_map app forallb].
    rewrite andb_true_r. unfold latinvn_settled, latinvn_fixed.
    rewrite Hd, N.eqb_refl. cbn [andb].
    destruct (LatinVN.ccc c =? 0)%N eqn:E; [apply orb_true_r|].
    apply N.eqb_neq in E. now rewrite (latinvn_ccc_mark _ E).
Qed.

Lemma latinvn_decompose3_cons c s :
  latinvn_decompose3 (c :: s) = latinvn_decompose3 [c] ++ latinvn_decompose3 s.
Proof.
  unfold latinvn_decompose3. cbn [flat_map]. rewrite app_nil_r. now rewrite !flat_map_app.
Qed.

Lemma latinvn_decomposed_settled s :
  forallb latinvn_settled (latinvn_decompose3 s) = true.
Proof.
  induction s as [|c s IH]; [reflexivity|].
  rewrite latinvn_decompose3_cons, forallb_app. rewrite (latinvn_char_settled c). exact IH.
Qed.

Lemma insert_mark_Forall (P : char -> Prop) m acc :
  P m -> Forall P acc -> Forall P (LatinVN.insert_mark m acc).
Proof.
  intros Hm. induction 1 as [|x r Hx Hr IH]; simpl; [now constructor|].
  destruct (_ && _); constructor; auto.
Qed.

Lemma canonical_order_Forall (P : char -> Prop) s :
  Forall P s -> Forall P (LatinVN.canonical_order s).
Proof.
  intros H. unfold LatinVN.canonical_order. apply Forall_rev.
  assert (G : forall acc, Forall P acc ->
              Forall P (fold_left (fun acc c => if (0 <? LatinVN.ccc c)%N
                                                then LatinVN.insert_mark c acc else c :: acc)
                          s acc)).
  { induction H as [|c r Hc Hr IH]; intros acc Ha; cbn [fold_left]; [exact Ha|].
    apply IH.
    destruct (0 <? LatinVN.ccc c)%N; [now apply insert_mark_Forall | now constructor]. }
  apply G. constructor.
Qed.

(** The characters that remain when the marks are removed are fixed. *)
Lemma latinvn_marks_free_fixed s :
  forallb latinvn_fixed
    (filter (fun c => negb (category_Mn (Unicode := LatinVN.unicode) c)) (LatinVN.nfd s))
  = true.
Proof.
  apply forallb_forall. intros c Hc. apply filter_In in Hc as [Hc Hm].
  pose proof (latinvn_decomposed_settled s) as H.
  rewrite forallb_forall in H. apply Forall_forall in H.
  apply canonical_order_Forall in H.
  rewrite Forall_forall in H. specialize (H c Hc).
  unfold latinvn_settled in H. apply negb_true_iff in Hm. now rewrite Hm in H.
Qed.

Lemma latinvn_fixed_inv c :
  latinvn_fixed c = true -> LatinVN.decompose1 c = [c] /\ LatinVN.ccc c = 0%N.
Proof.
  unfold latinvn_fixed. intros H. apply andb_prop in H as [H1 H2].
  apply N.eqb_eq in H2. split; [|exact H2].
  destruct (LatinVN.decompose1 c) as [|x [|y r]]; try discriminate.
  apply N.eqb_eq in H1. now subst.
Qed.

Lemma latinvn_decompose_fixed s :
  forallb latinvn_fixed s = true -> flat_map LatinVN.decompose1 s = s.
Proof.
  induction s as [|c r IH]; simpl; [reflexivity|].
  intros H. apply andb_prop in H as [Hc Hr].
  destruct (latinvn_fixed_inv _ Hc) as [-> _]. simpl. now rewrite IH.
Qed.

Lemma latinvn_order_fixed s acc :
  forallb latinvn_fixed s = true ->
  fold_left (fun acc c => if (0 <? LatinVN.ccc c)%N then LatinVN.insert_mark c acc else c :: acc)
    s acc = rev s ++ acc.
Proof.
  revert acc. induction s as [|c r IH]; intros acc; cbn [fold_left forallb rev];
    [reflexivity|].
  intros H. apply andb_prop in H as [Hc Hr].
  destruct (latinvn_fixed_inv _ Hc) as [_ ->]. cbn [N.ltb N.compare]. rewrite (IH _ Hr).
  now rewrite <- app_assoc.
Qed.

Lemma latinvn_nfd_fixed s : forallb latinvn_fixed s = true -> LatinVN.nfd s = s.
Proof.
  intros H. unfold LatinVN.nfd, LatinVN.canonical_order.
  rewrite !(latinvn_decompose_fixed _ H), (latinvn_order_fixed _ [] H).
  rewrite app_nil_r. apply rev_involutive.
Qed.

Lemma latinvn_compose_fixed s done starter :
  forallb latinvn_fixed s = true ->
  (let '(d, st, p) := fold_left LatinVN.compose_step s (done, starter, []) in
   rev (match st with Some a => p ++ a :: d | None => d end))
  = rev (match starter with Some a => a :: done | None => done end) ++ s.
Proof.
  revert done starter. induction s as [|c r IH]; intros done starter;
    cbn [fold_left forallb].
  - intros _. now rewrite app_nil_r.
  - intros H. apply andb_prop in H as [Hc Hr].
    destruct (latinvn_fixed_inv _ Hc) as [_ E0].
    unfold LatinVN.compose_step at 2. rewrite E0.
    cbn [N.ltb N.compare].
    destruct starter as [a|]; rewrite (IH _ _ Hr); simpl; now rewrite <- app_assoc.
Qed.

Lemma latinvn_nfc_fixed s : forallb latinvn_fixed s = true -> LatinVN.nfc s = s.
Proof.
  intros H. unfold LatinVN.nfc. rewrite (latinvn_nfd_fixed _ H).
  exact (latinvn_compose_fixed s [] None H).
Qed.

Lemma latinvn_compose_laws : ComposeLaws LatinVN.unicode.
Proof.
  split. intros s u. unfold u. cbn [normalize_NFC normalize_NFD LatinVN.unicode].
  now rewrite (latinvn_nfc_fixed _ (latinvn_marks_free_fixed s)).
Qed.

Section RelatedBoth.
Context {U : Unicode} {L : UnicodeLaws U}.

(** [normalize_key] returns [normalize_alias_norm] of the stripped input
    only when the loop over the tokens changes none of them. *)
Lemma normalize_key_agrees_only x :
  Phase2.normalize_key x = Pipeline.normalize_alias_norm (strip x) ->
  Phase2.normalize_key_tokens (split (Pipeline.normalize_alias_norm (strip x)))
  = split (Pipeline.normalize_alias_norm (strip x)).
Proof.
  intros H. rewrite normalize_key_via_alias_norm in H.
  apply (f_equal split) in H. rewrite split_join in H; [exact H|].
  apply normalize_key_tokens_ok. rewrite normalize_alias_norm_squeeze.
  apply split_squeeze_tokens.
Qed.

Context {C : ComposeLaws U}.

(** [norm_text] is [normalize_alias_norm] without the NFC recomposition,
    which changes nothing that the two keep. *)
Lemma norm_text_is_alias_norm x :
  FillKeyNorm.norm_text x = Pipeline.normalize_alias_norm x.
Proof.
  rewrite normalize_alias_norm_squeeze.
  destruct x as [|c r].
  - rewrite (lower_plain [] eq_refl), (remove_accents_plain [] eq_refl). reflexivity.
  - rewrite norm_text_squeeze by discriminate.
    unfold Pipeline.remove_accents. symmetry. apply NFC_marks_free.
Qed.

End RelatedBoth.

(** C1 (amended): [norm_text] and [normalize_alias_norm] return the same
    output for every input: the NFC step that only the second has changes
    nothing that they keep.  [normalize_key] differs from them: for every
    input [x], [normalize_key x] is [normalize_alias_norm] of the stripped
    input with each token sent through [ABBREV_MAP] and the empty and
    stop-word tokens dropped, so it is [normalize_alias_norm (strip x)]
    exactly when that loop changes no token. *)
Theorem normalizers_related (U : Unicode) (L : UnicodeLaws U) (C : ComposeLaws U) (x : str) :
  FillKeyNorm.norm_text x = Pipeline.normalize_alias_norm x
  /\ Phase2.normalize_key x
     = join [SPACE]
         (Phase2.normalize_key_tokens (split (Pipeline.normalize_alias_norm (strip x))))
  /\ (Phase2.normalize_key x = Pipeline.normalize_alias_norm (strip x)
      <-> Phase2.normalize_key_tokens (split (Pipeline.normalize_alias_norm (strip x)))
          = split (Pipeline.normalize_alias_norm (strip x))).
Proof.
  split; [apply norm_text_is_alias_norm|].
  split; [apply normalize_key_via_alias_norm|].
  split; [apply normalize_key_agrees_only | apply normalize_key_agrees].
Qed.

Lemma normalizers_related_witness :
  let x := py "Thịt Gà-ta" in
  FillKeyNorm.norm_text (U := LatinVN.unicode) x
  = Pipeline.normalize_alias_norm (U := LatinVN.unicode) x
  /\ Phase2.normalize_key (U := LatinVN.unicode) x
     = Pipeline.normalize_alias_norm (U := LatinVN.unicode) (strip x)
  /\ Phase2.normalize_key (U := LatinVN.unicode) x = py "thit ga ta".
Proof.
  intros x.
  destruct (@normalizers_related _ latinvn_laws latinvn_compose_laws x) as (H1 & _ & H2).
  split; [exact H1|]. split; [apply H2; vm_compute; reflexivity | vm_compute; reflexivity].
Defined.

(** ** Decision classifier *)

Section ClassifierProps.
Context {U : Unicode}.

Lemma set_eqb_refl l : Phase2.set_eqb l l = true.
Proof.
  unfold Phase2.set_eqb.
  assert (H : forallb (fun t => mem t l) l = true)
    by (apply forallb_forall; intros x Hx; now apply mem_In).
  now rewrite H.
Qed.

Lemma protein_mismatch_same n : Phase2.protein_mismatch n n = false.
Proof. unfold Phase2.protein_mismatch. rewrite set_eqb_refl. apply andb_false_r. Qed.

Lemma last_token_diff_same n : Phase2.last_token_diff n n = false.
Proof.
  unfold Phase2.last_token_diff. destruct (Phase2.tokens n); [reflexivity|].
  now rewrite str_eqb_refl.
Qed.

End ClassifierProps.

(** C3 (as stated, refuted): the keys [canh chanh] and [canh-chanh] have the
    same normalized form, yet the pair is rejected, because the normalized
    form holds both tokens of a dangerous near-miss pair. *)
Lemma equal_norms_rejected :
  let s := {| Phase2.canonical_id := py "1"; Phase2.canonical_key := py "canh chanh";
              Phase2.alias_id := py "2"; Phase2.alias_key := py "canh-chanh";
              Phase2.score := 1; Phase2.used_count_canonical := 3;
              Phase2.used_count_alias := 1;
              Phase2.reason := (1, py "c:10") |} in
  Phase2.normalize_key (U := LatinVN.unicode) (Phase2.canonical_key s)
  = Phase2.normalize_key (U := LatinVN.unicode) (Phase2.alias_key s)
  /\ Phase2.classify (U := LatinVN.unicode) true s = (Phase2.auto_reject, []).
Proof. split; reflexivity. Qed.

(** C3 (amended): for a Suggestion whose two keys have equal normalized
    forms the decision is [auto_reject] when one of the keys is a bad key
    ([looks_bad_key]) or the normalized form holds both tokens of a dangerous
    near-miss pair, and [auto_approve] (approved [Y]) in every other case. *)
Theorem classify_equal_norms (U : Unicode) (approve_packaging : bool) (s : Phase2.Suggestion) :
  Phase2.normalize_key (Phase2.canonical_key s) = Phase2.normalize_key (Phase2.alias_key s) ->
  Phase2.classify approve_packaging s
  = if Phase2.looks_bad_key (Phase2.alias_key s)
       || Phase2.looks_bad_key (Phase2.canonical_key s)
       || Phase2.has_dangerous_pair (Phase2.normalize_key (Phase2.canonical_key s))
            (Phase2.normalize_key (Phase2.canonical_key s))
    then (Phase2.auto_reject, [])
    else (Phase2.auto_approve, py "Y").
Proof.
  intros E. unfold Phase2.classify. rewrite <- E.
  rewrite protein_mismatch_same, last_token_diff_same.
  unfold Phase2.is_format_only. rewrite str_eqb_refl.
  destruct (Phase2.looks_bad_key (Phase2.alias_key s)
            || Phase2.looks_bad_key (Phase2.canonical_key s)); [reflexivity|].
  cbn [orb andb].
  destruct (Phase2.has_dangerous_pair _ _); reflexivity.
Qed.

Lemma classify_equal_norms_witness :
  let s := {| Phase2.canonical_id := py "1"; Phase2.canonical_key := py "phở bò";
              Phase2.alias_id := py "2"; Phase2.alias_key := py "Pho_Bo";
              Phase2.score := 1; Phase2.used_count_canonical := 3;
              Phase2.used_count_alias := 1;
              Phase2.reason := (1, py "p:5") |} in
  Phase2.classify (U := LatinVN.unicode) false s = (Phase2.auto_approve, py "Y").
Proof.
  intros s. exact (@classify_equal_norms LatinVN.unicode false s eq_refl).
Defined.

(** ** Stable descending sort *)

Section SortingProps.
Variable A : Type.
Variable gtb : A -> A -> bool.

Lemma insert_desc_In x y l : In x (Phase2.insert_desc gtb y l) <-> x = y \/ In x l.
Proof.
  induction l as [|z r IH]; simpl; [intuition congruence|].
  destruct (gtb z y); simpl; [rewrite IH|]; intuition congruence.
Qed.

Lemma sorted_desc_In x l : In x (Phase2.sorted_desc gtb l) <-> In x l.
Proof.
  induction l as [|y r IH]; simpl; [reflexivity|].
  rewrite insert_desc_In, IH. intuition congruence.
Qed.

Variable ge : A -> A -> Prop.
Hypothesis ge_trans : forall x y z, ge x y -> ge y z -> ge x z.
Hypothesis gtb_ge : forall x y, gtb x y = true -> ge x y.
Hypothesis not_gtb_ge : forall x y, gtb x y = false -> ge y x.

Lemma insert_desc_sorted x l :
  StronglySorted ge l -> StronglySorted ge (Phase2.insert_desc gtb x l).
Proof.
  induction 1 as [|y r Hr IH Hy]; simpl; [repeat constructor|].
  destruct (gtb y x) eqn:G.
  - constructor; [assumption|].
    apply Forall_forall. intros z Hz. apply insert_desc_In in Hz as [->|Hz].
    + now apply gtb_ge.
    + rewrite Forall_forall in Hy. now apply Hy.
  - constructor; [now constructor|].
    constructor; [now apply not_gtb_ge|].
    eapply Forall_impl; [|exact Hy]. intros z Hz.
    eapply ge_trans; [apply not_gtb_ge; exact G | exact Hz].
Qed.

Lemma sorted_desc_sorted l : StronglySorted ge (Phase2.sorted_desc gtb l).
Proof.
  induction l as [|x r IH]; simpl; [constructor | now apply insert_desc_sorted].
Qed.

End SortingProps.

Lemma sorted_by_usage l :
  StronglySorted usage_ge
    (Phase2.sorted_desc (fun x y => (Phase2.used_count y <? Phase2.used_count x)%Z) l).
Proof.
  apply sorted_desc_sorted; unfold usage_ge.
  - intros x y z; lia.
  - intros x y H; apply Z.ltb_lt in H; lia.
  - intros x y H; apply Z.ltb_ge in H; lia.
Qed.

(** ** Candidate generator *)

Section GeneratorProps.
Context {U : Unicode} {D : Difflib}.
Variable min_score : float.
Variable max_pairs : Z.
Variable ingredients : list Phase2.IngredientRow.

Lemma compare_pair_good a b2 st :
  In a ingredients -> In b2 ingredients -> usage_ge a b2 ->
  Forall (well_chosen min_score ingredients) (fst st) -> promised min_score ingredients
    (Phase2.compare_pair min_score max_pairs a b2 st).
Proof.
  intros Ha Hb Hab Hst. destruct st as [suggestions pair_count]. simpl in Hst.
  unfold Phase2.compare_pair.
  destruct (max_pairs <=? pair_count)%Z; [exact Hst|].
  destruct (8 <=? _)%nat; [exact Hst|].
  destruct (float_ltb _ min_score) eqn:Hsc; [exact Hst|].
  assert (Hmin : (min_score <= Phase2.similarity (Phase2.norm a) (Phase2.norm b2))%Q).
  { unfold float_ltb in Hsc. apply negb_false_iff in Hsc. now apply Qle_bool_iff. }
  destruct ((Phase2.used_count b2 <? Phase2.used_count a)%Z
            || (Phase2.used_count a =? Phase2.used_count b2)%Z
               && (length (Phase2.norm a) <=? length (Phase2.norm b2))%nat) eqn:Hpick.
  - destruct (str_eqb _ _); [exact Hst|]. simpl.
    apply Forall_app. split; [exact Hst|]. constructor; [|constructor].
    split; [exact Hmin|]. exists a, b2. simpl.
    repeat (split; [first [assumption | reflexivity]|]).
    split; [now left|].
    apply orb_prop in Hpick as [H|H].
    + left. now apply Z.ltb_lt.
    + right. apply andb_prop in H as [H1 H2].
      split; [now apply Z.eqb_eq | now apply Nat.leb_le].
  - destruct (str_eqb _ _); [exact Hst|]. simpl.
    apply Forall_app. split; [exact Hst|]. constructor; [|constructor].
    split; [exact Hmin|]. exists b2, a. simpl.
    repeat (split; [first [assumption | reflexivity]|]).
    split; [now right|].
    apply orb_false_iff in Hpick as [H1 H2]. apply Z.ltb_ge in H1.
    unfold usage_ge in Hab.
    assert (E : Phase2.used_count a = Phase2.used_count b2) by lia.
    right. split; [now symmetry|].
    apply Z.eqb_eq in E. rewrite E in H2. simpl in H2.
    apply Nat.leb_gt in H2. lia.
Qed.

Lemma compare_with_good a rest st :
  In a ingredients -> incl rest ingredients -> Forall (usage_ge a) rest ->
  Forall (well_chosen min_score ingredients) (fst st) -> promised min_score ingredients
    (Phase2.compare_with min_score max_pairs a rest st).
Proof.
  intros Ha. revert st. induction rest as [|b2 rest IH]; intros st Hin Hge Hst.
  - destruct st; exact Hst.
  - simpl. inversion Hge as [|? ? Hb Hrest]; subst.
    pose proof (@compare_pair_good a b2 st Ha (Hin b2 (or_introl eq_refl)) Hb Hst) as H.
    destruct (Phase2.compare_pair min_score max_pairs a b2 st) as [st'|r]; [|exact H].
    apply IH; [intros x Hx; apply Hin; now right | assumption |].
    destruct st'; exact H.
Qed.

Lemma compare_within_good items st :
  incl items ingredients -> StronglySorted usage_ge items ->
  Forall (well_chosen min_score ingredients) (fst st) -> promised min_score ingredients
    (Phase2.compare_within min_score max_pairs items st).
Proof.
  revert st. induction items as [|a rest IH]; intros st Hin Hs Hst.
  - destruct st; exact Hst.
  - simpl. inversion Hs as [|? ? Hrest Ha]; subst.
    assert (Hin' : incl rest ingredients) by (intros x Hx; apply Hin; now right).
    pose proof (@compare_with_good a rest st (Hin a (or_introl eq_refl)) Hin' Ha Hst) as H.
    destruct (Phase2.compare_with min_score max_pairs a rest st) as [st'|r]; [|exact H].
    apply IH; [assumption | assumption |]. destruct st'; exact H.
Qed.

Lemma compare_buckets_good buckets st :
  Forall (fun b => incl (snd b) ingredients) buckets ->
  Forall (well_chosen min_score ingredients) (fst st) -> promised min_score ingredients
    (Phase2.compare_buckets min_score max_pairs buckets st).
Proof.
  revert st. induction buckets as [|[k items] r IH]; intros st Hb Hst.
  - destruct st; exact Hst.
  - simpl. inversion Hb as [|? ? Hitems Hr]; subst. simpl in Hitems.
    destruct (length items <? 2)%nat; [now apply IH|].
    set (sorted := Phase2.sorted_desc _ items).
    assert (Hin : incl sorted ingredients).
    { intros x Hx. apply Hitems. now apply sorted_desc_In in Hx. }
    pose proof (@compare_within_good sorted st Hin (sorted_by_usage items) Hst) as H.
    destruct (Phase2.compare_within min_score max_pairs sorted st) as [st'|res]; [|exact H].
    apply IH; [assumption|]. destruct st'; exact H.
Qed.

Lemma bucket_append_incl k ing buckets (l : list Phase2.IngredientRow) :
  In ing l -> Forall (fun b => incl (snd b) l) buckets ->
  Forall (fun b => incl (snd b) l) (Phase2.bucket_append k ing buckets).
Proof.
  intros Hing. induction 1 as [|[k' items] r Hi Hr IH]; simpl.
  - constructor; [|constructor]. intros x [<-|[]]. exact Hing.
  - destruct (str_eqb k k'); constructor; try assumption.
    simpl in *. intros x Hx. apply in_app_or in Hx as [Hx|[<-|[]]]; auto.
Qed.

Lemma buckets_incl (clean : list Phase2.IngredientRow) buckets :
  incl clean ingredients ->
  Forall (fun b => incl (snd b) ingredients) buckets ->
  Forall (fun b => incl (snd b) ingredients)
    (fold_left (fun buckets ing =>
                  Phase2.bucket_append (Phase2.bucket_key (Phase2.norm ing)) ing buckets)
       clean buckets).
Proof.
  revert buckets. induction clean as [|ing r IH]; intros buckets Hin Hb; simpl;
    [assumption|].
  apply IH; [intros x Hx; apply Hin; now right|].
  apply bucket_append_incl; [apply Hin; now left | assumption].
Qed.

End GeneratorProps.



(** ** Merge executor *)

Section MergeProps.
Context {U : Unicode}.
Variable alias_conflict : Phase2.alias_row -> Phase2.alias_row -> bool.

Lemma sql_insert_alias_idempotent c k an t :
  (forall r, alias_conflict r r = true) ->
  Phase2.sql_insert_alias alias_conflict c k an
    (Phase2.sql_insert_alias alias_conflict c k an t)
  = Phase2.sql_insert_alias alias_conflict c k an t.
Proof.
  intros Hrefl. unfold Phase2.sql_insert_alias.
  set (row := {| Phase2.al_ingredient_id := c; Phase2.al_alias := k;
                 Phase2.al_alias_norm := an |}).
  destruct (existsb (alias_conflict row) t) eqn:E; [now rewrite E|].
  rewrite existsb_app. simpl. rewrite Hrefl. now rewrite orb_true_r.
Qed.

(** The statements of the merge never create a [(recipe, ingredient)] pair
    for the canonical id that was not there. *)
Lemma sql_merge_conflicts_keys cid aid t recipe i :
  existsb (Phase2.row_of recipe i) (Phase2.sql_merge_conflicts cid aid t) = true ->
  existsb (Phase2.row_of recipe i) t = true.
Proof.
  unfold Phase2.sql_merge_conflicts. rewrite !existsb_exists.
  intros (x & Hx & Hrow). apply filter_In in Hx as [Hx _].
  apply in_map_iff in Hx as (c & <- & Hc). exists c. split; [assumption|].
  destruct (str_eqb (Phase2.ri_ingredient_id c) cid); [|assumption].
  destruct (find _ t); assumption.
Qed.

Lemma sql_merge_conflicts_left cid aid t a :
  In a (Phase2.sql_merge_conflicts cid aid t) ->
  str_eqb (Phase2.ri_ingredient_id a) aid = true ->
  existsb (Phase2.row_of (Phase2.ri_recipe_id a) cid) t = false.
Proof.
  unfold Phase2.sql_merge_conflicts. intros Ha E.
  apply filter_In in Ha as [_ Ha]. rewrite E in Ha. simpl in Ha.
  now apply negb_true_iff in Ha.
Qed.

(** After the merge and the update no row refers to the alias id. *)
Lemma no_alias_row_left cid aid t :
  cid <> aid ->
  Forall (fun r => str_eqb (Phase2.ri_ingredient_id r) aid = false)
    (Phase2.sql_update_non_conflict cid aid (Phase2.sql_merge_conflicts cid aid t)).
Proof.
  intros Hne. set (t1 := Phase2.sql_merge_conflicts cid aid t).
  unfold Phase2.sql_update_non_conflict. apply Forall_forall. intros r Hr.
  apply in_map_iff in Hr as (a & <- & Ha).
  destruct (str_eqb (Phase2.ri_ingredient_id a) aid) eqn:E; simpl; [|exact E].
  destruct (existsb (Phase2.row_of (Phase2.ri_recipe_id a) cid) t1) eqn:X; simpl.
  - apply sql_merge_conflicts_keys in X.
    rewrite (@sql_merge_conflicts_left _ _ _ _ Ha E) in X. discriminate.
  - now apply str_eqb_neq.
Qed.

Lemma find_none_no_alias recipe aid t :
  Forall (fun r => str_eqb (Phase2.ri_ingredient_id r) aid = false) t ->
  find (Phase2.row_of recipe aid) t = None.
Proof.
  induction 1 as [|r t Hr Ht IH]; simpl; [reflexivity|].
  unfold Phase2.row_of at 1. rewrite Hr, andb_false_r. exact IH.
Qed.

Lemma sql_merge_conflicts_no_alias cid aid t :
  Forall (fun r => str_eqb (Phase2.ri_ingredient_id r) aid = false) t ->
  Phase2.sql_merge_conflicts cid aid t = t.
Proof.
  intros H. unfold Phase2.sql_merge_conflicts.
  assert (M : map (fun c =>
                     if str_eqb (Phase2.ri_ingredient_id c) cid
                     then match find (Phase2.row_of (Phase2.ri_recipe_id c) aid) t with
                          | Some a => Phase2.merge_rows c a
                          | None => c
                          end
                     else c) t = t).
  { transitivity (map (fun c : Phase2.recipe_ingredient => c) t); [|apply map_id].
    apply map_ext. intros c.
    rewrite (@find_none_no_alias _ _ _ H). now destruct (str_eqb _ cid). }
  rewrite M. clear M.
  induction H as [|r t' Hr Ht IH]; simpl; [reflexivity|].
  rewrite Hr. simpl. f_equal.
  rewrite <- IH at 2. apply filter_ext_in. intros a Ha.
  rewrite Forall_forall in Ht. now rewrite (Ht a Ha).
Qed.

Lemma sql_update_non_conflict_no_alias cid aid t :
  Forall (fun r => str_eqb (Phase2.ri_ingredient_id r) aid = false) t ->
  Phase2.sql_update_non_conflict cid aid t = t.
Proof.
  intros H. unfold Phase2.sql_update_non_conflict.
  transitivity (map (fun c : Phase2.recipe_ingredient => c) t); [|apply map_id].
  apply map_ext_in. intros a Ha.
  rewrite Forall_forall in H. now rewrite (H a Ha).
Qed.

End MergeProps.

Section MergeTwice.
Context {U : Unicode}.
Variable alias_conflict : Phase2.alias_row -> Phase2.alias_row -> bool.

(** The insert leaves a table as it is exactly when a row of the table
    conflicts with the alias. *)
Lemma sql_insert_alias_again c k an t :
  Phase2.sql_insert_alias alias_conflict c k an t = t
  <-> existsb (alias_conflict {| Phase2.al_ingredient_id := c; Phase2.al_alias := k;
                                 Phase2.al_alias_norm := an |}) t = true.
Proof.
  unfold Phase2.sql_insert_alias.
  destruct (existsb _ t); split; intros H; try reflexivity; try discriminate.
  exfalso. apply (f_equal (@length _)) in H. rewrite length_app in H. simpl in H. lia.
Qed.

End MergeTwice.




(** C5 (the code departs from the claim): a recipe has a join-row for the
    canonical ingredient and one for the alias, both with the note [tươi].
    The Merge Executor leaves the canonical row with the note
    [tươi; tươi]: [SQL_MERGE_CONFLICTS] concatenates the two notes and cuts
    at 200 characters, without looking for segments present on both sides.
    [merge_note] of [pipeline.py], which does what the claim says, returns
    [tươi] for the same two notes. *)
Theorem merge_conflicts_repeats_note :
  let row ing :=
    {| Phase2.ri_recipe_id := py "r1"; Phase2.ri_ingredient_id := py ing;
       Phase2.ri_amount := None; Phase2.ri_unit := None;
       Phase2.ri_note := Some (py "tươi"); Phase2.ri_role := Some (py "core") |} in
  let conn :=
    {| Phase2.ingredient_aliases := [];
       Phase2.recipe_ingredients := [row "C"; row "A"]%string |} in
  map Phase2.ri_note
    (Phase2.recipe_ingredients
       (Phase2.apply_one_pair (U := LatinVN.unicode) unique_ingredient_alias_norm conn
          (py "C") (py "bột ngọt") (py "A") (py "mì chính") false))
  = [Some (py "tươi; tươi")]
  /\ Pipeline.merge_note (U := LatinVN.unicode) (Some (py "tươi")) (Some (py "tươi")) 200
     = Some (py "tươi").
Proof. split; reflexivity. Qed.

(** ** Parser invariant *)

(** C7: for every raw input string, every item of the list returned by
    [parse_ingredient_text_phase1] has a non-empty key in which no character
    is a digit (a character of the class [\d]). *)
Theorem parsed_key_has_no_digit (U : Unicode) (raw_text : str)
  (item : Pipeline.ParsedIngredient) :
  In item (Pipeline.parse_ingredient_text_phase1 raw_text) ->
  Pipeline.key item <> [] /\ forallb (fun c => negb (is_digit c)) (Pipeline.key item) = true.
Proof.
  unfold Pipeline.parse_ingredient_text_phase1.
  destruct (Pipeline.preclean_extract_parentheses raw_text) as [text_main note0].
  intros H. apply in_flat_map in H as (part & _ & H).
  unfold Pipeline.parse_part in H.
  destruct (negb (truthy part)); [contradiction|].
  destruct (Pipeline.parse_amount_unit_minimal part) as [[amount unit] rest].
  destruct (Pipeline.extract_key_and_note rest note0) as [key note].
  destruct key as [|c key]; [contradiction|]. cbn [truthy negb] in H.
  destruct (existsb is_digit (c :: key)) eqn:E; [contradiction|].
  destruct H as [<-|[]]. cbn [Pipeline.key]. split; [discriminate|].
  apply forallb_forall. intros x Hx. apply negb_true_iff.
  destruct (is_digit x) eqn:D; [|reflexivity].
  assert (X : existsb is_digit (c :: key) = true) by (apply existsb_exists; eauto).
  congruence.
Qed.

Lemma parsed_key_has_no_digit_witness :
  let item :=
    {| Pipeline.amount := Some (mkDecimal 200 0); Pipeline.unit := Some (py "g");
       Pipeline.key := py "thịt gà"; Pipeline.alias_norm := py "thit ga";
       Pipeline.note := Some (py "bỏ da; tươi"); Pipeline.role := py "core" |} in
  Pipeline.key item <> []
  /\ forallb (fun c => negb (is_digit (U := LatinVN.unicode) c)) (Pipeline.key item) = true.
Proof.
  intros item.
  apply (@parsed_key_has_no_digit LatinVN.unicode (py "200g thịt gà tươi (bỏ da)") item).
  vm_compute. left. reflexivity.
Defined.

(** ** Promotion: sentence-like lines *)

Section PromotionProps.
Context {U : Unicode} {St : Store}.

Lemma promote_line_sentence raw dedup conn :
  Pipeline.looks_like_sentence (Pipeline.strip_bad_prefix raw) = true ->
  Pipeline.promote_line (VText raw) dedup conn = (inr dedup, conn).
Proof.
  intros H. unfold Pipeline.promote_line, as_text, bind, ret. now rewrite H.
Qed.

(** The loop over the ingredient lines, with a sentence-like line among
    them or without it. *)
Lemma promote_lines_without raw before after dedup conn :
  Pipeline.looks_like_sentence (Pipeline.strip_bad_prefix raw) = true ->
  for_each (before ++ VText raw :: after) Pipeline.promote_line dedup conn
  = for_each (before ++ after) Pipeline.promote_line dedup conn.
Proof.
  intros H. revert dedup conn. induction before as [|x before IH]; intros dedup conn.
  - cbn [app for_each]. unfold bind at 1. now rewrite promote_line_sentence by exact H.
  - cbn [app for_each]. unfold bind.
    destruct (Pipeline.promote_line x dedup conn) as [[e|d] c]; [reflexivity|apply IH].
Qed.

End PromotionProps.

(** C10: during recipe promotion a raw ingredient line that, after the
    conversational prefix is stripped, has more than 8 whitespace-separated
    words is skipped entirely.  Whatever the parser would return for it, the
    line is not parsed: its step of the loop returns at once, without a
    statement sent to the store and without an error, and the whole
    transaction of the recipe (ingredient entities, join-rows, result) is
    the same as if the line were not among the ingredient lines.  The parser
    itself accepts such lines: it returns an item for a line of nine
    words. *)
Theorem sentence_line_skipped (U : Unicode) (St : Store) (raw : str)
  (before after : list value) (dedup : Pipeline.dedup_dict) (conn : connection)
  (rid_uuid pname slug : str) (name hero : value) (short_note : option str)
  (steps : list (list value)) :
  Pipeline.looks_like_sentence (Pipeline.strip_bad_prefix raw) = true ->
  Pipeline.promote_line (VText raw) dedup conn = (inr dedup, conn)
  /\ Pipeline.promote_into_prod rid_uuid pname slug name hero short_note steps
       (before ++ VText raw :: after) conn
     = Pipeline.promote_into_prod rid_uuid pname slug name hero short_note steps
         (before ++ after) conn
  /\ (exists line : str,
        Pipeline.looks_like_sentence
          (Pipeline.strip_bad_prefix (U := LatinVN.unicode) line) = true
        /\ Pipeline.parse_ingredient_text_phase1 (U := LatinVN.unicode) line <> []).
Proof.
  intros H. split; [now apply promote_line_sentence|]. split.
  - unfold Pipeline.promote_into_prod, with_conn, bind.
    destruct (Pipeline.upsert_product_recipe _ _ _ _ _ conn) as [[e|u] c1]; [reflexivity|].
    destruct (Pipeline.replace_recipe_steps _ _ c1) as [[e|u2] c2]; [reflexivity|].
    now rewrite promote_lines_without by exact H.
  - exists (py "a b c d e f g h i"). split; [reflexivity|].
    vm_compute. discriminate.
Qed.

Lemma sentence_line_skipped_witness :
  let St := Scripted.store [] (fun _ _ => {| rowcount := 1; fetchall := [[VText (py "id1")]] |}) in
  let raw := py "mình có nửa ký thịt ba chỉ rất ngon mua ở chợ gần nhà" in
  Pipeline.promote_line (U := LatinVN.unicode) (St := St) (VText raw) [] [] = (inr [], [])
  /\ Pipeline.promote_into_prod (U := LatinVN.unicode) (St := St)
       (py "u1") (py "Canh chua") (py "canh-chua-1") (VText (py "Canh chua")) VNull None []
       ([VText (py "muối")] ++ VText raw :: [VText (py "đường")]) []
     = Pipeline.promote_into_prod (U := LatinVN.unicode) (St := St)
         (py "u1") (py "Canh chua") (py "canh-chua-1") (VText (py "Canh chua")) VNull None []
         ([VText (py "muối")] ++ [VText (py "đường")]) [].
Proof.
  intros St raw.
  destruct (@sentence_line_skipped LatinVN.unicode St raw
              [VText (py "muối")] [VText (py "đường")] [] []
              (py "u1") (py "Canh chua") (py "canh-chua-1") (VText (py "Canh chua")) VNull
              None [] eq_refl) as (H1 & H2 & _).
  split; [exact H1 | exact H2].
Defined.

(** ** Collision resolver: the bounded retry *)

Section ResolverProps.
Context {St : Store}.

Lemma apply_row_selected dry_run r total :
  selected r = true ->
  ResolveCollisions.apply_row dry_run r total
  = bind (ResolveCollisions.attempts 3 0 r dry_run)
      (fun st =>
         ret {| ResolveCollisions.t_alias_norms := ResolveCollisions.t_alias_norms total + 1;
                ResolveCollisions.t_skipped_manual := ResolveCollisions.t_skipped_manual total;
                ResolveCollisions.t_aliases :=
                  ResolveCollisions.t_aliases total + ResolveCollisions.aliases st;
                ResolveCollisions.t_ri_conflicts_deleted :=
                  ResolveCollisions.t_ri_conflicts_deleted total
                  + ResolveCollisions.ri_conflicts_deleted st;
                ResolveCollisions.t_ri_updated :=
                  ResolveCollisions.t_ri_updated total + ResolveCollisions.ri_updated st;
                ResolveCollisions.t_ingredients_deleted :=
                  ResolveCollisions.t_ingredients_deleted total
                  + ResolveCollisions.ingredients_deleted st |}%Z).
Proof.
  unfold selected, ResolveCollisions.apply_row. intros H.
  apply andb_prop in H as [H H3]. apply andb_prop in H as [H1 H2].
  now rewrite H1, H2, H3.
Qed.

(** Three attempts that each end in a uniqueness violation. *)
Lemma attempts_exhausted dry_run r c0 c1 c2 c3 :
  group_transaction r dry_run c0 = (inl UniqueViolation, c1) ->
  group_transaction r dry_run (rollback c1) = (inl UniqueViolation, c2) ->
  group_transaction r dry_run (rollback c2) = (inl UniqueViolation, c3) ->
  ResolveCollisions.attempts 3 0 r dry_run c0 = (inl UniqueViolation, rollback c3).
Proof.
  unfold group_transaction. intros H1 H2 H3.
  cbn [ResolveCollisions.attempts]. rewrite H1. cbn [Nat.eqb].
  rewrite H2. cbn [Nat.eqb]. now rewrite H3.
Qed.

(** A loop stops at the first iteration that raises. *)
Lemma for_each_raises {S A X : Type} (body : X -> A -> M S A) before x after a s a1 s1 e s2 :
  for_each before body a s = (inr a1, s1) ->
  body x a1 s1 = (inl e, s2) ->
  for_each (before ++ x :: after) body a s = (inl e, s2).
Proof.
  revert a s. induction before as [|y before IH]; intros a s; cbn [app for_each].
  - unfold ret. intros E. injection E as <- <-. intros H. unfold bind. now rewrite H.
  - unfold bind. destruct (body y a s) as [[e'|a'] s']; [discriminate|]. apply IH.
Qed.

End ResolverProps.

(** C4 (as stated, refuted): a batch of two groups, [x] and [y]; the alias
    insert of [x] violates a uniqueness constraint at each attempt.
    [run_apply] makes three attempts for [x], each rolled back, and then
    raises: the group [y] is never processed (no statement of the trace
    mentions it). *)
Lemma exhausted_retry_stops_the_batch :
  let St := Scripted.store [py "x"]
              (fun q _ => {| rowcount := 1;
                             fetchall := match q with
                                         | SQL_OTHER_IDS_FOR_ALIAS => [[VText (py "other")]]
                                         | _ => []
                                         end |}) in
  let row n := {| ResolveCollisions.alias_norm := py n;
                  ResolveCollisions.canonical_id := py "canon";
                  ResolveCollisions.canonical_key := py "k";
                  ResolveCollisions.decision := py "auto";
                  ResolveCollisions.notes := [] |} in
  let '(result, trace) :=
    ResolveCollisions.run_apply (St := St) [row "x"; row "y"]%string false [] in
  result = inl UniqueViolation
  /\ length (filter (fun e => match e with
                              | Scripted.Executed SQL_OTHER_IDS_FOR_ALIAS _ => true
                              | _ => false
                              end) trace) = 3%nat
  /\ Scripted.mentions (py "y") trace = [].
Proof. vm_compute. repeat split. Qed.

(** C4 (amended): during collision resolution a uniqueness violation rolls
    the per-group transaction back and the whole transaction is tried
    again, three attempts in all.  When the third attempt fails too, the
    error leaves [run_apply]: the groups before it in the batch have been
    processed (and committed), the failing group is rolled back, and no
    group after it is processed - the outcome and the state of the
    connection are those reached at the third rollback, whatever the rest of
    the batch is. *)
Theorem run_apply_stops_at_exhausted_retry (St : Store)
  (before after : list ResolveCollisions.Row) (r : ResolveCollisions.Row)
  (dry_run : bool) (conn c0 c1 c2 c3 : connection) (total : ResolveCollisions.totals) :
  ResolveCollisions.run_apply before dry_run conn = (inr total, c0) ->
  selected r = true ->
  group_transaction r dry_run c0 = (inl UniqueViolation, c1) ->
  group_transaction r dry_run (rollback c1) = (inl UniqueViolation, c2) ->
  group_transaction r dry_run (rollback c2) = (inl UniqueViolation, c3) ->
  ResolveCollisions.run_apply (before ++ r :: after) dry_run conn
  = (inl UniqueViolation, rollback c3).
Proof.
  intros Hb Hsel H1 H2 H3. unfold ResolveCollisions.run_apply in *.
  eapply for_each_raises; [exact Hb|].
  rewrite apply_row_selected by exact Hsel. unfold bind.
  now rewrite (@attempts_exhausted _ _ _ _ _ _ _ H1 H2 H3).
Qed.

Lemma run_apply_stops_at_exhausted_retry_witness :
  let St := Scripted.store [py "x"]
              (fun q _ => {| rowcount := 1;
                             fetchall := match q with
                                         | SQL_OTHER_IDS_FOR_ALIAS => [[VText (py "other")]]
                                         | _ => []
                                         end |}) in
  let row n := {| ResolveCollisions.alias_norm := py n;
                  ResolveCollisions.canonical_id := py "canon";
                  ResolveCollisions.canonical_key := py "k";
                  ResolveCollisions.decision := py "auto";
                  ResolveCollisions.notes := [] |} in
  exists trace,
    ResolveCollisions.run_apply (St := St) ([row "w"] ++ row "x" :: [row "y"])%string false []
    = (inl UniqueViolation, Scripted.RolledBack :: trace).
Proof.
  intros St row. eexists.
  eapply (@run_apply_stops_at_exhausted_retry St [row "w"] [row "y"] (row "x") false [])%string.
  - vm_compute. reflexivity.
  - reflexivity.
  - vm_compute. reflexivity.
  - vm_compute. reflexivity.
  - vm_compute. reflexivity.
Defined.

(** ** What a match tells about the subject *)

Section RegexProps.
Context {U : Unicode}.
Variable ic : bool.

Lemma rep_sound g lo hi p k count bef aft grp res :
  Regex.rep g lo hi p k count bef aft grp = Some res ->
  exists w rest,
    aft = w ++ rest /\ forallb p w = true /\ (lo <= count + length w)%nat
    /\ k {| Regex.before := rev w ++ bef; Regex.after := rest; Regex.groups := grp |}
       = Some res.
Proof.
  revert count bef. induction aft as [|x r IH]; intros count bef H.
  - cbn [Regex.rep] in H. destruct (lo <=? count)%nat eqn:E; [|discriminate].
    exists [], []. apply Nat.leb_le in E. repeat split; [simpl; lia | exact H].
  - cbn [Regex.rep] in H.
    assert (Hstop : (if (lo <=? count)%nat
                     then k {| Regex.before := bef; Regex.after := x :: r;
                               Regex.groups := grp |}
                     else None) = Some res ->
                    exists w rest, x :: r = w ++ rest /\ forallb p w = true
                      /\ (lo <= count + length w)%nat
                      /\ k {| Regex.before := rev w ++ bef; Regex.after := rest;
                              Regex.groups := grp |} = Some res).
    { intros Hs. destruct (lo <=? count)%nat eqn:E; [|discriminate].
      exists [], (x :: r). apply Nat.leb_le in E. repeat split; [simpl; lia | exact Hs]. }
    assert (Hmore : Regex.rep g lo hi p k (S count) (x :: bef) r grp = Some res ->
                    p x = true ->
                    exists w rest, x :: r = w ++ rest /\ forallb p w = true
                      /\ (lo <= count + length w)%nat
                      /\ k {| Regex.before := rev w ++ bef; Regex.after := rest;
                              Regex.groups := grp |} = Some res).
    { intros Hm Hp. destruct (IH _ _ Hm) as (w & rest & -> & Hw & Hlo & Hk).
      exists (x :: w), rest. simpl. rewrite Hp, Hw. repeat split; [lia|].
      now rewrite <- app_assoc. }
    destruct (p x && Regex.below count hi) eqn:C; [|now apply Hstop].
    apply andb_prop in C as [Hp _].
    destruct g.
    + destruct (Regex.rep true lo hi p k (S count) (x :: bef) r grp) eqn:R.
      * injection H as ->. now apply Hmore.
      * now apply Hstop.
    + destruct (if (lo <=? count)%nat
                then k {| Regex.before := bef; Regex.after := x :: r; Regex.groups := grp |}
                else None) eqn:S0.
      * injection H as ->. now apply Hstop.
      * now apply Hmore.
Qed.

(** A pattern without groups consumes a text of its language and leaves the
    groups alone. *)
Lemma matches_sound r :
  group_free r = true ->
  forall k s res,
    Regex.matches ic r k s = Some res ->
    exists s' w,
      k s' = Some res /\ Regex.groups s' = Regex.groups s
      /\ Regex.after s = w ++ Regex.after s' /\ lang ic r w.
Proof.
  induction r as [|c|p|r1 IH1 r2 IH2|r1 IH1 r2 IH2|g lo hi p|n r IH| | |];
    intros GF k s res H; cbn [Regex.matches] in H; cbn [lang].
  - exists s, []. auto.
  - destruct (Regex.after s) as [|x rest] eqn:A; [discriminate|].
    destruct (Regex.lit_eq ic c x) eqn:E; [|discriminate].
    exists (Regex.advance x rest s), [x]. repeat split; eauto.
  - destruct (Regex.after s) as [|x rest] eqn:A; [discriminate|].
    destruct (p x) eqn:E; [|discriminate].
    exists (Regex.advance x rest s), [x]. repeat split; eauto.
  - cbn [group_free] in GF. apply andb_prop in GF as [G1 G2].
    destruct (IH1 G1 _ _ _ H) as (s1 & w1 & H1 & Hg1 & Ha1 & L1).
    destruct (IH2 G2 _ _ _ H1) as (s2 & w2 & H2 & Hg2 & Ha2 & L2).
    exists s2, (w1 ++ w2). repeat split; [assumption | congruence | |].
    + rewrite Ha1, Ha2. now rewrite app_assoc.
    + exists w1, w2. auto.
  - cbn [group_free] in GF. apply andb_prop in GF as [G1 G2].
    destruct (Regex.matches ic r1 k s) eqn:M1.
    + injection H as ->.
      destruct (IH1 G1 _ _ _ M1) as (s1 & w1 & H1 & Hg1 & Ha1 & L1).
      exists s1, w1. auto.
    + destruct (IH2 G2 _ _ _ H) as (s2 & w2 & H2 & Hg2 & Ha2 & L2).
      exists s2, w2. auto.
  - apply rep_sound in H as (w & rest & Ha & Hw & Hlo & Hk).
    exists {| Regex.before := rev w ++ Regex.before s; Regex.after := rest;
              Regex.groups := Regex.groups s |}, w.
    repeat split; [exact Hk | exact Ha | exact Hw | lia].
  - discriminate.
  - destruct (Regex.before s); [|discriminate]. exists s, []. auto.
  - destruct (Regex.at_end s); [|discriminate]. exists s, []. auto.
  - destruct (Regex.at_word_boundary s); [|discriminate]. exists s, []. auto.
Qed.

(** A group around such a pattern records the text consumed. *)
Lemma matches_group_sound n r :
  group_free r = true ->
  forall k s res,
    Regex.matches ic (Regex.Group n r) k s = Some res ->
    exists s' w,
      k s' = Some res /\ Regex.groups s' = (n, w) :: Regex.groups s
      /\ Regex.after s = w ++ Regex.after s' /\ lang ic r w.
Proof.
  intros GF k s res H. cbn [Regex.matches] in H.
  destruct (@matches_sound r GF _ _ _ H) as (s1 & w & H1 & Hg & Ha & L).
  exists {| Regex.before := Regex.before s1; Regex.after := Regex.after s1;
            Regex.groups :=
              (n, firstn (length (Regex.after s) - length (Regex.after s1)) (Regex.after s))
                :: Regex.groups s1 |}, w.
  split; [exact H1|]. cbn [Regex.groups Regex.after].
  repeat split; [|exact Ha | exact L].
  rewrite Hg, Ha. rewrite length_app, Nat.add_sub.
  now rewrite firstn_app, Nat.sub_diag, firstn_all, firstn_O, app_nil_r.
Qed.

End RegexProps.

(** ** Decimal arithmetic *)

Lemma ndigits_from_spec n fuel d :
  (1 <= d)%Z -> (10 ^ (d - 1) <= n)%Z -> (n < 10 ^ (d + Z.of_nat fuel))%Z ->
  (d <= PyDecimal.ndigits_from fuel n d
   /\ 10 ^ (PyDecimal.ndigits_from fuel n d - 1) <= n
      < 10 ^ PyDecimal.ndigits_from fuel n d)%Z.
Proof.
  revert d. induction fuel as [|fuel IH]; intros d Hd Hlo Hhi.
  - cbn [PyDecimal.ndigits_from]. rewrite Z.add_0_r in Hhi. lia.
  - cbn [PyDecimal.ndigits_from]. destruct (n <? 10 ^ d)%Z eqn:E.
    + apply Z.ltb_lt in E. lia.
    + apply Z.ltb_ge in E.
      destruct (IH (d + 1)%Z) as (H1 & H2); [lia | | |].
      * now replace (d + 1 - 1)%Z with d by lia.
      * now replace (d + 1 + Z.of_nat fuel)%Z with (d + Z.of_nat (S fuel))%Z by lia.
      * split; [lia | exact H2].
Qed.

(** [ndigits n] is the number of decimal digits of [n]. *)
Lemma ndigits_spec n :
  (0 < n)%Z ->
  (1 <= PyDecimal.ndigits n /\ 10 ^ (PyDecimal.ndigits n - 1) <= n < 10 ^ PyDecimal.ndigits n)%Z.
Proof.
  intros Hn. unfold PyDecimal.ndigits. apply ndigits_from_spec; [lia | simpl; lia |].
  pose proof (Z.log2_nonneg n) as H0.
  destruct (Z.log2_spec n Hn) as [_ H2].
  rewrite Nat2Z.inj_succ, Z2Nat.id by lia.
  apply Z.lt_le_trans with (2 ^ Z.succ (Z.log2 n))%Z; [exact H2|].
  apply Z.le_trans with (10 ^ Z.succ (Z.log2 n))%Z.
  - apply Z.pow_le_mono_l. lia.
  - apply Z.pow_le_mono_r; lia.
Qed.

Lemma strip_zeros_spec fuel coeff exp :
  (exp <= 0)%Z -> Z.of_nat fuel = (- exp)%Z ->
  let '(q, e) := PyDecimal.strip_zeros fuel 0 coeff exp in
  (exp <= e <= 0 /\ coeff = q * 10 ^ (e - exp) /\ (e = 0 \/ q mod 10 <> 0))%Z.
Proof.
  revert coeff exp. induction fuel as [|fuel IH]; intros coeff exp Hexp Hfuel.
  - cbn [PyDecimal.strip_zeros]. assert (exp = 0%Z) by lia. subst.
    simpl. lia.
  - cbn [PyDecimal.strip_zeros].
    destruct (exp <? 0)%Z eqn:E1; cbn [andb].
    + destruct (coeff mod 10 =? 0)%Z eqn:E2.
      * apply Z.ltb_lt in E1. apply Z.eqb_eq in E2.
        specialize (IH (coeff / 10)%Z (exp + 1)%Z ltac:(lia) ltac:(lia)).
        destruct (PyDecimal.strip_zeros fuel 0 (coeff / 10) (exp + 1)) as [q e].
        destruct IH as (H1 & H2 & H3). repeat split; [lia | lia | | exact H3].
        replace (e - exp)%Z with (Z.succ (e - (exp + 1)))%Z by lia.
        rewrite Z.pow_succ_r by lia.
        rewrite (Z.div_mod coeff 10) at 1 by lia. rewrite E2, H2. lia.
      * apply Z.eqb_neq in E2. rewrite Z.sub_diag. simpl. lia.
    + apply Z.ltb_ge in E1. rewrite Z.sub_diag. simpl. lia.
Qed.

Lemma div_eucl_exact x y : (y <> 0)%Z -> Z.div_eucl (x * y) y = (x, 0%Z).
Proof.
  intros Hy. pose proof (Z.div_mul x y Hy) as Hq. pose proof (Z.mod_mul x y Hy) as Hr.
  unfold Z.div, Z.modulo in Hq, Hr.
  destruct (Z.div_eucl (x * y) y) as [q r]. simpl in *. now subst.
Qed.

Lemma Qdiv_cross (a b c d : Z) :
  (b <> 0)%Z -> (d <> 0)%Z -> (a * d = c * b)%Z ->
  inject_Z a / inject_Z b == inject_Z c / inject_Z d.
Proof.
  intros Hb Hd H.
  assert (Hb' : ~ inject_Z b == 0) by (unfold Qeq; simpl; lia).
  assert (Hd' : ~ inject_Z d == 0) by (unfold Qeq; simpl; lia).
  assert (E : inject_Z a * inject_Z d == inject_Z c * inject_Z b)
    by (rewrite <- !inject_Z_mult; now rewrite H).
  apply (Qmult_inj_r _ _ (inject_Z b * inject_Z d)).
  - intros X. apply Qmult_integral in X. tauto.
  - transitivity (inject_Z a * inject_Z d); [field; exact Hb'|].
    rewrite E. field. exact Hd'.
Qed.

Lemma pow10_nonpos e :
  (e <= 0)%Z -> pow10 e == 1 / inject_Z (10 ^ (- e)).
Proof.
  intros He. unfold pow10.
  replace e with (- - e)%Z at 1 by lia.
  rewrite Qpower_opp. change (10 # 1) with (inject_Z 10).
  rewrite <- Zpower_Qpower by lia.
  unfold Qdiv. now rewrite Qmult_1_l.
Qed.

Lemma Decimal_value_nonpos q e (a b : Z) :
  (e <= 0)%Z -> (b <> 0)%Z -> (a * 10 ^ (- e) = b * q)%Z ->
  Decimal_value (mkDecimal q e) == inject_Z a / inject_Z b.
Proof.
  intros He Hb H. unfold Decimal_value. cbn [coefficient exponent].
  rewrite pow10_nonpos by exact He.
  assert (Hp : (0 < 10 ^ (- e))%Z) by (apply Z.pow_pos_nonneg; lia).
  transitivity (inject_Z q / inject_Z (10 ^ (- e))).
  - unfold Qdiv. now rewrite Qmult_1_l.
  - symmetry. apply Qdiv_cross; lia.
Qed.

Lemma pow10_nonneg e : (0 <= e)%Z -> pow10 e == inject_Z (10 ^ e).
Proof.
  intros He. unfold pow10. change (10 # 1) with (inject_Z 10).
  now rewrite <- Zpower_Qpower.
Qed.

Lemma pow10_add a b : pow10 (a + b) == pow10 a * pow10 b.
Proof. unfold pow10. apply Qpower_plus. discriminate. Qed.

Lemma Qdiv_cross_inv (a b c d : Z) :
  (b <> 0)%Z -> (d <> 0)%Z ->
  inject_Z a / inject_Z b == inject_Z c / inject_Z d -> (a * d = c * b)%Z.
Proof.
  intros Hb Hd H.
  assert (Hb' : ~ inject_Z b == 0) by (unfold Qeq; simpl; lia).
  assert (Hd' : ~ inject_Z d == 0) by (unfold Qeq; simpl; lia).
  apply inject_Z_injective. rewrite !inject_Z_mult.
  transitivity (inject_Z a / inject_Z b * (inject_Z b * inject_Z d)); [field; exact Hb'|].
  rewrite H. field. exact Hd'.
Qed.

(** [_fix] leaves the value of a coefficient with at most 28 significant
    digits. *)
Lemma fix_exact coeff exp c j :
  (0 <= j)%Z -> (0 <= c < 10 ^ 28)%Z -> coeff = (c * 10 ^ j)%Z ->
  Decimal_value (PyDecimal.fix_ coeff exp) == inject_Z coeff * pow10 exp.
Proof.
  intros Hj Hc E. unfold PyDecimal.fix_.
  destruct (coeff =? 0)%Z eqn:E0.
  - apply Z.eqb_eq in E0. rewrite E0. reflexivity.
  - apply Z.eqb_neq in E0.
    assert (Hpj : (0 < 10 ^ j)%Z) by (apply Z.pow_pos_nonneg; lia).
    assert (Hpos : (0 < coeff)%Z) by nia.
    destruct (ndigits_spec Hpos) as (Hn1 & Hn2 & Hn3).
    set (len := PyDecimal.ndigits coeff) in *. unfold PyDecimal.prec.
    destruct (28 <? len)%Z eqn:El; [|reflexivity].
    apply Z.ltb_lt in El. cbv zeta.
    set (k := (len - 28)%Z).
    assert (Hk : (1 <= k)%Z) by (unfold k; lia).
    assert (Hpk : (0 < 10 ^ k)%Z) by (apply Z.pow_pos_nonneg; lia).
    assert (Hjk : (k <= j)%Z).
    { assert (H1 : (10 ^ (len - 1) < 10 ^ (28 + j))%Z).
      { rewrite (Z.pow_add_r 10 28 j) by lia. nia. }
      apply Z.pow_lt_mono_r_iff in H1; unfold k; lia. }
    assert (Ec : coeff = (c * 10 ^ (j - k) * 10 ^ k)%Z).
    { rewrite E, <- Z.mul_assoc, <- Z.pow_add_r by lia. do 2 f_equal. lia. }
    assert (Ehi : (coeff / 10 ^ k = c * 10 ^ (j - k))%Z)
      by (rewrite Ec at 1; apply Z.div_mul; lia).
    assert (Elo : (coeff mod 10 ^ k = 0)%Z)
      by (rewrite Ec at 1; apply Z.mod_mul; lia).
    rewrite Elo, Ehi.
    assert (Hhalf : (0 < 5 * 10 ^ (k - 1))%Z).
    { assert (0 < 10 ^ (k - 1))%Z by (apply Z.pow_pos_nonneg; lia). lia. }
    assert (E1 : (0 =? 5 * 10 ^ (k - 1))%Z = false) by (apply Z.eqb_neq; lia).
    assert (E2 : (5 * 10 ^ (k - 1) <? 0)%Z = false) by (apply Z.ltb_ge; lia).
    rewrite E1, E2.
    set (hi := (c * 10 ^ (j - k))%Z) in *.
    assert (Hhi : (0 < hi < 10 ^ 28)%Z).
    { split; [nia|].
      assert (H1 : (hi * 10 ^ k < 10 ^ 28 * 10 ^ k)%Z).
      { rewrite <- Ec, <- Z.pow_add_r by lia.
        replace (28 + k)%Z with len by (unfold k; lia). exact Hn3. }
      nia. }
    assert (Elen : (28 <? PyDecimal.ndigits hi)%Z = false).
    { apply Z.ltb_ge. destruct Hhi as [Hh1 Hh2].
      destruct (ndigits_spec Hh1) as (Hm1 & Hm2 & Hm3).
      destruct (Z_le_gt_dec (PyDecimal.ndigits hi) 28) as [|Hgt]; [assumption|exfalso].
      assert (10 ^ 28 <= 10 ^ (PyDecimal.ndigits hi - 1))%Z
        by (apply Z.pow_le_mono_r; lia).
      lia. }
    rewrite Elen. unfold Decimal_value. cbn [coefficient exponent].
    rewrite pow10_add, (pow10_nonneg (e := k)) by lia.
    rewrite Ec, inject_Z_mult. ring.
Qed.

(** The coefficient that [_fix] returns has at most 28 digits. *)
Lemma fix_bound coeff exp :
  (0 <= coeff)%Z -> (0 <= coefficient (PyDecimal.fix_ coeff exp) < 10 ^ 28)%Z.
Proof.
  intros H0. unfold PyDecimal.fix_.
  destruct (coeff =? 0)%Z eqn:E0; [cbn [coefficient]; lia|].
  apply Z.eqb_neq in E0. assert (Hpos : (0 < coeff)%Z) by lia.
  destruct (ndigits_spec Hpos) as (Hn1 & Hn2 & Hn3).
  set (len := PyDecimal.ndigits coeff) in *. unfold PyDecimal.prec.
  destruct (28 <? len)%Z eqn:El.
  - apply Z.ltb_lt in El. cbv zeta.
    set (k := (len - 28)%Z).
    assert (Hpk : (0 < 10 ^ k)%Z) by (apply Z.pow_pos_nonneg; unfold k; lia).
    set (hi0 := (coeff / 10 ^ k)%Z).
    assert (Hhi0 : (0 <= hi0 < 10 ^ 28)%Z).
    { split; [apply Z.div_pos; lia|].
      apply Z.div_lt_upper_bound; [lia|].
      rewrite <- Z.pow_add_r by (unfold k; lia).
      replace (k + 28)%Z with len by (unfold k; lia). exact Hn3. }
    set (up := if (coeff mod 10 ^ k =? 5 * 10 ^ (k - 1))%Z then Z.odd hi0
               else (5 * 10 ^ (k - 1) <? coeff mod 10 ^ k)%Z).
    set (hi := if up then (hi0 + 1)%Z else hi0).
    assert (Hhi : (0 <= hi <= 10 ^ 28)%Z) by (unfold hi; destruct up; lia).
    destruct (28 <? PyDecimal.ndigits hi)%Z eqn:E2; cbn [coefficient].
    + split; [apply Z.div_pos; lia|].
      apply Z.div_lt_upper_bound; [lia|].
      change (10 ^ 28)%Z with (10 * 10 ^ 27)%Z in Hhi.
      change (10 ^ 28)%Z with (10 * 10 ^ 27)%Z. lia.
    + apply Z.ltb_ge in E2. split; [lia|].
      destruct (Z.eq_dec hi 0) as [->|Hne]; [reflexivity|].
      assert (Hhpos : (0 < hi)%Z) by lia.
      destruct (ndigits_spec Hhpos) as (Hm1 & Hm2 & Hm3).
      apply Z.lt_le_trans with (10 ^ PyDecimal.ndigits hi)%Z; [exact Hm3|].
      apply Z.pow_le_mono_r; lia.
  - apply Z.ltb_ge in El. cbn [coefficient]. split; [lia|].
    apply Z.lt_le_trans with (10 ^ len)%Z; [exact Hn3|].
    apply Z.pow_le_mono_r; lia.
Qed.

Lemma strip_zeros_nonneg fuel ideal coeff exp :
  (0 <= coeff)%Z -> (0 <= fst (PyDecimal.strip_zeros fuel ideal coeff exp))%Z.
Proof.
  revert coeff exp. induction fuel as [|fuel IH]; intros coeff exp H;
    cbn [PyDecimal.strip_zeros]; [exact H|].
  destruct (_ && _); [|exact H]. apply IH. apply Z.div_pos; lia.
Qed.

Lemma div_eucl_fst_nonneg x y :
  (0 <= x)%Z -> (0 < y)%Z -> (0 <= fst (Z.div_eucl x y))%Z.
Proof. intros Hx Hy. change (fst (Z.div_eucl x y)) with (x / y)%Z. apply Z.div_pos; lia. Qed.

(** The quotient of two integers has a coefficient of at most 28 digits. *)
Lemma div_coefficient_bound ca cb :
  (0 <= ca)%Z -> (0 < cb)%Z ->
  (0 <= coefficient (PyDecimal.div (mkDecimal ca 0) (mkDecimal cb 0)) < 10 ^ 28)%Z.
Proof.
  intros Ha Hb. unfold PyDecimal.div. cbv zeta. cbn [coefficient exponent].
  destruct (ca =? 0)%Z; [cbn [coefficient]; lia|].
  set (shift := (PyDecimal.ndigits cb - PyDecimal.ndigits ca + PyDecimal.prec + 1)%Z).
  assert (H : (0 <= fst (if (0 <=? shift)%Z
                         then Z.div_eucl (ca * 10 ^ shift) cb
                         else Z.div_eucl ca (cb * 10 ^ (- shift))))%Z).
  { destruct (0 <=? shift)%Z eqn:E.
    - apply Z.leb_le in E. apply div_eucl_fst_nonneg; [|lia].
      assert (0 < 10 ^ shift)%Z by (apply Z.pow_pos_nonneg; lia). nia.
    - apply Z.leb_gt in E. apply div_eucl_fst_nonneg; [lia|].
      assert (0 < 10 ^ (- shift))%Z by (apply Z.pow_pos_nonneg; lia). nia. }
  destruct (if (0 <=? shift)%Z then _ else _) as [coeff remainder]. cbn [fst] in H.
  destruct (negb (remainder =? 0)%Z).
  - apply fix_bound. destruct (coeff mod 5 =? 0)%Z; lia.
  - pose proof (@strip_zeros_nonneg (Z.to_nat (0 - 0 - (0 - 0 - shift))) (0 - 0) coeff
                  (0 - 0 - shift) H) as Hs.
    destruct (PyDecimal.strip_zeros _ _ coeff _) as [q e]. cbn [fst] in Hs.
    now apply fix_bound.
Qed.

(** The quotient is exact when it can be written with at most 28
    significant digits: [ca / cb = c * 10 ^ (k2 - k1)] with [c < 10 ^ 28]. *)
Lemma div_exact_digits (ca cb c k1 k2 : Z) :
  (0 <= ca)%Z -> (0 < cb)%Z -> (0 <= k1)%Z -> (0 <= k2)%Z -> (0 <= c < 10 ^ 28)%Z ->
  (ca * 10 ^ k1 = c * 10 ^ k2 * cb)%Z ->
  Decimal_value (PyDecimal.div (mkDecimal ca 0) (mkDecimal cb 0))
  == inject_Z ca / inject_Z cb.
Proof.
  intros Hca Hcb Hk1 Hk2 Hc Heq. unfold PyDecimal.div. cbv zeta. cbn [coefficient exponent].
  rewrite !Z.sub_diag.
  destruct (ca =? 0)%Z eqn:E0.
  - apply Z.eqb_eq in E0. subst ca. unfold Decimal_value, Qdiv. cbn [coefficient].
    now rewrite !Qmult_0_l.
  - apply Z.eqb_neq in E0. assert (Hca' : (0 < ca)%Z) by lia.
    assert (Hp1 : (0 < 10 ^ k1)%Z) by (apply Z.pow_pos_nonneg; lia).
    assert (Hp2 : (0 < 10 ^ k2)%Z) by (apply Z.pow_pos_nonneg; lia).
    assert (Hc' : (0 < c)%Z) by nia.
    assert (Hcb' : ~ inject_Z cb == 0) by (unfold Qeq; simpl; lia).
    destruct (ndigits_spec Hca') as (Ha1 & Ha2 & Ha3).
    destruct (ndigits_spec Hcb) as (Hb1 & Hb2 & Hb3).
    set (na := PyDecimal.ndigits ca) in *. set (nb := PyDecimal.ndigits cb) in *.
    unfold PyDecimal.prec.
    set (shift := (nb - na + 28 + 1)%Z).
    set (t := (shift - k1 + k2)%Z).
    assert (Ht : (1 <= t)%Z).
    { assert (H1 : (10 ^ (na - 1 + k1) <= ca * 10 ^ k1)%Z).
      { rewrite Z.pow_add_r by lia. nia. }
      assert (H2 : (c * 10 ^ k2 * cb < 10 ^ (28 + k2 + nb))%Z).
      { rewrite !Z.pow_add_r by lia.
        assert (Hpn : (0 < 10 ^ nb)%Z) by (apply Z.pow_pos_nonneg; lia).
        assert (H20 : (c * cb < 10 ^ 28 * 10 ^ nb)%Z) by nia.
        replace (c * 10 ^ k2 * cb)%Z with (c * cb * 10 ^ k2)%Z by ring.
        replace (10 ^ 28 * 10 ^ k2 * 10 ^ nb)%Z with (10 ^ 28 * 10 ^ nb * 10 ^ k2)%Z by ring.
        apply Z.mul_lt_mono_pos_r; assumption. }
      assert (H3 : (10 ^ (na - 1 + k1) < 10 ^ (28 + k2 + nb))%Z) by lia.
      apply Z.pow_lt_mono_r_iff in H3; unfold t, shift; lia. }
    assert (Hpt : (0 < 10 ^ t)%Z) by (apply Z.pow_pos_nonneg; lia).
    set (x := (c * 10 ^ t)%Z).
    assert (Hxpos : (0 < x)%Z) by (unfold x; nia).
    destruct (0 <=? shift)%Z eqn:E1.
    + apply Z.leb_le in E1.
      assert (Hps : (0 < 10 ^ shift)%Z) by (apply Z.pow_pos_nonneg; lia).
      assert (Hx : (ca * 10 ^ shift = x * cb)%Z).
      { apply (Z.mul_cancel_r _ _ (10 ^ k1)%Z); [lia|].
        transitivity (ca * 10 ^ k1 * 10 ^ shift)%Z; [ring|].
        rewrite Heq. unfold x.
        transitivity (c * (10 ^ t * 10 ^ k1) * cb)%Z; [|ring].
        rewrite <- Z.pow_add_r by lia.
        replace (t + k1)%Z with (k2 + shift)%Z by (unfold t; lia).
        rewrite Z.pow_add_r by lia. ring. }
      rewrite Hx, div_eucl_exact by lia. cbn [Z.eqb negb].
      pose proof (@strip_zeros_spec (Z.to_nat (0 - (0 - shift))) x (0 - shift)%Z
                    ltac:(lia) ltac:(rewrite Z2Nat.id; lia)) as Hs.
      destruct (PyDecimal.strip_zeros (Z.to_nat (0 - (0 - shift))) 0 x (0 - shift))
        as [q1 e1].
      destruct Hs as (He1 & Hq1 & _).
      set (u := (e1 - (0 - shift))%Z) in *.
      assert (Hu : (0 <= u)%Z) by (unfold u; lia).
      assert (Hpu : (0 < 10 ^ u)%Z) by (apply Z.pow_pos_nonneg; lia).
      assert (Hq1pos : (0 < q1)%Z) by nia.
      assert (Hval : (ca * 10 ^ (- e1) = cb * q1)%Z).
      { assert (Hpe : (10 ^ shift = 10 ^ (- e1) * 10 ^ u)%Z).
        { rewrite <- Z.pow_add_r by lia. f_equal. unfold u. lia. }
        apply (Z.mul_cancel_r _ _ (10 ^ u)%Z); [lia|].
        rewrite <- Z.mul_assoc, <- Hpe, Hx, Hq1. ring. }
      assert (Hform : exists c' j, (0 <= j)%Z /\ (0 <= c' < 10 ^ 28)%Z /\ q1 = (c' * 10 ^ j)%Z).
      { destruct (Z_le_gt_dec u t) as [Hut|Hut].
        - exists c, (t - u)%Z. repeat split; try lia.
          apply (Z.mul_cancel_r _ _ (10 ^ u)%Z); [lia|].
          rewrite <- Hq1, <- Z.mul_assoc, <- Z.pow_add_r by lia.
          unfold x. do 2 f_equal. lia.
        - exists q1, 0%Z. repeat split; try lia.
          assert (Hd : (c = q1 * 10 ^ (u - t))%Z).
          { apply (Z.mul_cancel_r _ _ (10 ^ t)%Z); [lia|].
            rewrite <- Z.mul_assoc, <- Z.pow_add_r by lia.
            replace (u - t + t)%Z with u by lia. exact Hq1. }
          assert (0 < 10 ^ (u - t))%Z by (apply Z.pow_pos_nonneg; lia). nia. }
      destruct Hform as (c' & j & Hj & Hc'' & Hq).
      rewrite (fix_exact e1 Hj Hc'' Hq).
      exact (@Decimal_value_nonpos q1 e1 ca cb ltac:(lia) ltac:(lia) Hval).
    + apply Z.leb_gt in E1.
      assert (Hps : (0 < 10 ^ (- shift))%Z) by (apply Z.pow_pos_nonneg; lia).
      assert (Hx : (ca = x * (cb * 10 ^ (- shift)))%Z).
      { apply (Z.mul_cancel_r _ _ (10 ^ k1)%Z); [lia|].
        rewrite Heq. unfold x.
        transitivity (c * (10 ^ t * 10 ^ (- shift) * 10 ^ k1) * cb)%Z; [|ring].
        rewrite <- !Z.pow_add_r by lia.
        replace (t + - shift + k1)%Z with k2 by (unfold t; lia). ring. }
      rewrite Hx at 1. rewrite div_eucl_exact by lia. cbn [Z.eqb negb].
      replace (Z.to_nat (0 - (0 - shift))) with O by lia.
      cbn [PyDecimal.strip_zeros].
      rewrite (@fix_exact x (0 - shift)%Z c t ltac:(lia) Hc eq_refl).
      rewrite pow10_nonneg by lia.
      rewrite Hx, !inject_Z_mult.
      replace (0 - shift)%Z with (- shift)%Z by lia.
      field. exact Hcb'.
Qed.

(** The quotient of two integers is the exact rational exactly when the
    rational can be written with at most 28 significant digits, as
    [c * 10 ^ e] with [c < 10 ^ 28]. *)
Lemma div_exact_iff (ca cb : Z) :
  (0 <= ca)%Z -> (0 < cb)%Z ->
  Decimal_value (PyDecimal.div (mkDecimal ca 0) (mkDecimal cb 0))
  == inject_Z ca / inject_Z cb
  <-> exists c e : Z,
        (0 <= c < 10 ^ 28)%Z /\ inject_Z ca / inject_Z cb == inject_Z c * pow10 e.
Proof.
  intros Hca Hcb. split.
  - intros H.
    exists (coefficient (PyDecimal.div (mkDecimal ca 0) (mkDecimal cb 0))),
           (exponent (PyDecimal.div (mkDecimal ca 0) (mkDecimal cb 0))).
    split; [now apply div_coefficient_bound | symmetry; exact H].
  - intros (c & e & Hc & H).
    destruct (Z_le_gt_dec 0 e) as [He|He].
    + apply (@div_exact_digits ca cb c 0 e); try lia.
      rewrite pow10_nonneg in H by exact He.
      rewrite <- inject_Z_mult in H.
      assert (H' : inject_Z ca / inject_Z cb == inject_Z (c * 10 ^ e) / inject_Z 1).
      { rewrite H. unfold Qdiv. change (/ inject_Z 1) with 1. now rewrite Qmult_1_r. }
      apply Qdiv_cross_inv in H'; lia.
    + apply (@div_exact_digits ca cb c (- e) 0); try lia.
      rewrite pow10_nonpos in H by lia.
      assert (Hp : (0 < 10 ^ (- e))%Z) by (apply Z.pow_pos_nonneg; lia).
      assert (H' : inject_Z ca / inject_Z cb == inject_Z c / inject_Z (10 ^ (- e))).
      { rewrite H. unfold Qdiv. now rewrite Qmult_1_l. }
      apply Qdiv_cross_inv in H'; lia.
Qed.

(** ** The groups of the amount patterns *)

Section AmountPatterns.
Context {U : Unicode}.

Lemma matches_seq ic r1 r2 k s :
  Regex.matches ic (Regex.Seq r1 r2) k s = Regex.matches ic r1 (Regex.matches ic r2 k) s.
Proof. reflexivity. Qed.

Lemma lang_plus_digits ic w :
  lang ic (Regex.plus is_digit) w -> PyDecimal.all_digits w = true.
Proof.
  cbn [lang Regex.plus]. intros [H1 H2]. unfold PyDecimal.all_digits. rewrite H1.
  destruct w; [simpl in H2; lia | reflexivity].
Qed.

(** One step along a sequence: the head is a pattern without groups. *)
Ltac head_free H s' G :=
  rewrite matches_seq in H;
  apply matches_sound in H; [|reflexivity];
  destruct H as (s' & ? & H & G & _ & _).

(** One step along a sequence: the head is a group. *)
Ltac head_group H s' w G L :=
  rewrite matches_seq in H;
  apply matches_group_sound in H; [|reflexivity];
  destruct H as (s' & w & H & G & _ & L).

Lemma fraction_groups s m :
  Regex.re_match true Pipeline.RE_FRACTION_UNIT s = Some m ->
  exists a b u t,
    m = [(py "rest", t); (py "unit", u); (py "den", b); (py "num", a)]
    /\ PyDecimal.all_digits a = true /\ PyDecimal.all_digits b = true.
Proof.
  unfold Regex.re_match, Regex.match_at.
  destruct (Regex.matches true Pipeline.RE_FRACTION_UNIT _ _) as [e|] eqn:H; [|discriminate].
  intros E. injection E as <-.
  unfold Pipeline.RE_FRACTION_UNIT in H. cbn [Regex.seq] in H.
  head_free H s1 G1. head_group H s2 a G2 La. head_free H s3 G3. head_free H s4 G4.
  head_free H s5 G5. head_group H s6 b G6 Lb. head_free H s7 G7.
  head_group H s8 u G8 Lu. head_free H s9 G9. head_free H s10 G10.
  head_group H s11 t G11 Lrest.
  apply matches_sound in H; [|reflexivity].
  destruct H as (s12 & ? & H & G12 & _ & _). injection H as <-.
  exists a, b, u, t. split.
  - rewrite G12, G11, G10, G9, G8, G7, G6, G5, G4, G3, G2, G1. reflexivity.
  - split; eapply lang_plus_digits; eassumption.
Qed.

Lemma decimal_groups s m :
  Regex.re_match true Pipeline.RE_DECIMAL_UNIT s = Some m ->
  exists v u t i,
    m = [(py "rest", t); (py "unit", u); (py "val", v)]
    /\ PyDecimal.all_digits i = true
    /\ (v = i
        \/ exists c f, (c = 46%N \/ c = 44%N) /\ PyDecimal.all_digits f = true
                       /\ v = i ++ c :: f).
Proof.
  unfold Regex.re_match, Regex.match_at.
  destruct (Regex.matches true Pipeline.RE_DECIMAL_UNIT _ _) as [e|] eqn:H; [|discriminate].
  intros E. injection E as <-.
  unfold Pipeline.RE_DECIMAL_UNIT in H. cbn [Regex.seq] in H.
  head_free H s1 G1. head_group H s2 v G2 Lv. head_free H s3 G3.
  head_group H s4 u G4 Lu. head_free H s5 G5. head_free H s6 G6.
  head_group H s7 t G7 Lrest.
  apply matches_sound in H; [|reflexivity].
  destruct H as (s8 & ? & H & G8 & _ & _). injection H as <-.
  cbn [lang Regex.opt] in Lv.
  destruct Lv as (i & w2 & -> & Li & Lw).
  exists (i ++ w2), u, t, i. split.
  - rewrite G8, G7, G6, G5, G4, G3, G2, G1. reflexivity.
  - split; [eapply lang_plus_digits; eassumption|].
    destruct Lw as [(w3 & f & -> & (c & -> & Hc) & Lf) | ->].
    + right. exists c, f.
      split; [|split; [eapply lang_plus_digits; eassumption | reflexivity]].
      apply orb_prop in Hc as [Hc|Hc]; apply N.eqb_eq in Hc; auto.
    + left. apply app_nil_r.
Qed.

End AmountPatterns.

(** ** Amounts *)

Section Amounts.
Context {U : Unicode} {DL : DigitLaws U}.

Lemma digit_not_separator c :
  is_digit c = true -> (c =? 46)%N = false /\ (c =? 44)%N = false.
Proof.
  unfold is_digit. intros H. split; apply N.eqb_neq; intros ->.
  - now rewrite stop_not_digit in H.
  - now rewrite comma_not_digit in H.
Qed.

Lemma all_digits_inv w :
  PyDecimal.all_digits w = true -> w <> [] /\ forallb is_digit w = true.
Proof.
  unfold PyDecimal.all_digits. intros H. apply andb_prop in H as [H1 H2].
  split; [destruct w; [discriminate|congruence] | assumption].
Qed.

Lemma replace_comma_digits w :
  forallb is_digit w = true -> replace_char 44%N 46%N w = w.
Proof.
  induction w as [|c w IH]; simpl; [reflexivity|].
  intros H. apply andb_prop in H as [Hc Hw].
  destruct (digit_not_separator _ Hc) as [_ ->]. now rewrite IH.
Qed.

Lemma digits_no_stop w :
  forallb is_digit w = true -> forallb (fun c => negb (c =? 46)%N) w = true.
Proof.
  intros H. apply forallb_forall. intros c Hc. rewrite forallb_forall in H.
  destruct (digit_not_separator _ (H c Hc)) as [-> _]. reflexivity.
Qed.

Lemma of_str_integer i :
  PyDecimal.all_digits i = true ->
  PyDecimal.of_str i = Some (mkDecimal (PyDecimal.int_of_digits i) 0).
Proof.
  intros Hi. destruct (all_digits_inv _ Hi) as [_ Hd].
  unfold PyDecimal.of_str. rewrite <- (app_nil_r i) at 1.
  rewrite fields_app by now apply digits_no_stop.
  cbn [fields]. rewrite app_nil_r. now rewrite Hi.
Qed.

Lemma of_str_fraction i f :
  PyDecimal.all_digits i = true -> PyDecimal.all_digits f = true ->
  PyDecimal.of_str (i ++ 46%N :: f)
  = Some (mkDecimal (PyDecimal.int_of_digits (i ++ f)) (- Z.of_nat (length f))).
Proof.
  intros Hi Hf. destruct (all_digits_inv _ Hi) as [_ Hdi].
  destruct (all_digits_inv _ Hf) as [_ Hdf].
  unfold PyDecimal.of_str.
  rewrite fields_app by now apply digits_no_stop.
  cbn [fields N.eqb Pos.eqb]. rewrite app_nil_r.
  rewrite <- (app_nil_r f) at 1.
  rewrite fields_app by now apply digits_no_stop.
  cbn [fields]. rewrite app_nil_r. now rewrite Hi, Hf.
Qed.

Lemma int_of_digits_from w acc :
  fold_left (fun acc c => (acc * 10 + Z.of_N (match decimal c with Some v => v | None => 0 end))%Z)
    w acc
  = (acc * 10 ^ Z.of_nat (length w) + PyDecimal.int_of_digits w)%Z.
Proof.
  unfold PyDecimal.int_of_digits. revert acc.
  induction w as [|c w IH]; intros acc; cbn [fold_left length].
  - simpl. lia.
  - rewrite IH. rewrite (IH (0 * 10 + _)%Z).
    rewrite Nat2Z.inj_succ, Z.pow_succ_r by lia. ring.
Qed.

Lemma int_of_digits_app i f :
  PyDecimal.int_of_digits (i ++ f)
  = (PyDecimal.int_of_digits i * 10 ^ Z.of_nat (length f) + PyDecimal.int_of_digits f)%Z.
Proof.
  unfold PyDecimal.int_of_digits at 1. rewrite fold_left_app.
  now rewrite int_of_digits_from.
Qed.

Lemma int_of_digits_nonneg w : (0 <= PyDecimal.int_of_digits w)%Z.
Proof.
  induction w as [|c w IH] using rev_ind; [unfold PyDecimal.int_of_digits; simpl; lia|].
  rewrite int_of_digits_app. cbn [length].
  assert (0 <= PyDecimal.int_of_digits [c])%Z
    by (unfold PyDecimal.int_of_digits; simpl; lia).
  nia.
Qed.

(** A decimal numeral denotes the number written: the digits of [i] then of
    [f], with [length f] of them after the separator. *)
Lemma Decimal_value_written q n :
  Decimal_value (mkDecimal q (- Z.of_nat n)) == inject_Z q / inject_Z (10 ^ Z.of_nat n).
Proof.
  assert (Hp : (0 < 10 ^ Z.of_nat n)%Z) by (apply Z.pow_pos_nonneg; lia).
  apply Decimal_value_nonpos; [lia | lia |].
  rewrite Z.opp_involutive. ring.
Qed.

Lemma parse_decimal_integer i :
  PyDecimal.all_digits i = true ->
  Pipeline.parse_decimal i = Some (mkDecimal (PyDecimal.int_of_digits i) 0).
Proof.
  intros Hi. destruct (all_digits_inv _ Hi) as [_ Hd].
  unfold Pipeline.parse_decimal. rewrite replace_comma_digits by exact Hd.
  now apply of_str_integer.
Qed.

Lemma parse_decimal_fraction i c f :
  PyDecimal.all_digits i = true -> c = 46%N \/ c = 44%N ->
  PyDecimal.all_digits f = true ->
  Pipeline.parse_decimal (i ++ c :: f)
  = Some (mkDecimal (PyDecimal.int_of_digits (i ++ f)) (- Z.of_nat (length f))).
Proof.
  intros Hi Hc Hf. destruct (all_digits_inv _ Hi) as [_ Hdi].
  destruct (all_digits_inv _ Hf) as [_ Hdf].
  unfold Pipeline.parse_decimal.
  assert (E : replace_char 44%N 46%N (i ++ c :: f) = i ++ 46%N :: f).
  { transitivity (replace_char 44%N 46%N i ++ 46%N :: replace_char 44%N 46%N f).
    - unfold replace_char. rewrite map_app.
      destruct Hc as [-> | ->]; reflexivity.
    - now rewrite !replace_comma_digits by assumption. }
  rewrite E. now apply of_str_fraction.
Qed.

End Amounts.

Lemma latinvn_digit_laws : DigitLaws LatinVN.unicode.
Proof. split; reflexivity. Qed.

(* ================================================================== *)
(** * Further properties of the code *)
(* ================================================================== *)

(** ** The alphabet of the normalized keys *)

(** X1: whatever the Unicode library does, the output of
    [normalize_alias_norm] and the output of [norm_text] are lists of
    non-empty words of the characters [a-z0-9] joined by single spaces: no
    other character, no space at either end, no two spaces in a row. *)
Theorem alias_norm_token_string (U : Unicode) (x : str) :
  (let out := Pipeline.normalize_alias_norm x in
   tokens_ok (split out) /\ join [SPACE] (split out) = out)
  /\ (let out := FillKeyNorm.norm_text x in
      tokens_ok (split out) /\ join [SPACE] (split out) = out).
Proof.
  split; cbv zeta.
  - rewrite normalize_alias_norm_squeeze.
    split; [apply split_squeeze_tokens | apply join_split_squeeze].
  - destruct x as [|c r]; [split; [constructor|reflexivity]|].
    rewrite norm_text_squeeze by discriminate.
    split; [apply split_squeeze_tokens | apply join_split_squeeze].
Qed.

Lemma normalize_key_tokens_kept ts :
  Forall (fun t => mem t Phase2.STOPWORDS = false /\ dict_get Phase2.ABBREV_MAP t t = t)
    (Phase2.normalize_key_tokens ts).
Proof.
  induction ts as [|t r IH]; [constructor|].
  cbn [Phase2.normalize_key_tokens].
  destruct (negb (truthy (dict_get Phase2.ABBREV_MAP t t))
            || mem (dict_get Phase2.ABBREV_MAP t t) Phase2.STOPWORDS) eqn:E; [exact IH|].
  constructor; [|exact IH]. split.
  - apply orb_false_iff in E. tauto.
  - now apply abbrev_fixed.
Qed.

(** X2: the output of [normalize_key] is such a list of words too, and
    none of its words is a stop word or an abbreviation that
    [ABBREV_MAP] would still change. *)
Theorem normalize_key_token_string (U : Unicode) (x : str) :
  let out := Phase2.normalize_key x in
  tokens_ok (split out) /\ join [SPACE] (split out) = out
  /\ Forall (fun t => mem t Phase2.STOPWORDS = false /\ dict_get Phase2.ABBREV_MAP t t = t)
       (split out).
Proof.
  cbv zeta. rewrite normalize_key_squeeze.
  set (ts := Phase2.normalize_key_tokens _).
  assert (Hts : tokens_ok ts) by apply normalize_key_tokens_ok, split_squeeze_tokens.
  rewrite (split_join Hts). repeat split; [exact Hts|].
  apply normalize_key_tokens_kept.
Qed.

(** X3: the backfill normalizer [norm_text] is idempotent, for a Unicode
    library that leaves strings of lower-case ASCII letters, digits and
    spaces alone. *)
Theorem norm_text_idempotent (U : Unicode) (L : UnicodeLaws U) (x : str) :
  FillKeyNorm.norm_text (FillKeyNorm.norm_text x) = FillKeyNorm.norm_text x.
Proof.
  destruct x as [|c r]; [reflexivity|].
  rewrite (norm_text_squeeze (s := c :: r)) by discriminate.
  set (u := filter _ _).
  destruct (squeeze not_az09 u) as [|d y] eqn:E; [reflexivity|].
  rewrite norm_text_squeeze by discriminate. rewrite <- E.
  rewrite (lower_plain _ (squeeze_plain u)), (NFD_plain _ (squeeze_plain u)).
  rewrite (filter_Mn_plain _ (squeeze_plain u)).
  apply squeeze_fixed, space_not_az09.
Qed.

Lemma norm_text_idempotent_witness :
  FillKeyNorm.norm_text (U := LatinVN.unicode)
    (FillKeyNorm.norm_text (U := LatinVN.unicode) (py "Bột  chiên-giòn"))
  = FillKeyNorm.norm_text (U := LatinVN.unicode) (py "Bột  chiên-giòn").
Proof. apply (@norm_text_idempotent LatinVN.unicode latinvn_laws). Defined.

(** ** Slugs *)

Lemma az09_not_hyphen_space c : is_az09 c = true -> (c =? 32)%N = false /\ (c =? 45)%N = false.
Proof.
  unfold is_az09. intros H. rewrite !N.eqb_neq. bool_N; lia.
Qed.

Lemma sub_runs_hyphen f u :
  sub_runs_from not_az09 [45%N] f u = replace_char 32%N 45%N (sub_runs_from not_az09 [SPACE] f u).
Proof.
  unfold replace_char. revert f. induction u as [|c r IH]; intros f; [reflexivity|].
  cbn [sub_runs_from]. destruct (not_az09 c) eqn:A.
  - rewrite map_app, IH. now destruct f.
  - cbn [map]. unfold not_az09 in A. apply negb_false_iff in A.
    destruct (az09_not_hyphen_space _ A) as [-> _]. now rewrite IH.
Qed.

Lemma lstrip_hyphen s :
  Forall (fun c => c = SPACE \/ not_az09 c = false) s ->
  lstrip_by (fun c => (c =? 45)%N) (replace_char 32%N 45%N s)
  = replace_char 32%N 45%N (lstrip_by isspace s).
Proof.
  unfold replace_char. induction 1 as [|c r Hc Hr IH]; [reflexivity|].
  cbn [map lstrip_by]. destruct Hc as [->|Hc].
  - cbn. exact IH.
  - unfold not_az09 in Hc. apply negb_false_iff in Hc.
    destruct (az09_not_hyphen_space _ Hc) as [E1 E2].
    rewrite E1, E2, (az09_not_space _ Hc). cbn [map]. now rewrite E1.
Qed.

Lemma rstrip_hyphen s :
  Forall (fun c => c = SPACE \/ not_az09 c = false) s ->
  rstrip_by (fun c => (c =? 45)%N) (replace_char 32%N 45%N s)
  = replace_char 32%N 45%N (rstrip_by isspace s).
Proof.
  unfold replace_char. induction 1 as [|c r Hc Hr IH]; [reflexivity|].
  cbn [map rstrip_by]. rewrite IH.
  destruct (rstrip_by isspace r) as [|x r'] eqn:E; cbn [map].
  - destruct Hc as [->|Hc]; [reflexivity|].
    unfold not_az09 in Hc. apply negb_false_iff in Hc.
    destruct (az09_not_hyphen_space _ Hc) as [E1 E2].
    rewrite E1, E2, (az09_not_space _ Hc). cbn [map]. now rewrite E1.
  - reflexivity.
Qed.

Lemma lstrip_by_Forall (P : char -> Prop) q s : Forall P s -> Forall P (lstrip_by q s).
Proof.
  induction 1 as [|c r Hc Hr IH]; cbn [lstrip_by]; [constructor|].
  destruct (q c); auto.
Qed.

Lemma slugify_alias_norm {U : Unicode} name :
  Pipeline.slugify name
  = if truthy (Pipeline.normalize_alias_norm name)
    then replace_char 32%N 45%N (Pipeline.normalize_alias_norm name)
    else py "recipe".
Proof.
  rewrite normalize_alias_norm_squeeze. unfold Pipeline.slugify.
  set (u := Pipeline.remove_accents (str_lower name)).
  change (sub_runs (fun c => negb (is_az09 c)) (py "-") u)
    with (sub_runs_from not_az09 [45%N] false u).
  rewrite sub_runs_hyphen. unfold strip_by.
  rewrite lstrip_hyphen by apply sub_runs_from_chars.
  rewrite rstrip_hyphen by apply lstrip_by_Forall, sub_runs_from_chars.
  rewrite (@lstrip_sub_runs not_az09 space_not_az09).
  change (rstrip_by isspace (sub_runs_from not_az09 [SPACE] true u)) with (squeeze not_az09 u).
  destruct (squeeze not_az09 u); reflexivity.
Qed.

(** X4: the slug of a name is its alias norm with every space turned
    into a hyphen, or [recipe] when the alias norm is empty; it is never
    empty and holds only the characters [a-z0-9] and the hyphen. *)
Theorem slugify_shape (U : Unicode) (name : str) :
  let n := Pipeline.normalize_alias_norm name in
  Pipeline.slugify name = (if truthy n then replace_char 32%N 45%N n else py "recipe")
  /\ Pipeline.slugify name <> []
  /\ Forall (fun c => is_az09 c = true \/ c = 45%N) (Pipeline.slugify name).
Proof.
  cbv zeta. rewrite slugify_alias_norm. split; [reflexivity|].
  rewrite normalize_alias_norm_squeeze.
  set (u := Pipeline.remove_accents (str_lower name)).
  pose proof (squeeze_chars not_az09 u) as H.
  destruct (squeeze not_az09 u) as [|c r] eqn:E.
  - split; [discriminate|]. cbn [truthy].
    apply Forall_forall. intros c Hc. left.
    vm_compute in Hc. repeat (destruct Hc as [<-|Hc]; [reflexivity|]). contradiction.
  - cbn [truthy]. split; [discriminate|].
    unfold replace_char. apply Forall_forall. intros d Hd.
    apply in_map_iff in Hd as (x & <- & Hx).
    rewrite Forall_forall in H. destruct (H x Hx) as [->|Hn]; [right; reflexivity|].
    unfold not_az09 in Hn. apply negb_false_iff in Hn.
    destruct (az09_not_hyphen_space _ Hn) as [-> _]. now left.
Qed.

(** ** Whitespace normalisation *)

Lemma normalize_spaces_squeeze {U : Unicode} s :
  Pipeline.normalize_spaces s = squeeze isspace s.
Proof.
  unfold Pipeline.normalize_spaces. apply strip_sub_runs. auto.
Qed.

Lemma normalize_spaces_idempotent {U : Unicode} s :
  Pipeline.normalize_spaces (Pipeline.normalize_spaces s) = Pipeline.normalize_spaces s.
Proof. rewrite !normalize_spaces_squeeze. apply squeeze_fixed. auto. Qed.

Lemma normalize_spaces_chars {U : Unicode} (P : char -> Prop) s :
  P SPACE -> Forall P s -> Forall P (Pipeline.normalize_spaces s).
Proof.
  intros HP H. rewrite normalize_spaces_squeeze. unfold squeeze.
  apply rstrip_by_Forall. now apply sub_runs_from_Forall.
Qed.

Lemma no_comma_Forall s :
  existsb (fun c => (c =? 44)%N) s = false <-> Forall (fun c => c <> 44%N) s.
Proof.
  induction s as [|c r IH]; cbn [existsb]; [split; [constructor|reflexivity]|].
  rewrite orb_false_iff, IH, N.eqb_neq. split.
  - intros [? ?]. now constructor.
  - inversion 1; auto.
Qed.

(** X5: no part returned by [split_combo] contains a comma; and either
    the text is returned as it is, as the only part, or every part is
    non-empty and whitespace-normalized.  (A comma written as a decimal
    separator is therefore never seen by [parse_amount_unit_minimal].) *)
Theorem split_combo_parts (U : Unicode) (text_main : str) :
  Forall (fun p => existsb (fun c => (c =? 44)%N) p = false) (Pipeline.split_combo text_main)
  /\ (Pipeline.split_combo text_main = [text_main]
      \/ Forall (fun p => p <> [] /\ Pipeline.normalize_spaces p = p)
           (Pipeline.split_combo text_main)).
Proof.
  unfold Pipeline.split_combo.
  destruct (existsb (fun c => (c =? 44)%N) text_main) eqn:E; cbn [negb].
  - split; [|right]; apply Forall_forall; intros p Hp;
      apply filter_In in Hp as [Hp Ht]; apply in_map_iff in Hp as (f & <- & Hf).
    + apply no_comma_Forall. apply normalize_spaces_chars; [discriminate|].
      assert (H : Forall (fun _ : char => True) text_main) by (apply Forall_forall; auto).
      apply (fields_Forall (fun c => (c =? 44)%N)) in H.
      rewrite Forall_forall in H. specialize (H f Hf).
      eapply Forall_impl; [|exact H]. cbv beta. intros c [_ Hc]. now apply N.eqb_neq.
    + split; [destruct (Pipeline.normalize_spaces f); [discriminate Ht|discriminate]|].
      apply normalize_spaces_idempotent.
  - split; [|now left]. constructor; [exact E|constructor].
Qed.

(** ** The items of the parser *)

Section ParserProps.
Context {U : Unicode}.

Lemma add_phrases_truthy phrases note_parts :
  Forall (fun p => truthy p = true) note_parts ->
  Forall (fun p => truthy p = true) (Pipeline.add_phrases phrases note_parts).
Proof.
  revert note_parts. induction phrases as [|ph r IH]; intros np H; [exact H|].
  cbn [Pipeline.add_phrases].
  destruct (truthy (Pipeline.normalize_spaces ph)) eqn:T; cbn [andb]; [|now apply IH].
  destruct (negb (mem _ np)); apply IH; [|exact H].
  apply Forall_app. split; [exact H|]. constructor; [exact T|constructor].
Qed.

Lemma add_phrases_grows phrases note_parts :
  note_parts <> [] -> Pipeline.add_phrases phrases note_parts <> [].
Proof.
  revert note_parts. induction phrases as [|ph r IH]; intros np H; [exact H|].
  cbn [Pipeline.add_phrases].
  destruct (truthy _ && negb _); apply IH; [|exact H].
  destruct np; discriminate.
Qed.

Lemma join_truthy sep l :
  l <> [] -> Forall (fun p => truthy p = true) l -> join sep l <> [].
Proof.
  intros Hne H. destruct H as [|x r Hx Hr]; [congruence|].
  destruct x as [|c x]; [discriminate|]. destruct r; discriminate.
Qed.

Lemma filter_truthy_all l :
  Forall (fun p => truthy p = true) l -> filter truthy l = l.
Proof.
  induction 1 as [|x r Hx Hr IH]; [reflexivity|]. cbn [filter]. now rewrite Hx, IH.
Qed.

Lemma extract_note_not_empty rest note0 :
  snd (Pipeline.extract_key_and_note rest note0) <> Some [].
Proof.
  unfold Pipeline.extract_key_and_note.
  set (s := Pipeline.normalize_spaces rest).
  set (np0 := match note0 with Some n => if truthy n then [n] else [] | None => [] end).
  assert (H0 : Forall (fun p => truthy p = true) np0).
  { unfold np0. destruct note0 as [n|]; [|constructor].
    destruct (truthy n) eqn:T; repeat constructor. exact T. }
  set (phrases := Regex.re_findall true Pipeline.RE_NOTE_PHRASES (py "1") s).
  set (st1 := match phrases with
              | _ :: _ => (Pipeline.add_phrases phrases np0, _)
              | [] => (np0, s)
              end).
  assert (H1 : Forall (fun p => truthy p = true) (fst st1)).
  { unfold st1. destruct phrases; [exact H0|]. cbn [fst]. now apply add_phrases_truthy. }
  destruct st1 as [np1 s1]. cbn [fst] in H1.
  set (st2 := match Regex.re_match true Pipeline.RE_SUFFIX_MOD s1 with
              | Some m => _
              | None => (np1, s1)
              end).
  assert (H2 : Forall (fun p => truthy p = true) (fst st2)).
  { unfold st2. destruct (Regex.re_match true Pipeline.RE_SUFFIX_MOD s1); [|exact H1].
    cbn [fst]. destruct (truthy (Pipeline.normalize_spaces _)) eqn:T; [|exact H1].
    apply Forall_app. split; [exact H1|]. constructor; [exact T|constructor]. }
  destruct st2 as [np2 s2]. cbn [fst snd] in *.
  destruct np2 as [|p np2]; [discriminate|].
  rewrite filter_truthy_all by exact H2.
  intros E. injection E as E.
  apply (@join_truthy (py "; ") (p :: np2)); [discriminate | exact H2 | exact E].
Qed.

Lemma infer_role_values raw note is_combo :
  Pipeline.infer_role raw note is_combo = py "core"
  \/ Pipeline.infer_role raw note is_combo = py "optional".
Proof.
  unfold Pipeline.infer_role.
  destruct is_combo; [now right|].
  destruct (Regex.re_search _ _ _); [now right|].
  destruct note as [n|]; [destruct (truthy n && _)|]; auto.
Qed.

Lemma flat_map_option_length {A B : Type} (f : A -> option B) l :
  (length (flat_map (fun x => match f x with Some y => [y] | None => [] end) l) <= length l)%nat.
Proof.
  induction l as [|x r IH]; cbn [flat_map]; [auto|].
  rewrite length_app. destruct (f x); cbn [length]; lia.
Qed.

(** The literal alternatives of a pattern. *)
Lemma lang_lit ic l w : lang ic (Regex.lit l) w -> length w = length l.
Proof.
  unfold Regex.lit. revert w. induction l as [|c l IH]; intros w; cbn [map Regex.seq lang].
  - now intros ->.
  - destruct l as [|c' l'].
    + cbn [map lang]. now intros (x & -> & _).
    + cbn [map] in *. cbn [lang]. intros (w1 & w2 & -> & (x & -> & _) & H2).
      cbn [app length]. f_equal. now apply IH.
Qed.

Lemma lang_alt ic r rs w :
  lang ic (Regex.alt r rs) w -> exists r', In r' (r :: rs) /\ lang ic r' w.
Proof.
  revert r. induction rs as [|r2 rs IH]; intros r; cbn [Regex.alt lang].
  - intros H. exists r. split; [now left|exact H].
  - intros [H|H]; [exists r; split; [now left|exact H]|].
    destruct (IH _ H) as (r' & Hin & L). exists r'. split; [now right|exact L].
Qed.

Lemma lang_unit ic w : lang ic Pipeline.UNIT_PATTERN w -> w <> [].
Proof.
  unfold Pipeline.UNIT_PATTERN. intros H.
  apply lang_alt in H as (r' & Hin & L).
  change (Regex.lit (py "kg") :: map Regex.lit (map py ?l))
    with (map Regex.lit (map py ("kg"%string :: l))) in Hin.
  apply in_map_iff in Hin as (l & <- & Hl).
  apply lang_lit in L.
  assert (Hne : l <> []).
  { clear L. revert l Hl. apply Forall_forall. cbn [map]. repeat constructor; discriminate. }
  destruct w; [|discriminate]. destruct l; [congruence|discriminate].
Qed.

End ParserProps.

Ltac step_free H s' G :=
  rewrite matches_seq in H;
  apply matches_sound in H; [|reflexivity];
  destruct H as (s' & ? & H & G & _ & _).

Ltac step_group H s' w G L :=
  rewrite matches_seq in H;
  apply matches_group_sound in H; [|reflexivity];
  destruct H as (s' & w & H & G & _ & L).

Section UnitGroup.
Context {U : Unicode}.

Lemma fraction_unit_group s m :
  Regex.re_match true Pipeline.RE_FRACTION_UNIT s = Some m ->
  exists u, Regex.group (py "unit") m = Some u /\ u <> [].
Proof.
  unfold Regex.re_match, Regex.match_at.
  destruct (Regex.matches true Pipeline.RE_FRACTION_UNIT _ _) as [e|] eqn:H; [|discriminate].
  intros E. injection E as <-.
  unfold Pipeline.RE_FRACTION_UNIT in H. cbn [Regex.seq] in H.
  step_free H s1 G1. step_group H s2 a G2 La. step_free H s3 G3. step_free H s4 G4.
  step_free H s5 G5. step_group H s6 b G6 Lb. step_free H s7 G7.
  step_group H s8 u G8 Lu. step_free H s9 G9. step_free H s10 G10.
  step_group H s11 t G11 Lrest.
  apply matches_sound in H; [|reflexivity].
  destruct H as (s12 & ? & H & G12 & _ & _). injection H as <-.
  exists u. split; [|eapply lang_unit; eassumption].
  rewrite G12, G11, G10, G9, G8. reflexivity.
Qed.

Lemma decimal_unit_group s m :
  Regex.re_match true Pipeline.RE_DECIMAL_UNIT s = Some m ->
  exists u, Regex.group (py "unit") m = Some u /\ u <> [].
Proof.
  unfold Regex.re_match, Regex.match_at.
  destruct (Regex.matches true Pipeline.RE_DECIMAL_UNIT _ _) as [e|] eqn:H; [|discriminate].
  intros E. injection E as <-.
  unfold Pipeline.RE_DECIMAL_UNIT in H. cbn [Regex.seq] in H.
  step_free H s1 G1. step_group H s2 v G2 Lv. step_free H s3 G3.
  step_group H s4 u G4 Lu. step_free H s5 G5. step_free H s6 G6.
  step_group H s7 t G7 Lrest.
  apply matches_sound in H; [|reflexivity].
  destruct H as (s8 & ? & H & G8 & _ & _). injection H as <-.
  exists u. split; [|eapply lang_unit; eassumption].
  rewrite G8, G7, G6, G5, G4. reflexivity.
Qed.

Lemma normalize_unit_some u : u <> [] -> Pipeline.normalize_unit u <> None.
Proof. unfold Pipeline.normalize_unit. destruct u; [congruence|discriminate]. Qed.

(** An amount comes with a unit. *)
Lemma amount_has_unit part :
  fst (fst (Pipeline.parse_amount_unit_minimal part)) <> None ->
  snd (fst (Pipeline.parse_amount_unit_minimal part)) <> None.
Proof.
  unfold Pipeline.parse_amount_unit_minimal, Pipeline.group_text.
  destruct (Regex.re_match true Pipeline.RE_FRACTION_UNIT (strip part)) as [m|] eqn:F.
  - destruct (fraction_unit_group _ F) as (u & -> & Hu). cbn [fst snd]. intros _.
    now apply normalize_unit_some.
  - destruct (Regex.re_match true Pipeline.RE_DECIMAL_UNIT (strip part)) as [m|] eqn:D.
    + destruct (decimal_unit_group _ D) as (u & -> & Hu). cbn [fst snd]. intros _.
      now apply normalize_unit_some.
    + cbn [fst snd]. congruence.
Qed.

Lemma parse_part_shape raw_text note0 is_combo part item :
  Pipeline.parse_part raw_text note0 is_combo part = Some item ->
  Pipeline.role item = Pipeline.infer_role raw_text (Pipeline.note item) is_combo
  /\ Pipeline.note item <> Some []
  /\ (Pipeline.amount item <> None -> Pipeline.unit item <> None)
  /\ Pipeline.alias_norm item = Pipeline.normalize_alias_norm (Pipeline.key item).
Proof.
  unfold Pipeline.parse_part.
  destruct (negb (truthy part)); [discriminate|].
  pose proof (amount_has_unit part) as Hau.
  destruct (Pipeline.parse_amount_unit_minimal part) as [[amount unit] rest].
  pose proof (extract_note_not_empty rest note0) as Hn.
  destruct (Pipeline.extract_key_and_note rest note0) as [key note].
  destruct (negb (truthy key)); [discriminate|].
  destruct (existsb is_digit key); [discriminate|].
  intros E. injection E as <-. cbn [fst snd] in *.
  cbn [Pipeline.role Pipeline.note Pipeline.amount Pipeline.unit Pipeline.alias_norm Pipeline.key].
  auto.
Qed.

End UnitGroup.

(** X6: every item returned by [parse_ingredient_text_phase1] has the
    role [core] or [optional], a note that is absent or not empty, a unit
    whenever it has an amount, and the alias norm of its key; and when the
    line yields two items or more, all of them are [optional]. *)
Theorem parsed_items_shape (U : Unicode) (raw_text : str) :
  let items := Pipeline.parse_ingredient_text_phase1 raw_text in
  Forall (fun it =>
            (Pipeline.role it = py "core" \/ Pipeline.role it = py "optional")
            /\ Pipeline.note it <> Some []
            /\ (Pipeline.amount it <> None -> Pipeline.unit it <> None)
            /\ Pipeline.alias_norm it = Pipeline.normalize_alias_norm (Pipeline.key it))
    items
  /\ ((length items <= 1)%nat \/ Forall (fun it => Pipeline.role it = py "optional") items).
Proof.
  cbv zeta. unfold Pipeline.parse_ingredient_text_phase1.
  destruct (Pipeline.preclean_extract_parentheses raw_text) as [text_main note0].
  set (parts := Pipeline.split_combo text_main).
  assert (Hitem : forall is_combo it,
             In it (flat_map (fun part =>
                                match Pipeline.parse_part raw_text note0 is_combo part with
                                | Some p => [p]
                                | None => []
                                end) parts) ->
             exists part, Pipeline.parse_part raw_text note0 is_combo part = Some it).
  { intros is_combo it H. apply in_flat_map in H as (part & _ & H). exists part.
    destruct (Pipeline.parse_part raw_text note0 is_combo part); [|contradiction].
    destruct H as [->|[]]. reflexivity. }
  split.
  - apply Forall_forall. intros it H. apply Hitem in H as (part & H).
    apply parse_part_shape in H as (Hr & Hn & Ha & Hk).
    split; [rewrite Hr; apply infer_role_values | auto].
  - destruct (1 <? length parts)%nat eqn:E.
    + right. apply Forall_forall. intros it H. apply Hitem in H as (part & H).
      apply parse_part_shape in H as (Hr & _). rewrite Hr. reflexivity.
    + left. apply Nat.ltb_ge in E.
      etransitivity; [apply (flat_map_option_length (Pipeline.parse_part raw_text note0 false))|].
      exact E.
Qed.

(** ** Lines without text *)

Lemma rep_greedy_all lo p k count bef aft g res :
  forallb p aft = true -> (lo <= count + length aft)%nat ->
  k {| Regex.before := rev aft ++ bef; Regex.after := []; Regex.groups := g |} = Some res ->
  Regex.rep true lo None p k count bef aft g = Some res.
Proof.
  revert count bef. induction aft as [|x r IH]; intros count bef Hp Hlo Hk.
  - cbn [Regex.rep]. cbn [length] in Hlo. rewrite Nat.add_0_r in Hlo.
    apply Nat.leb_le in Hlo. now rewrite Hlo.
  - cbn [forallb] in Hp. apply andb_prop in Hp as [Hx Hr].
    cbn [Regex.rep]. rewrite Hx. cbn [Regex.below andb].
    rewrite (IH (S count) (x :: bef) Hr); [reflexivity | cbn [length] in Hlo; lia |].
    cbn [rev] in Hk. now rewrite <- app_assoc in Hk.
Qed.

Lemma sub_bullets {U : Unicode} s :
  forallb Pipeline.bullet s = true -> Regex.re_sub false Pipeline.RE_BULLET [] s = [].
Proof.
  intros H. destruct s as [|x r]; [reflexivity|].
  unfold Regex.re_sub, Regex.scan_all.
  change (length (x :: r)) with (S (length r)).
  cbn [Regex.scan].
  assert (E : Regex.match_at false Pipeline.RE_BULLET
                {| Regex.before := []; Regex.after := x :: r; Regex.groups := [] |}
              = Some {| Regex.before := rev (x :: r); Regex.after := []; Regex.groups := [] |}).
  { unfold Regex.match_at, Pipeline.RE_BULLET. cbn [Regex.seq Regex.matches Regex.before].
    unfold Regex.plus. cbn [Regex.matches Regex.before Regex.after Regex.groups].
    apply rep_greedy_all; [exact H | cbn [length]; lia | now rewrite app_nil_r]. }
  rewrite E. cbn [Regex.after Regex.before length Nat.sub Nat.eqb].
  assert (E2 : Regex.match_at false Pipeline.RE_BULLET
                 {| Regex.before := rev (x :: r); Regex.after := []; Regex.groups := [] |}
               = None).
  { unfold Regex.match_at, Pipeline.RE_BULLET. cbn [Regex.seq Regex.matches Regex.before].
    destruct (rev (x :: r)) eqn:R; [|reflexivity].
    cbn [rev] in R. symmetry in R. now apply app_cons_not_nil in R. }
  rewrite E2. reflexivity.
Qed.

(** X7: a line made only of whitespace and bullet characters yields no
    ingredient. *)
Theorem bullets_only_no_item (U : Unicode) (raw : str) :
  forallb Pipeline.bullet raw = true -> Pipeline.parse_ingredient_text_phase1 raw = [].
Proof.
  intros H. unfold Pipeline.parse_ingredient_text_phase1, Pipeline.preclean_extract_parentheses.
  rewrite sub_bullets; [reflexivity|].
  apply forallb_forall. apply Forall_forall.
  unfold strip, strip_by. apply rstrip_by_Forall, lstrip_by_Forall.
  apply Forall_forall. now apply forallb_forall.
Qed.

Lemma bullets_only_no_item_witness :
  Pipeline.parse_ingredient_text_phase1 (U := LatinVN.unicode) (py " - • * ") = [].
Proof. apply (@bullets_only_no_item LatinVN.unicode (py " - • * ")). reflexivity. Defined.

(** ** Short notes *)

(** X8: [shorten] with a limit [n >= 1] returns a text of at most [n]
    characters, and returns [None] only for a missing or empty text. *)
Theorem shorten_bound (U : Unicode) (text : option str) (m : nat) :
  match Pipeline.shorten text (S m) with
  | Some t => (length t <= S m)%nat
  | None => text = None \/ text = Some []
  end.
Proof.
  unfold Pipeline.shorten. destruct text as [text|]; [|now left].
  destruct text as [|c r]; [now right|]. cbn [truthy negb].
  set (t := Pipeline.normalize_spaces (c :: r)).
  destruct (S m <? length t)%nat eqn:E.
  - apply Nat.ltb_lt in E. rewrite length_app, length_firstn.
    change (length (py "…")) with 1%nat. lia.
  - now apply Nat.ltb_ge in E.
Qed.

(** ** Merged notes *)

Section MergeNote.
Context {U : Unicode}.

Lemma uniq_parts_seen l seen :
  Forall (fun p => mem (str_lower p) seen = true) l -> Pipeline.uniq_parts l seen = [].
Proof.
  induction 1 as [|p r Hp Hr IH]; [reflexivity|].
  cbn [Pipeline.uniq_parts]. now rewrite Hp.
Qed.

Lemma uniq_parts_app_seen l1 l2 seen :
  Forall (fun p => In (str_lower p) (map str_lower l1 ++ seen)) l2 ->
  Pipeline.uniq_parts (l1 ++ l2) seen = Pipeline.uniq_parts l1 seen.
Proof.
  revert seen. induction l1 as [|p r IH]; intros seen H.
  - apply uniq_parts_seen. eapply Forall_impl; [|exact H].
    intros q Hq. now apply mem_In.
  - cbn [app Pipeline.uniq_parts].
    destruct (mem (str_lower p) seen) eqn:E.
    + apply IH. eapply Forall_impl; [|exact H]. cbv beta. intros q Hq.
      cbn [map app] in Hq. destruct Hq as [<-|Hq]; [|exact Hq].
      apply in_or_app. right. now apply mem_In.
    + f_equal. apply IH. eapply Forall_impl; [|exact H]. cbv beta. intros q Hq.
      cbn [map app] in Hq. apply in_or_app.
      destruct Hq as [<-|Hq]; [right; now left|].
      apply in_app_or in Hq as [Hq|Hq]; [now left | right; now right].
Qed.

Lemma uniq_parts_fresh l seen :
  NoDup (map str_lower (Pipeline.uniq_parts l seen))
  /\ Forall (fun p => ~ In (str_lower p) seen) (Pipeline.uniq_parts l seen).
Proof.
  revert seen. induction l as [|p r IH]; intros seen; [split; constructor|].
  cbn [Pipeline.uniq_parts].
  destruct (mem (str_lower p) seen) eqn:E; [apply IH|].
  destruct (IH (str_lower p :: seen)) as [IH1 IH2]. split.
  - cbn [map]. constructor; [|exact IH1].
    intros Hin. apply in_map_iff in Hin as (q & Hq & Hin).
    rewrite Forall_forall in IH2. apply (IH2 q Hin). now left.
  - constructor.
    + intros Hin. apply mem_In in Hin. congruence.
    + eapply Forall_impl; [|exact IH2]. cbv beta. intros q Hq Hin. apply Hq. now right.
Qed.

Lemma uniq_parts_covers l seen :
  Forall (fun p => In (str_lower p) (map str_lower (Pipeline.uniq_parts l seen) ++ seen)) l.
Proof.
  revert seen. induction l as [|p r IH]; intros seen; [constructor|].
  cbn [Pipeline.uniq_parts].
  destruct (mem (str_lower p) seen) eqn:E.
  - constructor; [|apply IH]. apply in_or_app. right. now apply mem_In.
  - constructor; [now left|].
    eapply Forall_impl; [|apply (IH (str_lower p :: seen))]. cbv beta. intros q Hq.
    cbn [map app]. apply in_app_or in Hq as [Hq|[<-|Hq]]; [right|now left|right];
      apply in_or_app; auto.
Qed.

Lemma uniq_parts_Forall (P : str -> Prop) l seen :
  Forall P l -> Forall P (Pipeline.uniq_parts l seen).
Proof.
  intros H. revert seen. induction H as [|p r Hp Hr IH]; intros seen; [constructor|].
  cbn [Pipeline.uniq_parts]. destruct (mem (str_lower p) seen); auto.
Qed.

Lemma note_parts_truthy x : Forall (fun p => truthy p = true) (Pipeline.note_parts x).
Proof.
  unfold Pipeline.note_parts. destruct x as [x|]; [|constructor].
  destruct (truthy x); [|constructor].
  apply Forall_forall. intros p Hp. now apply filter_In in Hp.
Qed.

End MergeNote.

(** X9: in [merge_note] the parts kept are pairwise different up to
    case, every part of either note is among them up to case, merging a
    note with itself is merging it with nothing, and the result has at most
    [max_len] characters; it is [None] only when there is no part. *)
Theorem merge_note_unique (U : Unicode) (a b : option str) (max_len : nat) :
  let parts := Pipeline.note_parts a ++ Pipeline.note_parts b in
  let uniq := Pipeline.uniq_parts parts [] in
  Pipeline.merge_note a a max_len = Pipeline.merge_note a None max_len
  /\ NoDup (map str_lower uniq)
  /\ Forall (fun p => In (str_lower p) (map str_lower uniq)) parts
  /\ match Pipeline.merge_note a b max_len with
     | Some out => (length out <= max_len)%nat
     | None => uniq = []
     end.
Proof.
  cbv zeta. repeat split.
  - unfold Pipeline.merge_note. cbn [Pipeline.note_parts].
    rewrite uniq_parts_app_seen, app_nil_r; [reflexivity|].
    rewrite app_nil_r. apply Forall_forall. intros p Hp. now apply in_map.
  - apply uniq_parts_fresh.
  - eapply Forall_impl; [|apply uniq_parts_covers]. cbv beta. intros p Hp.
    now rewrite app_nil_r in Hp.
  - unfold Pipeline.merge_note.
    set (uniq := Pipeline.uniq_parts _ []).
    destruct (join (py "; ") uniq) as [|c out] eqn:E; cbn [truthy negb].
    + destruct uniq as [|p r] eqn:Eu; [reflexivity|]. exfalso.
      apply (@join_truthy (py "; ") (p :: r)); [discriminate | | exact E].
      rewrite <- Eu. unfold uniq. apply uniq_parts_Forall.
      apply Forall_app. split; apply note_parts_truthy.
    + rewrite length_firstn. lia.
Qed.

(** ** Merging a merged note again *)

Lemma lstrip_by_idem q s : lstrip_by q (lstrip_by q s) = lstrip_by q s.
Proof.
  induction s as [|c r IH]; [reflexivity|]. cbn [lstrip_by].
  destruct (q c) eqn:E; [exact IH|]. cbn [lstrip_by]. now rewrite E.
Qed.

Lemma lstrip_by_fixed q s : lstrip_by q s = s <-> match s with c :: _ => q c = false | [] => True end.
Proof.
  destruct s as [|c r]; [tauto|]. cbn [lstrip_by]. destruct (q c) eqn:E.
  - split; [|discriminate]. intros H.
    assert (L : (length (lstrip_by q r) <= length r)%nat).
    { clear. induction r as [|x r IH]; cbn [lstrip_by length]; [lia|].
      destruct (q x); cbn [length]; lia. }
    rewrite H in L. cbn [length] in L. lia.
  - tauto.
Qed.

Lemma rstrip_by_head q c r :
  q c = false -> exists r', rstrip_by q (c :: r) = c :: r'.
Proof.
  intros H. cbn [rstrip_by]. destruct (rstrip_by q r); [rewrite H|]; eauto.
Qed.

Lemma strip_by_idem q s : strip_by q (strip_by q s) = strip_by q s.
Proof.
  unfold strip_by. set (t := lstrip_by q s).
  assert (Ht : lstrip_by q t = t) by apply lstrip_by_idem.
  assert (H : lstrip_by q (rstrip_by q t) = rstrip_by q t).
  { apply lstrip_by_fixed. apply lstrip_by_fixed in Ht.
    destruct t as [|c r]; [exact I|].
    destruct (@rstrip_by_head q c r Ht) as (r' & ->). exact Ht. }
  rewrite H. apply rstrip_by_idem.
Qed.

Section MergeAgain.
Context {U : Unicode}.

Lemma note_parts_are_parts x : Forall note_part (Pipeline.note_parts x).
Proof.
  unfold Pipeline.note_parts. destruct x as [x|]; [|constructor].
  destruct (truthy x); [|constructor].
  apply Forall_forall. intros p Hp. apply filter_In in Hp as [Hp Ht].
  apply in_map_iff in Hp as (f & <- & Hf). split; [|split].
  - destruct (strip f); [discriminate|discriminate].
  - apply strip_by_idem.
  - assert (H : Forall (fun _ : char => True) x) by (apply Forall_forall; auto).
    apply (fields_Forall (fun c => (c =? 59)%N)) in H.
    rewrite Forall_forall in H. specialize (H f Hf).
    apply forallb_forall. apply Forall_forall.
    unfold strip, strip_by. apply rstrip_by_Forall, lstrip_by_Forall.
    eapply Forall_impl; [|exact H]. cbv beta. intros c [_ ->]. reflexivity.
Qed.

Lemma fields_never_empty q s : fields q s <> [].
Proof.
  destruct s as [|c r]; cbn [fields]; [discriminate|].
  destruct (q c); [discriminate|]. destruct (fields q r); discriminate.
Qed.

Lemma fields_sep q c r : q c = true -> fields q (c :: r) = [] :: fields q r.
Proof. intros H. cbn [fields]. now rewrite H. Qed.

Lemma fields_nonsep q c r :
  q c = false ->
  fields q (c :: r) = match fields q r with f :: fs => (c :: f) :: fs | [] => [[c]] end.
Proof. intros H. cbn [fields]. now rewrite H. Qed.

Lemma strip_fields_join l :
  l <> [] -> Forall note_part l ->
  map strip (fields (fun c => (c =? 59)%N) (join (py "; ") l)) = l.
Proof.
  intros Hne H. induction H as [|p r Hp Hr IH]; [congruence|].
  destruct Hp as (Hp1 & Hp2 & Hp3).
  destruct r as [|p2 r].
  - cbn [join]. rewrite <- (app_nil_r p) at 1. rewrite (fields_app _ _ _ Hp3).
    cbn [fields map]. now rewrite app_nil_r, Hp2.
  - change (join (py "; ") (p :: p2 :: r))
      with (p ++ 59%N :: 32%N :: join (py "; ") (p2 :: r)).
    rewrite (fields_app _ _ _ Hp3).
    rewrite (@fields_sep _ 59%N) by reflexivity.
    rewrite app_nil_r. cbn [map]. rewrite Hp2. f_equal.
    specialize (IH ltac:(discriminate)).
    rewrite (@fields_nonsep _ 32%N) by reflexivity.
    pose proof (@fields_never_empty (fun c => (c =? 59)%N) (join (py "; ") (p2 :: r))) as Hf.
    destruct (fields _ (join (py "; ") (p2 :: r))) as [|f fs]; [congruence|].
    rewrite <- IH. reflexivity.
Qed.

Lemma note_parts_join l :
  Forall note_part l -> Pipeline.note_parts (Some (join (py "; ") l)) = l.
Proof.
  intros H. destruct l as [|p r]; [reflexivity|].
  unfold Pipeline.note_parts.
  assert (Ht : Forall (fun p => truthy p = true) (p :: r)).
  { eapply Forall_impl; [|exact H]. intros q (Hq & _). destruct q; [congruence|reflexivity]. }
  assert (Hj : truthy (join (py "; ") (p :: r)) = true).
  { pose proof (@join_truthy (py "; ") (p :: r) ltac:(discriminate) Ht) as Hj.
    destruct (join (py "; ") (p :: r)); [congruence|reflexivity]. }
  rewrite Hj, strip_fields_join by (discriminate || exact H).
  now apply filter_truthy_all.
Qed.

Lemma uniq_parts_id l seen :
  NoDup (map str_lower l) -> Forall (fun p => ~ In (str_lower p) seen) l ->
  Pipeline.uniq_parts l seen = l.
Proof.
  revert seen. induction l as [|p r IH]; intros seen Hnd Hs; [reflexivity|].
  cbn [Pipeline.uniq_parts]. inversion Hs as [|? ? Hp Hr]; subst.
  cbn [map] in Hnd. inversion Hnd as [|? ? Hnin Hnd']; subst.
  destruct (mem (str_lower p) seen) eqn:E; [apply mem_In in E; contradiction|].
  f_equal. apply IH; [exact Hnd'|].
  apply Forall_forall. intros q Hq [Heq|Hin].
  - apply Hnin. rewrite Heq. now apply in_map.
  - rewrite Forall_forall in Hr. exact (Hr q Hq Hin).
Qed.

End MergeAgain.

(** X10: a merged note that was not cut at [max_len] absorbs the notes it
    was merged from: merging it again with either of them returns it
    unchanged. *)
Theorem merge_note_again (U : Unicode) (a b : option str) (max_len : nat) (out : str) :
  Pipeline.merge_note a b max_len = Some out -> (length out < max_len)%nat ->
  Pipeline.merge_note (Some out) b max_len = Some out
  /\ Pipeline.merge_note (Some out) a max_len = Some out.
Proof.
  unfold Pipeline.merge_note at 1.
  set (parts := Pipeline.note_parts a ++ Pipeline.note_parts b).
  set (uniq := Pipeline.uniq_parts parts []).
  destruct (truthy (join (py "; ") uniq)) eqn:T; cbn [negb]; [|discriminate].
  intros E Hlen. injection E as <-.
  assert (Hcut : firstn max_len (join (py "; ") uniq) = join (py "; ") uniq).
  { apply firstn_all2. rewrite length_firstn in Hlen. lia. }
  rewrite Hcut.
  assert (Hparts : Forall note_part uniq).
  { unfold uniq. apply uniq_parts_Forall. apply Forall_app. split; apply note_parts_are_parts. }
  destruct (uniq_parts_fresh parts []) as [Hnd Hfresh]. fold uniq in Hnd, Hfresh.
  pose proof (uniq_parts_covers parts []) as Hcov. fold uniq in Hcov.
  rewrite app_nil_r in Hcov. unfold parts in Hcov. apply Forall_app in Hcov as [Hca Hcb].
  assert (Hagain : forall x, Forall (fun p => In (str_lower p) (map str_lower uniq))
                               (Pipeline.note_parts x) ->
                             Pipeline.merge_note (Some (join (py "; ") uniq)) x max_len
                             = Some (join (py "; ") uniq)).
  { intros x Hx. unfold Pipeline.merge_note. rewrite (@note_parts_join uniq Hparts).
    rewrite uniq_parts_app_seen
      by (eapply Forall_impl; [|exact Hx]; cbv beta; intros p Hp; now rewrite app_nil_r).
    rewrite (@uniq_parts_id U uniq [] Hnd Hfresh), T. cbn [negb]. now rewrite Hcut. }
  split; apply Hagain; assumption.
Qed.

Lemma merge_note_again_witness :
  Pipeline.merge_note (U := LatinVN.unicode)
    (Some (py "tươi; băm nhỏ")) (Some (py "Tươi;băm nhỏ")) 200
  = Some (py "tươi; băm nhỏ")
  /\ Pipeline.merge_note (U := LatinVN.unicode)
       (Some (py "tươi; băm nhỏ")) (Some (py "tươi")) 200
     = Some (py "tươi; băm nhỏ").
Proof.
  apply (@merge_note_again LatinVN.unicode (Some (py "tươi")) (Some (py "Tươi;băm nhỏ")) 200
           (py "tươi; băm nhỏ")).
  - vm_compute. reflexivity.
  - vm_compute. lia.
Defined.

(** ** Loops *)

Lemma for_each_invariant {S A X : Type} (P : A -> Prop) (body : X -> A -> M S A) l :
  (forall x a s a' s', P a -> body x a s = (inr a', s') -> P a') ->
  forall a s a' s', P a -> for_each l body a s = (inr a', s') -> P a'.
Proof.
  intros Hbody. induction l as [|x r IH]; intros a s a' s' Ha; cbn [for_each].
  - unfold ret. intros E. now injection E as <- <-.
  - unfold bind. destruct (body x a s) as [[e|a1] s1] eqn:E; [discriminate|].
    apply IH. eapply Hbody; eassumption.
Qed.

(** ** The dict of the promotion loop *)

Section DedupProps.
Context {U : Unicode} {St : Store}.

Lemma dedup_get_none d k : Pipeline.dedup_get d k = None -> ~ In k (map fst d).
Proof.
  induction d as [|[k' v] r IH]; cbn [Pipeline.dedup_get map fst]; [auto|].
  destruct (str_eqb k k') eqn:E; [discriminate|].
  apply str_eqb_neq in E. intros H [Hk|Hk]; [congruence|]. now apply IH.
Qed.

Lemma dedup_set_new d k v :
  Pipeline.dedup_get d k = None -> Pipeline.dedup_set d k v = d ++ [(k, v)].
Proof.
  induction d as [|[k' v'] r IH]; cbn [Pipeline.dedup_get Pipeline.dedup_set app]; [reflexivity|].
  destruct (str_eqb k k'); [discriminate|]. intros H. now rewrite IH.
Qed.

Lemma dedup_set_keys d k v v0 :
  Pipeline.dedup_get d k = Some v0 -> map fst (Pipeline.dedup_set d k v) = map fst d.
Proof.
  induction d as [|[k' v'] r IH]; cbn [Pipeline.dedup_get Pipeline.dedup_set map fst];
    [discriminate|].
  destruct (str_eqb k k'); [reflexivity|]. intros H. cbn [map fst]. now rewrite IH.
Qed.

Lemma dedup_set_rows (P : str * Pipeline.dedup_row -> Prop) d k v :
  Forall P d -> (forall k', k = k' -> P (k', v)) -> P (k, v) ->
  Forall P (Pipeline.dedup_set d k v).
Proof.
  intros H Hk Hv. induction H as [|[k' v'] r Hx Hr IH]; cbn [Pipeline.dedup_set].
  - repeat constructor. exact Hv.
  - destruct (str_eqb k k') eqn:E.
    + apply str_eqb_eq in E. constructor; [now apply Hk | exact Hr].
    + constructor; assumption.
Qed.

Lemma NoDup_snoc {A : Type} (l : list A) (x : A) :
  NoDup l -> ~ In x l -> NoDup (l ++ [x]).
Proof.
  induction 1 as [|y r Hy Hr IH]; intros Hx; cbn [app]; [repeat constructor; auto|].
  constructor.
  - intros Hin. apply in_app_or in Hin as [Hin|[->|[]]]; [contradiction|].
    apply Hx. now left.
  - apply IH. intros Hin. apply Hx. now right.
Qed.

Lemma dedup_set_ok d k v :
  dedup_ok d -> k = value_str (ing_id_of v) -> dedup_ok (Pipeline.dedup_set d k v).
Proof.
  intros [Hnd Hk] Hv. split.
  - destruct (Pipeline.dedup_get d k) as [v0|] eqn:E.
    + now rewrite (@dedup_set_keys d k v v0 E).
    + rewrite (@dedup_set_new d k v E), map_app. cbn [map fst].
      apply NoDup_snoc; [exact Hnd | now apply dedup_get_none].
  - apply dedup_set_rows; [exact Hk | intros k' <-; exact Hv | exact Hv].
Qed.

Lemma promote_item_ok pi_ dedup conn dedup' conn' :
  dedup_ok dedup ->
  Pipeline.promote_item pi_ dedup conn = (inr dedup', conn') -> dedup_ok dedup'.
Proof.
  intros Hd. unfold Pipeline.promote_item, bind.
  destruct (Pipeline.get_or_create_ingredient _ _ conn) as [[e|ing_id] c1]; [discriminate|].
  destruct (Pipeline.dedup_get dedup (value_str ing_id)) as [[[[[i0 amt0] unit0] note0] role0]|].
  - destruct (if Pipeline.has_amount amt0 then _ else _) as [amt unit].
    unfold ret. intros E. injection E as <- <-. now apply dedup_set_ok.
  - unfold ret. intros E. injection E as <- <-. now apply dedup_set_ok.
Qed.

Lemma promote_line_ok raw dedup conn dedup' conn' :
  dedup_ok dedup ->
  Pipeline.promote_line raw dedup conn = (inr dedup', conn') -> dedup_ok dedup'.
Proof.
  intros Hd. unfold Pipeline.promote_line, bind, as_text.
  destruct raw as [|s|n|b|d]; try discriminate. unfold ret at 1.
  destruct (Pipeline.looks_like_sentence _);
    [unfold ret; intros E; injection E as <- <-; exact Hd|].
  destruct (negb _ || negb _);
    [unfold ret; intros E; injection E as <- <-; exact Hd|].
  apply for_each_invariant; [|exact Hd].
  intros x a c a' c'. apply promote_item_ok.
Qed.

End DedupProps.

(** X11: the rows that the promotion loop collects for one recipe have
    pairwise different ingredient identifiers, each row filed under the
    text of its own identifier: [replace_recipe_ingredients] is never given
    the same ingredient twice. *)
Theorem promoted_ingredients_distinct (U : Unicode) (St : Store)
  (ing_texts : list value) (conn : connection) :
  match for_each ing_texts Pipeline.promote_line [] conn with
  | (inr dedup, _) =>
      NoDup (map ing_id_of (map snd dedup))
      /\ Forall (fun kv => fst kv = value_str (ing_id_of (snd kv))) dedup
  | (inl _, _) => True
  end.
Proof.
  destruct (for_each ing_texts Pipeline.promote_line [] conn) as [[e|dedup] conn'] eqn:E;
    [exact I|].
  assert (H : dedup_ok dedup).
  { revert E. apply for_each_invariant; [|split; constructor].
    intros x a s a' s'. apply promote_line_ok. }
  destruct H as [Hnd Hk]. split; [|exact Hk].
  apply (NoDup_map_inv value_str). rewrite !map_map.
  erewrite map_ext_in; [exact Hnd|].
  intros kv Hin. rewrite Forall_forall in Hk. symmetry. now apply Hk.
Qed.

(** ** Edge cases of the promotion *)

(** X12: [get_or_create_ingredient] raises [ValueError] for a key that is
    empty or whitespace, before any statement is sent to the store. *)
Theorem blank_key_rejected (U : Unicode) (L : UnicodeLaws U) (St : Store)
  (key alias_norm : str) (conn : connection) :
  strip key = [] ->
  Pipeline.get_or_create_ingredient key alias_norm conn = (inl ValueError, conn).
Proof.
  intros H. unfold Pipeline.get_or_create_ingredient.
  rewrite H, (lower_plain [] eq_refl). reflexivity.
Qed.

Lemma blank_key_rejected_witness :
  let St := Scripted.store [] (fun _ _ => {| rowcount := 1; fetchall := [[VText (py "id1")]] |}) in
  Pipeline.get_or_create_ingredient (U := LatinVN.unicode) (St := St) (py "   ") (py "x") []
  = (inl ValueError, []).
Proof.
  intros St.
  apply (@blank_key_rejected LatinVN.unicode latinvn_laws St (py "   ") (py "x") []).
  reflexivity.
Defined.


(** ** The batch *)

Section BatchProps.
Context {U : Unicode} {St : Store}.

Lemma run_batch_step_counts rid b w :
  exists b' w',
    Pipeline.run_batch_step rid b w = (inr b', w')
    /\ (Pipeline.ok b' + Pipeline.skip b' + Pipeline.fail b'
        = Pipeline.ok b + Pipeline.skip b + Pipeline.fail b + 1)%Z.
Proof.
  unfold Pipeline.run_batch_step.
  destruct ((rid0 <- as_int rid ;; Pipeline.promote_recipe rid0) w) as [[e|[r|a b0 c d e]] w'];
    eexists _, _; (split; [reflexivity|]);
    cbn [Pipeline.ok Pipeline.skip Pipeline.fail]; lia.
Qed.

Lemma run_batch_loop_counts ids b w :
  exists b' w',
    for_each ids Pipeline.run_batch_step b w = (inr b', w')
    /\ (Pipeline.ok b' + Pipeline.skip b' + Pipeline.fail b'
        = Pipeline.ok b + Pipeline.skip b + Pipeline.fail b + Z.of_nat (length ids))%Z.
Proof.
  revert b w. induction ids as [|rid r IH]; intros b w; cbn [for_each].
  - exists b, w. split; [reflexivity|]. cbn [length]. lia.
  - destruct (run_batch_step_counts rid b w) as (b1 & w1 & E1 & H1).
    destruct (IH b1 w1) as (b2 & w2 & E2 & H2).
    exists b2, w2. unfold bind. rewrite E1. split; [exact E2|].
    rewrite H2, H1. cbn [length]. lia.
Qed.

End BatchProps.

(** X14: the loop of [run_batch] never raises: every recipe is counted
    once, as ok, skipped or failed, and the three counters add up to the
    number of ids. *)
Theorem run_batch_counts (U : Unicode) (St : Store) (ids : list value)
  (w : Pipeline.connections) :
  exists b w',
    Pipeline.run_batch ids w = (inr (b, Z.of_nat (length ids)), w')
    /\ (Pipeline.ok b + Pipeline.skip b + Pipeline.fail b = Z.of_nat (length ids))%Z.
Proof.
  destruct (run_batch_loop_counts ids
              {| Pipeline.ok := 0; Pipeline.skip := 0; Pipeline.fail := 0 |} w)
    as (b & w' & E & H).
  exists b, w'. unfold Pipeline.run_batch, bind. rewrite E. split; [reflexivity|].
  rewrite H. reflexivity.
Qed.

(** ** Decimal numerals *)

Lemma nat_of_digits_snoc d c :
  nat_of_digits (d ++ [c]) = (nat_of_digits d * 10 + N.to_nat (c - 48))%nat.
Proof. unfold nat_of_digits. now rewrite fold_left_app. Qed.

Lemma digits_of_value fuel n acc :
  (n < fuel)%nat ->
  exists d, digits_of fuel n acc = d ++ acc /\ nat_of_digits d = n.
Proof.
  revert n acc. induction fuel as [|f IH]; intros n acc Hn; [lia|].
  cbn [digits_of].
  assert (Hd : N.to_nat (48 + N.of_nat (n mod 10) - 48) = (n mod 10)%nat) by lia.
  destruct (n <? 10)%nat eqn:E.
  - apply Nat.ltb_lt in E. exists [(48 + N.of_nat (n mod 10))%N]. split; [reflexivity|].
    unfold nat_of_digits. cbn [fold_left]. rewrite Hd, Nat.mod_small; lia.
  - apply Nat.ltb_ge in E.
    assert (Hq : (n / 10 < f)%nat).
    { pose proof (Nat.div_lt n 10). lia. }
    destruct (IH (n / 10)%nat ((48 + N.of_nat (n mod 10))%N :: acc) Hq) as (d & -> & Hv).
    exists (d ++ [(48 + N.of_nat (n mod 10))%N]). split; [now rewrite <- app_assoc|].
    rewrite nat_of_digits_snoc, Hv, Hd.
    pose proof (Nat.div_mod_eq n 10). lia.
Qed.

(** [int(str(n)) == n] *)
Lemma nat_of_digits_str n : nat_of_digits (str_of_nat n) = n.
Proof.
  unfold str_of_nat.
  destruct (@digits_of_value (S n) n [] ltac:(lia)) as (d & -> & H).
  now rewrite app_nil_r.
Qed.

Lemma str_of_nat_inj a b : str_of_nat a = str_of_nat b -> a = b.
Proof. intros H. rewrite <- (nat_of_digits_str a), <- (nat_of_digits_str b). now rewrite H. Qed.

(** ** Buckets *)

Lemma bucket_key_inj n m :
  n <> [] -> m <> [] -> Phase2.bucket_key n = Phase2.bucket_key m ->
  hd_error n = hd_error m /\ (length n / 5 = length m / 5)%nat.
Proof.
  destruct n as [|c n]; [congruence|]. destruct m as [|d m]; [congruence|]. intros _ _.
  unfold Phase2.bucket_key. intros H. injection H as -> H.
  apply str_of_nat_inj in H. split; [reflexivity|].
  apply Nat.mul_cancel_r in H; [exact H | discriminate].
Qed.

(** ** The candidate generator, pair by pair *)

Section GeneratorInvariant.
Context {U : Unicode} {D : Difflib}.
Variable min_score : float.
Variable max_pairs : Z.

(** [Q] holds of the state of the loops, [Qr] of the list returned early,
    [P k] of the rows of the bucket [k]. *)
Variable Q : list Phase2.Suggestion * Z -> Prop.
Variable Qr : list Phase2.Suggestion -> Prop.
Variable P : str -> Phase2.IngredientRow -> Prop.

Hypothesis step :
  forall k a b2 st, P k a -> P k b2 -> Q st ->
                    kept Q Qr (Phase2.compare_pair min_score max_pairs a b2 st).

Lemma compare_with_kept k a rest st :
  P k a -> Forall (P k) rest -> Q st ->
  kept Q Qr (Phase2.compare_with min_score max_pairs a rest st).
Proof.
  intros Ha Hrest. revert st. induction Hrest as [|b2 rest Hb Hrest IH]; intros st Hst.
  - exact Hst.
  - cbn [Phase2.compare_with].
    pose proof (@step k a b2 st Ha Hb Hst) as H.
    destruct (Phase2.compare_pair min_score max_pairs a b2 st) as [st'|r]; [|exact H].
    now apply IH.
Qed.

Lemma compare_within_kept k items st :
  Forall (P k) items -> Q st ->
  kept Q Qr (Phase2.compare_within min_score max_pairs items st).
Proof.
  intros Hitems. revert st. induction Hitems as [|a rest Ha Hrest IH]; intros st Hst.
  - exact Hst.
  - cbn [Phase2.compare_within].
    pose proof (@compare_with_kept k a rest st Ha Hrest Hst) as H.
    destruct (Phase2.compare_with min_score max_pairs a rest st) as [st'|r]; [|exact H].
    now apply IH.
Qed.

Lemma compare_buckets_kept buckets st :
  Forall (fun b => Forall (P (fst b)) (snd b)) buckets -> Q st ->
  kept Q Qr (Phase2.compare_buckets min_score max_pairs buckets st).
Proof.
  intros Hb. revert st. induction Hb as [|[k items] r Hitems Hr IH]; intros st Hst.
  - exact Hst.
  - cbn [Phase2.compare_buckets]. cbn [fst snd] in Hitems.
    destruct (length items <? 2)%nat; [now apply IH|].
    set (sorted := Phase2.sorted_desc _ items).
    assert (Hs : Forall (P k) sorted).
    { apply Forall_forall. intros x Hx. apply sorted_desc_In in Hx.
      rewrite Forall_forall in Hitems. now apply Hitems. }
    pose proof (@compare_within_kept k sorted st Hs Hst) as H.
    destruct (Phase2.compare_within min_score max_pairs sorted st) as [st'|res]; [|exact H].
    now apply IH.
Qed.

Lemma bucket_append_kept k ing buckets :
  P k ing -> Forall (fun b => Forall (P (fst b)) (snd b)) buckets ->
  Forall (fun b => Forall (P (fst b)) (snd b)) (Phase2.bucket_append k ing buckets).
Proof.
  intros Hing. induction 1 as [|[k' items] r Hi Hr IH]; cbn [Phase2.bucket_append].
  - repeat constructor. exact Hing.
  - destruct (str_eqb k k') eqn:E; constructor; try assumption.
    apply str_eqb_eq in E. subst k'. cbn [fst snd] in *.
    apply Forall_app. split; [exact Hi|]. repeat constructor. exact Hing.
Qed.

Lemma buckets_kept clean buckets :
  Forall (fun x => P (Phase2.bucket_key (Phase2.norm x)) x) clean ->
  Forall (fun b => Forall (P (fst b)) (snd b)) buckets ->
  Forall (fun b => Forall (P (fst b)) (snd b))
    (fold_left (fun buckets ing =>
                  Phase2.bucket_append (Phase2.bucket_key (Phase2.norm ing)) ing buckets)
       clean buckets).
Proof.
  intros Hc. revert buckets. induction Hc as [|ing r Hing Hr IH]; intros buckets Hb;
    cbn [fold_left]; [exact Hb|].
  apply IH. now apply bucket_append_kept.
Qed.

(** The result of the generator, from what the loops keep. *)
Lemma generate_suggestions_kept ingredients (Qf : list Phase2.Suggestion -> Prop) :
  (forall x, In x ingredients ->
             truthy (Phase2.norm x) && negb (Phase2.looks_bad_key (Phase2.key x)) = true ->
             P (Phase2.bucket_key (Phase2.norm x)) x) ->
  Q ([], 0%Z) ->
  (forall sugg n, Q (sugg, n) -> Qf (Phase2.sorted_desc Phase2.suggestion_key_gtb sugg)) ->
  (forall res, Qr res -> Qf res) ->
  Qf (Phase2.generate_suggestions min_score max_pairs ingredients).
Proof.
  intros HP H0 Hsorted Hearly. unfold Phase2.generate_suggestions.
  set (clean := filter _ ingredients).
  set (buckets := fold_left _ clean []).
  assert (Hb : Forall (fun b => Forall (P (fst b)) (snd b)) buckets).
  { apply buckets_kept; [|constructor].
    apply Forall_forall. intros x Hx. apply filter_In in Hx as [Hx Hc]. now apply HP. }
  pose proof (@compare_buckets_kept buckets ([], 0%Z) Hb H0) as H.
  destruct (Phase2.compare_buckets min_score max_pairs buckets ([], 0%Z))
    as [[sugg n]|res]; cbn [kept] in H; [eapply Hsorted; exact H | now apply Hearly].
Qed.

End GeneratorInvariant.

(** ** The pairs that become suggestions *)

Section GeneratorPairs.
Context {U : Unicode} {D : Difflib}.
Variable min_score : float.
Variable max_pairs : Z.
Variable ingredients : list Phase2.IngredientRow.

Lemma compare_pair_paired k a b2 st :
  in_bucket ingredients k a -> in_bucket ingredients k b2 ->
  Forall (paired ingredients) (fst st) ->
  kept (fun st => Forall (paired ingredients) (fst st)) (Forall (paired ingredients))
    (Phase2.compare_pair min_score max_pairs a b2 st).
Proof.
  intros (Ha & Hna & Hka & Hba) (Hb & Hnb & Hkb & Hbb) Hst.
  destruct st as [suggestions pair_count]. cbn [fst] in Hst.
  unfold Phase2.compare_pair.
  destruct (max_pairs <=? pair_count)%Z; [exact Hst|].
  destruct (8 <=? _)%nat; [exact Hst|].
  destruct (float_ltb _ min_score); [exact Hst|].
  assert (Hab : Phase2.bucket_key (Phase2.norm a) = Phase2.bucket_key (Phase2.norm b2))
    by congruence.
  destruct (bucket_key_inj Hna Hnb Hab) as [Hhd Hband].
  assert (Hlen : (Phase2.abs_diff (length (Phase2.norm a)) (length (Phase2.norm b2)) <= 4)%nat
                 /\ (Phase2.abs_diff (length (Phase2.norm b2)) (length (Phase2.norm a)) <= 4)%nat).
  { unfold Phase2.abs_diff.
    pose proof (Nat.div_mod_eq (length (Phase2.norm a)) 5).
    pose proof (Nat.div_mod_eq (length (Phase2.norm b2)) 5).
    pose proof (Nat.mod_upper_bound (length (Phase2.norm a)) 5).
    pose proof (Nat.mod_upper_bound (length (Phase2.norm b2)) 5). lia. }
  destruct Hlen as [Hlen1 Hlen2].
  destruct ((Phase2.used_count b2 <? Phase2.used_count a)%Z || _).
  - destruct (str_eqb _ _) eqn:E; [exact Hst|]. apply str_eqb_neq in E.
    cbn [kept fst]. apply Forall_app. split; [exact Hst|]. constructor; [|constructor].
    split.
    + exists a, b2. cbn. repeat (split; [first [assumption | reflexivity]|]). reflexivity.
    + repeat split; assumption.
  - destruct (str_eqb _ _) eqn:E; [exact Hst|]. apply str_eqb_neq in E.
    cbn [kept fst]. apply Forall_app. split; [exact Hst|]. constructor; [|constructor].
    split.
    + exists b2, a. cbn. repeat (split; [first [assumption | reflexivity | now symmetry]|]).
      reflexivity.
    + repeat split; assumption.
Qed.

Lemma generate_suggestions_paired :
  Forall (paired ingredients) (Phase2.generate_suggestions min_score max_pairs ingredients).
Proof.
  apply (@generate_suggestions_kept U D min_score max_pairs
           (fun st => Forall (paired ingredients) (fst st)) (Forall (paired ingredients))
           (in_bucket ingredients)).
  - intros k a b2 st. apply compare_pair_paired.
  - intros x Hx Hc. apply andb_prop in Hc as [Hn Hk]. apply negb_true_iff in Hk.
    repeat split; try assumption. destruct (Phase2.norm x); [discriminate|discriminate].
  - constructor.
  - intros sugg n H. cbn [fst] in H. apply Forall_forall. intros s Hs.
    apply sorted_desc_In in Hs. rewrite Forall_forall in H. now apply H.
  - auto.
Qed.

End GeneratorPairs.

(** X15: the two keys of every suggestion of [generate_suggestions] pass
    [looks_bad_key] and differ, up to case and surrounding whitespace: on
    the output of the generator the first reject rule of [export_csv] never
    fires. *)
Theorem suggestions_have_clean_keys (U : Unicode) (D : Difflib) (min_score : float)
  (max_pairs : Z) (ingredients : list Phase2.IngredientRow) :
  Forall clean_pair (Phase2.generate_suggestions min_score max_pairs ingredients).
Proof.
  eapply Forall_impl; [|apply generate_suggestions_paired]. cbv beta. intros s H. apply H.
Qed.


(** ** The pair budget *)

Lemma insert_desc_length {A : Type} (gtb : A -> A -> bool) x l :
  length (Phase2.insert_desc gtb x l) = S (length l).
Proof.
  induction l as [|y r IH]; cbn [Phase2.insert_desc length]; [reflexivity|].
  destruct (gtb y x); cbn [length]; now rewrite ?IH.
Qed.

Lemma sorted_desc_length {A : Type} (gtb : A -> A -> bool) l :
  length (Phase2.sorted_desc gtb l) = length l.
Proof.
  induction l as [|x r IH]; cbn [Phase2.sorted_desc length]; [reflexivity|].
  now rewrite insert_desc_length, IH.
Qed.

Section Budget.
Context {U : Unicode} {D : Difflib}.
Variable min_score : float.
Variable max_pairs : Z.

Lemma compare_pair_counted a b2 st :
  (Z.of_nat (length (fst st)) <= snd st <= Z.max 0 max_pairs)%Z ->
  kept (fun st => (Z.of_nat (length (fst st)) <= snd st <= Z.max 0 max_pairs)%Z)
       (fun res => (Z.of_nat (length res) <= Z.max 0 max_pairs)%Z)
       (Phase2.compare_pair (U := U) min_score max_pairs a b2 st).
Proof.
  destruct st as [suggestions pair_count]. cbn [fst snd]. intros H.
  unfold Phase2.compare_pair.
  destruct (max_pairs <=? pair_count)%Z eqn:E; [cbn [kept]; lia|].
  apply Z.leb_gt in E.
  destruct (8 <=? _)%nat; [exact H|].
  destruct (float_ltb _ min_score); [cbn [kept fst snd]; lia|].
  destruct ((Phase2.used_count b2 <? Phase2.used_count a)%Z || _);
    (destruct (str_eqb _ _); cbn [kept fst snd]; [lia|]);
    rewrite length_app; cbn [length]; lia.
Qed.

End Budget.

(** X17: [generate_suggestions] returns at most [max_pairs] suggestions
    (none when [max_pairs] is not positive). *)
Theorem suggestions_within_budget (U : Unicode) (D : Difflib) (min_score : float)
  (max_pairs : Z) (ingredients : list Phase2.IngredientRow) :
  (Z.of_nat (length (Phase2.generate_suggestions min_score max_pairs ingredients))
   <= Z.max 0 max_pairs)%Z.
Proof.
  apply (@generate_suggestions_kept U D min_score max_pairs
           (fun st => (Z.of_nat (length (fst st)) <= snd st <= Z.max 0 max_pairs)%Z)
           (fun res => (Z.of_nat (length res) <= Z.max 0 max_pairs)%Z)
           (fun _ _ => True)).
  - intros k a b2 st _ _. apply compare_pair_counted.
  - auto.
  - cbn [fst snd length]. lia.
  - intros sugg n H. cbn [fst snd] in H. rewrite sorted_desc_length. lia.
  - auto.
Qed.

(** ** The order of the result *)

Lemma npairs_closed n : (2 * npairs n = n * (n - 1))%nat.
Proof.
  induction n as [|m IH]; [reflexivity|]. cbn [npairs].
  destruct m as [|m']; [reflexivity|]. cbn [Nat.sub] in *. nia.
Qed.

Lemma npairs_half n : npairs n = (n * (n - 1) / 2)%nat.
Proof.
  rewrite <- npairs_closed. rewrite Nat.mul_comm. now rewrite Nat.div_mul.
Qed.

Lemma npairs_add a b : (npairs a + npairs b <= npairs (a + b))%nat.
Proof.
  pose proof (npairs_closed a). pose proof (npairs_closed b).
  pose proof (npairs_closed (a + b)). nia.
Qed.

Lemma npairs_le a b : (a <= b)%nat -> (npairs a <= npairs b)%nat.
Proof.
  intros H. replace b with (a + (b - a))%nat by lia.
  pose proof (npairs_add a (b - a)). lia.
Qed.

Section Completion.
Context {U : Unicode} {D : Difflib}.
Variable min_score : float.
Variable max_pairs : Z.

Lemma compare_pair_continues a b2 sugg pc :
  (pc < max_pairs)%Z ->
  exists sugg' pc',
    Phase2.compare_pair min_score max_pairs a b2 (sugg, pc) = inl (sugg', pc')
    /\ (pc' <= pc + 1)%Z.
Proof.
  intros H. unfold Phase2.compare_pair.
  apply Z.leb_gt in H. rewrite H.
  destruct (8 <=? _)%nat; [eexists _, _; split; [reflexivity|lia]|].
  destruct (float_ltb _ min_score); [eexists _, _; split; [reflexivity|lia]|].
  destruct ((Phase2.used_count b2 <? Phase2.used_count a)%Z || _);
    destruct (str_eqb _ _); eexists _, _; (split; [reflexivity|lia]).
Qed.

Lemma compare_with_continues a rest sugg pc :
  (pc + Z.of_nat (length rest) <= max_pairs)%Z ->
  exists sugg' pc',
    Phase2.compare_with min_score max_pairs a rest (sugg, pc) = inl (sugg', pc')
    /\ (pc' <= pc + Z.of_nat (length rest))%Z.
Proof.
  revert sugg pc. induction rest as [|b2 rest IH]; intros sugg pc H.
  - exists sugg, pc. split; [reflexivity|cbn [length]; lia].
  - cbn [Phase2.compare_with]. cbn [length] in H.
    destruct (@compare_pair_continues a b2 sugg pc ltac:(lia)) as (s1 & p1 & -> & H1).
    destruct (IH s1 p1 ltac:(lia)) as (s2 & p2 & -> & H2).
    exists s2, p2. split; [reflexivity|cbn [length]; lia].
Qed.

Lemma compare_within_continues items sugg pc :
  (pc + Z.of_nat (npairs (length items)) <= max_pairs)%Z ->
  exists sugg' pc',
    Phase2.compare_within min_score max_pairs items (sugg, pc) = inl (sugg', pc')
    /\ (pc' <= pc + Z.of_nat (npairs (length items)))%Z.
Proof.
  revert sugg pc. induction items as [|a rest IH]; intros sugg pc H.
  - exists sugg, pc. split; [reflexivity|cbn [length npairs]; lia].
  - cbn [Phase2.compare_within]. cbn [length npairs] in H.
    destruct (@compare_with_continues a rest sugg pc ltac:(lia)) as (s1 & p1 & -> & H1).
    destruct (IH s1 p1 ltac:(lia)) as (s2 & p2 & -> & H2).
    exists s2, p2. split; [reflexivity|cbn [length npairs]; lia].
Qed.

Lemma compare_buckets_continues buckets sugg pc :
  (pc + Z.of_nat (list_sum (map (fun b => npairs (length (snd b))) buckets)) <= max_pairs)%Z ->
  exists sugg' pc',
    Phase2.compare_buckets min_score max_pairs buckets (sugg, pc) = inl (sugg', pc').
Proof.
  revert sugg pc. induction buckets as [|[k items] r IH]; intros sugg pc H.
  - exists sugg, pc. reflexivity.
  - cbn [Phase2.compare_buckets].
    change (pc + Z.of_nat (npairs (length items)
                           + list_sum (map (fun b => npairs (length (snd b))) r))
            <= max_pairs)%Z in H.
    destruct (length items <? 2)%nat; [apply IH; lia|].
    set (sorted := Phase2.sorted_desc _ items).
    assert (Hl : length sorted = length items) by apply sorted_desc_length.
    destruct (@compare_within_continues sorted sugg pc ltac:(rewrite Hl; lia))
      as (s1 & p1 & -> & H1).
    apply IH. rewrite Hl in H1. lia.
Qed.

Lemma bucket_append_size k ing buckets :
  list_sum (map (fun b => length (snd b)) (Phase2.bucket_append k ing buckets))
  = S (list_sum (map (fun b => length (snd b)) buckets)).
Proof.
  induction buckets as [|[k' items] r IH]; cbn [Phase2.bucket_append]; [reflexivity|].
  destruct (str_eqb k k').
  - change (length (items ++ [ing]) + list_sum (map (fun b => length (snd b)) r)
            = S (length items + list_sum (map (fun b => length (snd b)) r)))%nat.
    rewrite length_app. cbn [length]. lia.
  - change (length items
            + list_sum (map (fun b => length (snd b)) (Phase2.bucket_append k ing r))
            = S (length items + list_sum (map (fun b => length (snd b)) r)))%nat.
    rewrite IH. lia.
Qed.

Lemma buckets_size (clean : list Phase2.IngredientRow) buckets :
  list_sum (map (fun b => length (snd b))
              (fold_left (fun buckets ing =>
                            Phase2.bucket_append (Phase2.bucket_key (Phase2.norm ing)) ing buckets)
                 clean buckets))
  = (length clean + list_sum (map (fun b => length (snd b)) buckets))%nat.
Proof.
  revert buckets. induction clean as [|ing r IH]; intros buckets; cbn [fold_left length];
    [reflexivity|].
  rewrite IH, bucket_append_size. lia.
Qed.

Lemma npairs_sum (buckets : list (str * list Phase2.IngredientRow)) :
  (list_sum (map (fun b => npairs (length (snd b))) buckets)
   <= npairs (list_sum (map (fun b => length (snd b)) buckets)))%nat.
Proof.
  induction buckets as [|b r IH]; [apply Nat.le_refl|].
  change (npairs (length (snd b)) + list_sum (map (fun b => npairs (length (snd b))) r)
          <= npairs (length (snd b) + list_sum (map (fun b => length (snd b)) r)))%nat.
  pose proof (npairs_add (length (snd b)) (list_sum (map (fun b => length (snd b)) r))). lia.
Qed.

End Completion.

Lemma suggestion_key_ge_trans x y z :
  suggestion_key_ge x y -> suggestion_key_ge y z -> suggestion_key_ge x z.
Proof.
  unfold suggestion_key_ge. intros [H1|[H1 H1']] [H2|[H2 H2']].
  - left. eapply Qlt_trans; eassumption.
  - left. now rewrite <- H2.
  - left. now rewrite H1.
  - right. split; [now rewrite H1 | lia].
Qed.

Lemma suggestion_key_gtb_ge x y :
  Phase2.suggestion_key_gtb x y = true -> suggestion_key_ge x y.
Proof.
  unfold Phase2.suggestion_key_gtb, suggestion_key_ge, float_ltb. intros H.
  apply orb_prop in H as [H|H].
  - left. apply negb_true_iff in H. apply Qnot_le_lt. intros C.
    apply Qle_bool_iff in C. congruence.
  - apply andb_prop in H as [H1 H2]. right. split; [now apply Qeq_bool_iff|].
    apply Z.ltb_lt in H2. lia.
Qed.

Lemma suggestion_key_not_gtb_ge x y :
  Phase2.suggestion_key_gtb x y = false -> suggestion_key_ge y x.
Proof.
  unfold Phase2.suggestion_key_gtb, suggestion_key_ge, float_ltb. intros H.
  apply orb_false_iff in H as [H1 H2]. apply negb_false_iff in H1.
  apply Qle_bool_iff in H1. apply Qle_lteq in H1 as [H1|H1]; [now left|].
  right. split; [now symmetry|].
  apply Qeq_bool_iff in H1. rewrite H1 in H2. cbn [andb] in H2. now apply Z.ltb_ge.
Qed.

(** X18: when [max_pairs] is at least the number of pairs of
    ingredients, [n (n - 1) / 2], the result of [generate_suggestions] is
    sorted by descending score, then by descending usage of the alias. *)
Theorem suggestions_sorted (U : Unicode) (D : Difflib) (min_score : float)
  (max_pairs : Z) (ingredients : list Phase2.IngredientRow) :
  (Z.of_nat (length ingredients * (length ingredients - 1) / 2) <= max_pairs)%Z ->
  StronglySorted suggestion_key_ge
    (Phase2.generate_suggestions min_score max_pairs ingredients).
Proof.
  intros H. rewrite <- npairs_half in H. unfold Phase2.generate_suggestions.
  set (clean := filter _ ingredients).
  set (buckets := fold_left _ clean []).
  assert (Hsize : (list_sum (map (fun b => npairs (length (snd b))) buckets)
                   <= npairs (length ingredients))%nat).
  { etransitivity; [apply npairs_sum|]. apply npairs_le.
    unfold buckets. rewrite buckets_size.
    change (list_sum (map (fun b : str * list Phase2.IngredientRow => length (snd b)) []))
      with O.
    rewrite Nat.add_0_r. apply filter_length_le. }
  destruct (@compare_buckets_continues U D min_score max_pairs buckets [] 0%Z ltac:(lia))
    as (sugg & pc & ->).
  apply sorted_desc_sorted.
  - apply suggestion_key_ge_trans.
  - apply suggestion_key_gtb_ge.
  - apply suggestion_key_not_gtb_ge.
Qed.

Lemma suggestions_sorted_witness :
  let row i k n :=
    {| Phase2.id := py i; Phase2.key := py k; Phase2.norm := py k;
       Phase2.used_count := n |} in
  let ingredients :=
    [ row "1" "ca chua" 9%Z; row "2" "ca chxa" 5%Z; row "3" "ca chuaa" 2%Z ]%string in
  let suggestions :=
    Phase2.generate_suggestions (U := LatinVN.unicode) (D := SeqMatcher.difflib)
      (3 # 4) 3 ingredients in
  map (fun s => (Phase2.canonical_id s, Phase2.alias_id s)) suggestions
  = [(py "1", py "3"); (py "1", py "2"); (py "2", py "3")]
  /\ StronglySorted suggestion_key_ge suggestions.
Proof.
  intros row ingredients suggestions. split; [vm_compute; reflexivity|].
  apply (@suggestions_sorted LatinVN.unicode SeqMatcher.difflib (3 # 4) 3 ingredients).
  vm_compute. discriminate.
Defined.

(** ** The reject rules do not depend on the side *)

Section RejectRules.
Context {U : Unicode}.

Lemma str_eqb_sym a b : str_eqb a b = str_eqb b a.
Proof.
  destruct (str_eqb a b) eqn:E; symmetry.
  - apply str_eqb_eq in E. subst. apply str_eqb_refl.
  - apply str_eqb_neq. apply str_eqb_neq in E. congruence.
Qed.

Lemma protein_mismatch_sym c a : Phase2.protein_mismatch c a = Phase2.protein_mismatch a c.
Proof.
  unfold Phase2.protein_mismatch, Phase2.set_eqb.
  set (ct := Phase2.set_inter (Phase2.tokens c) Phase2.PROTEIN_TOKENS).
  set (at_ := Phase2.set_inter (Phase2.tokens a) Phase2.PROTEIN_TOKENS).
  rewrite (andb_comm (forallb _ ct)).
  destruct ct, at_; reflexivity.
Qed.

Lemma dangerous_pairs_closed :
  forall x y, In (x, y) Phase2.DANGEROUS_NEAR_PAIRS -> In (y, x) Phase2.DANGEROUS_NEAR_PAIRS.
Proof.
  intros x y H. unfold Phase2.DANGEROUS_NEAR_PAIRS in *.
  repeat (destruct H as [H|H]; [injection H as <- <-; cbn; tauto|]). contradiction.
Qed.

Lemma has_dangerous_pair_sym c a :
  Phase2.has_dangerous_pair c a = Phase2.has_dangerous_pair a c.
Proof.
  assert (H : forall c a, Phase2.has_dangerous_pair c a = true ->
                          Phase2.has_dangerous_pair a c = true).
  { clear. intros c a. unfold Phase2.has_dangerous_pair. rewrite !existsb_exists.
    intros ([x y] & Hin & H). exists (y, x). split; [now apply dangerous_pairs_closed|].
    cbn [fst snd] in *. now rewrite andb_comm. }
  destruct (Phase2.has_dangerous_pair c a) eqn:E1, (Phase2.has_dangerous_pair a c) eqn:E2;
    try reflexivity.
  - apply H in E1. congruence.
  - apply H in E2. congruence.
Qed.

Lemma last_token_diff_sym c a : Phase2.last_token_diff c a = Phase2.last_token_diff a c.
Proof.
  unfold Phase2.last_token_diff.
  destruct (Phase2.tokens c) as [|x r], (Phase2.tokens a) as [|y r']; try reflexivity.
  now rewrite str_eqb_sym.
Qed.

Lemma classify_rejected approve_packaging s :
  fst (Phase2.classify approve_packaging s) = Phase2.auto_reject <-> rejected s = true.
Proof.
  unfold Phase2.classify, rejected. cbv zeta.
  destruct (Phase2.looks_bad_key (Phase2.alias_key s) || _); [cbn; tauto|].
  destruct (Phase2.protein_mismatch _ _); [cbn; tauto|].
  destruct (Phase2.has_dangerous_pair _ _); [cbn; tauto|].
  destruct (Phase2.last_token_diff _ _ && _); [cbn; tauto|].
  cbn [orb]. destruct (Phase2.is_format_only _ _); [cbn; split; discriminate|].
  destruct (approve_packaging && _); cbn; split; discriminate.
Qed.

Lemma rejected_swapped s : rejected (swapped s) = rejected s.
Proof.
  unfold rejected, swapped. cbv zeta.
  cbn [Phase2.canonical_key Phase2.alias_key Phase2.score].
  rewrite (orb_comm (Phase2.looks_bad_key (Phase2.canonical_key s))).
  now rewrite protein_mismatch_sym, has_dangerous_pair_sym, last_token_diff_sym.
Qed.

End RejectRules.

(** X19: the reject rules of [export_csv] do not depend on which side
    is the canonical one: a suggestion is rejected exactly when the
    suggestion with the two sides exchanged is. *)
Theorem reject_rules_symmetric (U : Unicode) (approve_packaging : bool)
  (s : Phase2.Suggestion) :
  fst (Phase2.classify approve_packaging (swapped s)) = Phase2.auto_reject
  <-> fst (Phase2.classify approve_packaging s) = Phase2.auto_reject.
Proof.
  rewrite !classify_rejected.
  rewrite rejected_swapped.
  reflexivity.
Qed.

(** ** The migration of the join-rows *)

Section Migration.
Variables cid aid : str.

Lemma row_of_key recipe i r :
  Phase2.row_of recipe i r = true <-> ri_key r = (recipe, i).
Proof.
  unfold Phase2.row_of, ri_key. rewrite andb_true_iff, !str_eqb_eq.
  split; [intros [-> ->]; reflexivity | intros H; injection H as -> ->; auto].
Qed.

Lemma uses_In t recipe i : uses t recipe i = true <-> exists r, In r t /\ ri_key r = (recipe, i).
Proof.
  unfold uses. rewrite existsb_exists. split; intros (r & H1 & H2); exists r;
    (split; [exact H1|]); now apply row_of_key.
Qed.

Lemma merged_row_key t c : ri_key (merged_row cid aid t c) = ri_key c.
Proof.
  unfold merged_row. destruct (str_eqb _ cid); [|reflexivity]. destruct (find _ t); reflexivity.
Qed.

Lemma merged_row_other t c :
  str_eqb (Phase2.ri_ingredient_id c) cid = false -> merged_row cid aid t c = c.
Proof. unfold merged_row. now intros ->. Qed.

Lemma merged_In t x :
  In x (Phase2.sql_merge_conflicts cid aid t) <->
  exists c, In c t /\ x = merged_row cid aid t c
            /\ (Phase2.ri_ingredient_id c = aid -> uses t (Phase2.ri_recipe_id c) cid = false).
Proof.
  unfold Phase2.sql_merge_conflicts.
  change (map _ t) with (map (merged_row cid aid t) t).
  rewrite filter_In, in_map_iff. split.
  - intros ((c & <- & Hc) & Hk). exists c. repeat split; [exact Hc|].
    pose proof (merged_row_key t c) as K. unfold ri_key in K. injection K as K1 K2.
    rewrite K1, K2 in Hk. intros E. rewrite E, str_eqb_refl in Hk. cbn [andb] in Hk.
    now apply negb_true_iff in Hk.
  - intros (c & Hc & -> & Hk). split; [eauto|].
    pose proof (merged_row_key t c) as K. unfold ri_key in K. injection K as K1 K2.
    rewrite K1, K2. destruct (str_eqb (Phase2.ri_ingredient_id c) aid) eqn:E; [|reflexivity].
    apply str_eqb_eq in E. cbn [andb]. unfold uses in Hk. now rewrite (Hk E).
Qed.

Lemma updated_In t x :
  In x (Phase2.sql_update_non_conflict cid aid t) <->
  exists a, In a t
            /\ ((Phase2.ri_ingredient_id a = aid /\ uses t (Phase2.ri_recipe_id a) cid = false
                 /\ x = repointed cid a)
                \/ (~ (Phase2.ri_ingredient_id a = aid
                       /\ uses t (Phase2.ri_recipe_id a) cid = false)
                    /\ x = a)).
Proof.
  unfold Phase2.sql_update_non_conflict, uses, repointed. rewrite in_map_iff. split.
  - intros (a & <- & Ha). exists a. split; [exact Ha|].
    destruct (str_eqb (Phase2.ri_ingredient_id a) aid) eqn:E; cbn [andb].
    + apply str_eqb_eq in E.
      destruct (existsb _ t) eqn:X; cbn [negb]; [right|left; auto].
      split; [|reflexivity]. intros [_ C]. congruence.
    + right. split; [|reflexivity]. apply str_eqb_neq in E. tauto.
  - intros (a & Ha & [(E & X & ->)|(N & ->)]); exists a; (split; [|exact Ha]).
    + now rewrite E, str_eqb_refl, X.
    + destruct (str_eqb (Phase2.ri_ingredient_id a) aid) eqn:E; [|reflexivity].
      apply str_eqb_eq in E. destruct (existsb _ t) eqn:X; [reflexivity|]. tauto.
Qed.

End Migration.

Lemma filter_map_fixed {A : Type} (p : A -> bool) (f : A -> A) l :
  (forall x, p (f x) = p x) -> (forall x, p x = true -> f x = x) ->
  filter p (map f l) = filter p l.
Proof.
  intros H1 H2. induction l as [|x r IH]; [reflexivity|].
  cbn [map filter]. rewrite H1. destruct (p x) eqn:E; [|exact IH].
  rewrite (H2 x E). now rewrite IH.
Qed.

Lemma filter_filter_implied {A : Type} (p q : A -> bool) l :
  (forall x, p x = true -> q x = true) -> filter p (filter q l) = filter p l.
Proof.
  intros H. induction l as [|x r IH]; [reflexivity|].
  cbn [filter]. destruct (q x) eqn:Q; cbn [filter].
  - now rewrite IH.
  - rewrite IH. destruct (p x) eqn:P; [|reflexivity]. apply H in P. congruence.
Qed.

Lemma NoDup_map_filter {A B : Type} (f : A -> B) (q : A -> bool) l :
  NoDup (map f l) -> NoDup (map f (filter q l)).
Proof.
  induction l as [|x r IH]; [auto|]. cbn [map filter]. intros H.
  inversion H as [|? ? Hx Hr]; subst. destruct (q x); [|now apply IH].
  cbn [map]. constructor; [|now apply IH].
  intros Hin. apply Hx. apply in_map_iff in Hin as (y & E & Hy).
  apply filter_In in Hy as [Hy _]. apply in_map_iff. eauto.
Qed.

Section MigrationProps.
Variables cid aid : str.

Lemma other_rows_merge t :
  other_rows cid aid (Phase2.sql_merge_conflicts cid aid t) = other_rows cid aid t.
Proof.
  unfold other_rows, Phase2.sql_merge_conflicts.
  change (map _ t) with (map (merged_row cid aid t) t).
  rewrite filter_filter_implied.
  - apply filter_map_fixed.
    + intros x. pose proof (merged_row_key cid aid t x) as K. unfold ri_key in K.
      injection K as _ K. now rewrite K.
    + intros x Hx. apply andb_prop in Hx as [Hx _]. apply negb_true_iff in Hx.
      now apply merged_row_other.
  - intros x Hx. apply andb_prop in Hx as [_ Hx]. apply negb_true_iff in Hx.
    now rewrite Hx.
Qed.

Lemma other_rows_update t :
  other_rows cid aid (Phase2.sql_update_non_conflict cid aid t) = other_rows cid aid t.
Proof.
  unfold other_rows, Phase2.sql_update_non_conflict. apply filter_map_fixed.
  - intros x. destruct (str_eqb (Phase2.ri_ingredient_id x) aid && _) eqn:E; [|reflexivity].
    apply andb_prop in E as [E _]. cbn [Phase2.ri_ingredient_id].
    now rewrite E, str_eqb_refl, andb_false_r.
  - intros x Hx. apply andb_prop in Hx as [_ Hx]. apply negb_true_iff in Hx.
    now rewrite Hx.
Qed.

Lemma uses_merge t recipe :
  cid <> aid -> uses (Phase2.sql_merge_conflicts cid aid t) recipe cid = uses t recipe cid.
Proof.
  intros Hne. apply eq_true_iff_eq. rewrite !uses_In. split.
  - intros (x & Hx & K). apply merged_In in Hx as (c & Hc & -> & _).
    exists c. split; [exact Hc|]. now rewrite <- (merged_row_key cid aid t c).
  - intros (c & Hc & K). exists (merged_row cid aid t c). split.
    + apply merged_In. exists c. repeat split; [exact Hc|].
      intros E. unfold ri_key in K. injection K as _ K. congruence.
    + now rewrite merged_row_key.
Qed.

Lemma uses_after t recipe :
  cid <> aid ->
  uses (Phase2.sql_update_non_conflict cid aid (Phase2.sql_merge_conflicts cid aid t))
    recipe cid
  = uses t recipe cid || uses t recipe aid.
Proof.
  intros Hne. set (t1 := Phase2.sql_merge_conflicts cid aid t).
  assert (Hkeep : uses t1 recipe cid = true ->
                  uses (Phase2.sql_update_non_conflict cid aid t1) recipe cid = true).
  { intros H. apply uses_In in H as (x & Hx & K). apply uses_In. exists x. split; [|exact K].
    apply updated_In. exists x. split; [exact Hx|]. right. split; [|reflexivity].
    intros [E _]. unfold ri_key in K. injection K as _ K. congruence. }
  apply eq_true_iff_eq. rewrite orb_true_iff. split.
  - intros H. apply uses_In in H as (x & Hx & K).
    apply updated_In in Hx as (a & Ha & [(E & X & ->)|(N & ->)]).
    + right. apply merged_In in Ha as (c & Hc & -> & _). apply uses_In.
      exists c. split; [exact Hc|].
      pose proof (merged_row_key cid aid t c) as Kc. unfold ri_key in *.
      cbn [Phase2.ri_recipe_id Phase2.ri_ingredient_id repointed] in K.
      injection K as K. injection Kc as K1 K2. rewrite K1 in K. rewrite K2 in E.
      now rewrite K, E.
    + left. rewrite <- (uses_merge t recipe Hne). apply uses_In. eauto.
  - intros [H|H].
    + apply Hkeep. unfold t1. now rewrite uses_merge.
    + destruct (uses t recipe cid) eqn:X.
      * apply Hkeep. unfold t1. now rewrite uses_merge.
      * apply uses_In in H as (a & Ha & K). unfold ri_key in K. injection K as K1 K2.
        assert (Hm : merged_row cid aid t a = a).
        { apply merged_row_other. apply str_eqb_neq. congruence. }
        assert (Ha1 : In a t1).
        { apply merged_In. exists a. repeat split; [exact Ha | now symmetry |].
          intros _. now rewrite K1. }
        apply uses_In. exists (repointed cid a).
        split; [|unfold ri_key, repointed; cbn; now rewrite K1].
        apply updated_In. exists a. split; [exact Ha1|]. left. repeat split; [exact K2|].
        rewrite K1. unfold t1. now rewrite uses_merge.
Qed.

Lemma keys_merge t :
  NoDup (map ri_key t) -> NoDup (map ri_key (Phase2.sql_merge_conflicts cid aid t)).
Proof.
  intros H. unfold Phase2.sql_merge_conflicts.
  change (map _ t) with (map (merged_row cid aid t) t).
  apply NoDup_map_filter. rewrite map_map.
  erewrite map_ext; [exact H|]. intros c. apply merged_row_key.
Qed.

Lemma keys_update t :
  NoDup (map ri_key t) -> NoDup (map ri_key (Phase2.sql_update_non_conflict cid aid t)).
Proof.
  intros H. unfold Phase2.sql_update_non_conflict. rewrite map_map.
  match goal with |- NoDup (map ?f t) => set (g := f) end.
  assert (Hg : forall x y, In x t -> In y t -> g x = g y -> ri_key x = ri_key y).
  { intros x y Hx Hy. unfold g.
    destruct (str_eqb (Phase2.ri_ingredient_id x) aid
              && negb (existsb (Phase2.row_of (Phase2.ri_recipe_id x) cid) t)) eqn:Ex;
      destruct (str_eqb (Phase2.ri_ingredient_id y) aid
                && negb (existsb (Phase2.row_of (Phase2.ri_recipe_id y) cid) t)) eqn:Ey;
      unfold ri_key; cbn [Phase2.ri_recipe_id Phase2.ri_ingredient_id]; intros E.
    - apply andb_prop in Ex as [Ex _]. apply andb_prop in Ey as [Ey _].
      apply str_eqb_eq in Ex, Ey. injection E as E. congruence.
    - apply andb_prop in Ex as [_ Ex]. apply negb_true_iff in Ex. exfalso.
      injection E as E1 E2.
      assert (X : existsb (Phase2.row_of (Phase2.ri_recipe_id x) cid) t = true).
      { apply existsb_exists. exists y. split; [exact Hy|].
        apply row_of_key. unfold ri_key. congruence. }
      congruence.
    - apply andb_prop in Ey as [_ Ey]. apply negb_true_iff in Ey. exfalso.
      injection E as E1 E2.
      assert (X : existsb (Phase2.row_of (Phase2.ri_recipe_id y) cid) t = true).
      { apply existsb_exists. exists x. split; [exact Hx|].
        apply row_of_key. unfold ri_key. congruence. }
      congruence.
    - exact E. }
  clearbody g. revert H Hg. generalize t at 1 2 3 4 as l.
  induction l as [|x r IH]; intros H Hg; [constructor|].
  cbn [map] in *. inversion H as [|? ? Hx Hr]; subst. constructor.
  - intros Hin. apply Hx. apply in_map_iff in Hin as (y & E & Hy).
    apply in_map_iff. exists y. split; [|exact Hy].
    symmetry. apply Hg; [now left | now right | now symmetry].
  - apply IH; [exact Hr|]. intros a b Ha Hb. apply Hg; now right.
Qed.

End MigrationProps.

(** X20: after [apply_one_pair] (not a dry run) on two different
    ingredients, no join-row refers to the alias any more, a recipe uses
    the canonical ingredient exactly when it used the canonical one or the
    alias before, and the join-rows of all other ingredients are
    unchanged. *)
Theorem apply_one_pair_migrates (U : Unicode)
  (alias_conflict : Phase2.alias_row -> Phase2.alias_row -> bool)
  (conn : Phase2.database) (canonical_id canonical_key alias_id alias_key : str) :
  canonical_id <> alias_id ->
  let before := Phase2.recipe_ingredients conn in
  let after :=
    Phase2.recipe_ingredients
      (Phase2.apply_one_pair alias_conflict conn
         canonical_id canonical_key alias_id alias_key false) in
  Forall (fun r => Phase2.ri_ingredient_id r <> alias_id) after
  /\ (forall recipe,
        uses after recipe canonical_id
        = uses before recipe canonical_id || uses before recipe alias_id)
  /\ other_rows canonical_id alias_id after = other_rows canonical_id alias_id before.
Proof.
  intros Hne. cbv zeta. unfold Phase2.apply_one_pair. cbn [Phase2.recipe_ingredients].
  split; [|split].
  - eapply Forall_impl; [|apply (@no_alias_row_left _ _ (Phase2.recipe_ingredients conn) Hne)].
    cbv beta. intros r Hr. now apply str_eqb_neq.
  - intros recipe. now apply uses_after.
  - now rewrite other_rows_update, other_rows_merge.
Qed.

Lemma apply_one_pair_migrates_witness :
  let row recipe ing note_ role_ :=
    {| Phase2.ri_recipe_id := py recipe; Phase2.ri_ingredient_id := py ing;
       Phase2.ri_amount := None; Phase2.ri_unit := None;
       Phase2.ri_note := note_; Phase2.ri_role := Some (py role_) |} in
  let conn :=
    {| Phase2.ingredient_aliases := [];
       Phase2.recipe_ingredients :=
         [ row "r1" "C" (Some (py "tươi")) "optional";
           row "r1" "A" (Some (py "băm")) "core";
           row "r2" "A" None "core";
           row "r2" "B" None "core" ]%string |} in
  let after :=
    Phase2.recipe_ingredients
      (Phase2.apply_one_pair (U := LatinVN.unicode) unique_ingredient_alias_norm conn
         (py "C") (py "bột ngọt") (py "A") (py "mì chính") false) in
  Forall (fun r => Phase2.ri_ingredient_id r <> py "A") after
  /\ (forall recipe,
        uses after recipe (py "C")
        = uses (Phase2.recipe_ingredients conn) recipe (py "C")
          || uses (Phase2.recipe_ingredients conn) recipe (py "A"))
  /\ other_rows (py "C") (py "A") after
     = other_rows (py "C") (py "A") (Phase2.recipe_ingredients conn).
Proof.
  intros row conn.
  apply (@apply_one_pair_migrates LatinVN.unicode unique_ingredient_alias_norm conn
           (py "C") (py "bột ngọt") (py "A") (py "mì chính")).
  discriminate.
Defined.

(** X21: [apply_one_pair] keeps [(recipe_id, ingredient_id)] unique in
    the join table. *)
Theorem apply_one_pair_keeps_unique (U : Unicode)
  (alias_conflict : Phase2.alias_row -> Phase2.alias_row -> bool)
  (conn : Phase2.database) (canonical_id canonical_key alias_id alias_key : str)
  (dry_run : bool) :
  NoDup (map ri_key (Phase2.recipe_ingredients conn)) ->
  NoDup (map ri_key
           (Phase2.recipe_ingredients
              (Phase2.apply_one_pair alias_conflict conn
                 canonical_id canonical_key alias_id alias_key dry_run))).
Proof.
  intros H. unfold Phase2.apply_one_pair. cbn [Phase2.recipe_ingredients].
  destruct dry_run; [exact H|]. now apply keys_update, keys_merge.
Qed.

Lemma apply_one_pair_keeps_unique_witness :
  let row recipe ing :=
    {| Phase2.ri_recipe_id := py recipe; Phase2.ri_ingredient_id := py ing;
       Phase2.ri_amount := None; Phase2.ri_unit := None;
       Phase2.ri_note := None; Phase2.ri_role := Some (py "core") |} in
  let conn :=
    {| Phase2.ingredient_aliases := [];
       Phase2.recipe_ingredients := [ row "r1" "C"; row "r1" "A"; row "r2" "A" ]%string |} in
  NoDup (map ri_key
           (Phase2.recipe_ingredients
              (Phase2.apply_one_pair (U := LatinVN.unicode) unique_ingredient_alias_norm conn
                 (py "C") (py "bột ngọt") (py "A") (py "mì chính") false))).
Proof.
  intros row conn.
  apply (@apply_one_pair_keeps_unique LatinVN.unicode unique_ingredient_alias_norm conn
           (py "C") (py "bột ngọt") (py "A") (py "mì chính") false).
  repeat constructor; cbn; intuition discriminate.
Defined.

(** ** From the export to the apply *)

Section ExportLoad.
Context {U : Unicode}.
Hypothesis lower_Y : str_lower (py "Y") = py "y".
Hypothesis lower_empty : str_lower [] = [].

Lemma classify_mark approve_packaging s :
  snd (Phase2.classify approve_packaging s)
  = if is_auto_approve (fst (Phase2.classify approve_packaging s)) then py "Y" else [].
Proof.
  unfold Phase2.classify. cbv zeta.
  destruct (Phase2.looks_bad_key (Phase2.alias_key s) || _); [reflexivity|].
  destruct (Phase2.protein_mismatch _ _); [reflexivity|].
  destruct (Phase2.has_dangerous_pair _ _); [reflexivity|].
  destruct (Phase2.last_token_diff _ _ && _); [reflexivity|].
  destruct (Phase2.is_format_only _ _); [reflexivity|].
  destruct (approve_packaging && _); reflexivity.
Qed.

Lemma written_approved approve_packaging row s :
  written row (s, Phase2.classify approve_packaging s) ->
  Phase2.is_approved row = is_auto_approve (fst (Phase2.classify approve_packaging s)).
Proof.
  intros (_ & _ & _ & _ & H). cbn [fst snd] in H.
  unfold Phase2.is_approved. rewrite H, classify_mark. cbn [or_empty].
  destruct (is_auto_approve _).
  - change (strip (py "Y")) with (py "Y"). rewrite lower_Y. reflexivity.
  - change (strip []) with (@nil char). rewrite lower_empty. reflexivity.
Qed.

Lemma load_written approve_packaging rows l :
  Forall2 written rows (map (fun s => (s, Phase2.classify approve_packaging s)) l) ->
  Phase2.load_approved_pairs rows
  = Some (map pair_of
            (filter (fun s => is_auto_approve (fst (Phase2.classify approve_packaging s))) l)).
Proof.
  revert rows. induction l as [|s l IH]; intros rows H; cbn [map] in H.
  - inversion H; subst. reflexivity.
  - inversion H as [|row ? rest ? Hrow Hrest]; subst.
    cbn [Phase2.load_approved_pairs filter].
    rewrite (written_approved _ Hrow), (IH _ Hrest).
    destruct (is_auto_approve _); [|reflexivity].
    destruct Hrow as (-> & -> & -> & -> & _). reflexivity.
Qed.

End ExportLoad.

(** X22: from a CSV that holds what [export_csv] wrote (in the id, key
    and approved columns), [load_approved_pairs] returns exactly the pairs
    of the suggestions that were classified [auto_approve], in the order
    of the export.  [str.lower] is only assumed to turn [Y] into [y] and
    to leave the empty string alone. *)
Theorem approved_pairs_of_export (U : Unicode) (suggestions : list Phase2.Suggestion)
  (limit : Z) (approve_packaging : bool) (rows : list csv_row) :
  str_lower (py "Y") = py "y" -> str_lower [] = [] ->
  Forall2 written rows (Phase2.export_csv suggestions limit approve_packaging) ->
  Phase2.load_approved_pairs rows
  = Some (map pair_of
            (filter (fun s => is_auto_approve (fst (Phase2.classify approve_packaging s)))
               (Phase2.slice_to limit suggestions))).
Proof. intros HY H0 H. unfold Phase2.export_csv in H. now apply load_written. Qed.

Lemma approved_pairs_of_export_witness :
  let s key_a :=
    {| Phase2.canonical_id := py "1"; Phase2.canonical_key := py "bột chiên giòn";
       Phase2.alias_id := py "2"; Phase2.alias_key := py key_a;
       Phase2.score := 1; Phase2.used_count_canonical := 5; Phase2.used_count_alias := 2;
       Phase2.reason := (1, py "b:10") |} in
  let row key_a mark : csv_row :=
    [ (py "canonical_id", Some (py "1")); (py "canonical_key", Some (py "bột chiên giòn"));
      (py "alias_id", Some (py "2")); (py "alias_key", Some (py key_a));
      (py "score", Some (py "1.0000")); (py "decision", Some (py "-"));
      (py "approved", Some (py mark)) ] in
  Phase2.load_approved_pairs (U := LatinVN.unicode)
    [row "bot-chien-gion" "Y"; row "bột chiên" ""]%string
  = Some [pair_of (s "bot-chien-gion"%string)].
Proof.
  intros s row.
  apply (@approved_pairs_of_export LatinVN.unicode
           [s "bot-chien-gion"; s "bột chiên"]%string 500 false
           [row "bot-chien-gion" "Y"; row "bột chiên" ""]%string).
  - reflexivity.
  - reflexivity.
  - vm_compute. repeat constructor.
Defined.

(** X23: rows whose approved cell is missing, empty or whitespace are
    never loaded, and never raise, whatever columns they lack. *)
Theorem unmarked_rows_not_loaded (U : Unicode) (L : UnicodeLaws U) (rows : list csv_row) :
  Forall (fun row => strip (or_empty (row_get row (py "approved"))) = []) rows ->
  Phase2.load_approved_pairs rows = Some [].
Proof.
  induction 1 as [|row rest Hrow Hrest IH]; [reflexivity|].
  cbn [Phase2.load_approved_pairs]. unfold Phase2.is_approved.
  rewrite Hrow, (lower_plain [] eq_refl). exact IH.
Qed.

Lemma unmarked_rows_not_loaded_witness :
  Phase2.load_approved_pairs (U := LatinVN.unicode)
    [ [(py "alias_norm", Some (py "bot ngot")); (py "decision", Some (py "auto"))];
      [(py "canonical_id", Some (py "1")); (py "approved", Some (py "  "))];
      [(py "canonical_id", Some (py "1")); (py "approved", None)] ]
  = Some [].
Proof.
  apply (@unmarked_rows_not_loaded LatinVN.unicode latinvn_laws).
  repeat constructor.
Defined.

(** ** The rows that the resolver acts on *)

Section Accounting.
Context {St : Store}.

Lemma apply_row_unselected dry_run r total :
  selected r = false ->
  ResolveCollisions.apply_row dry_run r total
  = ret {| ResolveCollisions.t_alias_norms := ResolveCollisions.t_alias_norms total;
           ResolveCollisions.t_skipped_manual :=
             ResolveCollisions.t_skipped_manual total + (if manual r then 1 else 0);
           ResolveCollisions.t_aliases := ResolveCollisions.t_aliases total;
           ResolveCollisions.t_ri_conflicts_deleted :=
             ResolveCollisions.t_ri_conflicts_deleted total;
           ResolveCollisions.t_ri_updated := ResolveCollisions.t_ri_updated total;
           ResolveCollisions.t_ingredients_deleted :=
             ResolveCollisions.t_ingredients_deleted total |}%Z.
Proof.
  unfold selected, manual, ResolveCollisions.apply_row. intros H.
  destruct (truthy (ResolveCollisions.alias_norm r)); cbn [negb orb andb] in *;
    [|destruct total; cbn; now rewrite Z.add_0_r].
  destruct (truthy (ResolveCollisions.canonical_id r)); cbn [negb orb andb] in *;
    [|destruct total; cbn; now rewrite Z.add_0_r].
  rewrite H. reflexivity.
Qed.

Lemma run_apply_loop_unselected dry_run rows total conn :
  Forall (fun r => selected r = false) rows ->
  for_each rows (ResolveCollisions.apply_row dry_run) total conn
  = (inr {| ResolveCollisions.t_alias_norms := ResolveCollisions.t_alias_norms total;
            ResolveCollisions.t_skipped_manual :=
              ResolveCollisions.t_skipped_manual total + count_rows manual rows;
            ResolveCollisions.t_aliases := ResolveCollisions.t_aliases total;
            ResolveCollisions.t_ri_conflicts_deleted :=
              ResolveCollisions.t_ri_conflicts_deleted total;
            ResolveCollisions.t_ri_updated := ResolveCollisions.t_ri_updated total;
            ResolveCollisions.t_ingredients_deleted :=
              ResolveCollisions.t_ingredients_deleted total |}%Z, conn).
Proof.
  intros H. revert total. induction H as [|r rest Hr Hrest IH]; intros total.
  - cbn [for_each]. unfold ret, count_rows. cbn [filter length Z.of_nat].
    rewrite Z.add_0_r. now destruct total.
  - cbn [for_each]. unfold bind. rewrite apply_row_unselected by exact Hr.
    unfold ret at 1. rewrite IH. unfold count_rows.
    cbn [ResolveCollisions.t_alias_norms ResolveCollisions.t_skipped_manual
         ResolveCollisions.t_aliases ResolveCollisions.t_ri_conflicts_deleted
         ResolveCollisions.t_ri_updated ResolveCollisions.t_ingredients_deleted filter].
    do 2 f_equal. f_equal. destruct (manual r); cbn [length]; lia.
Qed.

End Accounting.

(** X24: when no row is selected (each lacks its alias norm or its
    canonical id, or has a decision other than [auto]), [run_apply] sends
    nothing to the store: the connection is unchanged, and the only
    counter that moves counts the rows that name a group with another
    decision. *)
Theorem unselected_rows_untouched (St : Store) (rows : list ResolveCollisions.Row)
  (dry_run : bool) (conn : connection) :
  Forall (fun r => selected r = false) rows ->
  ResolveCollisions.run_apply rows dry_run conn
  = (inr {| ResolveCollisions.t_alias_norms := 0;
            ResolveCollisions.t_skipped_manual := count_rows manual rows;
            ResolveCollisions.t_aliases := 0;
            ResolveCollisions.t_ri_conflicts_deleted := 0;
            ResolveCollisions.t_ri_updated := 0;
            ResolveCollisions.t_ingredients_deleted := 0 |}%Z, conn).
Proof.
  intros H. unfold ResolveCollisions.run_apply.
  now rewrite run_apply_loop_unselected by exact H.
Qed.

Lemma unselected_rows_untouched_witness :
  let St := Scripted.store [] (fun _ _ => {| rowcount := 1; fetchall := [] |}) in
  let row a c d :=
    {| ResolveCollisions.alias_norm := py a; ResolveCollisions.canonical_id := py c;
       ResolveCollisions.canonical_key := py "k"; ResolveCollisions.decision := py d;
       ResolveCollisions.notes := [] |} in
  ResolveCollisions.run_apply (St := St)
    [row "bot ngot" "c1" "manual"; row "" "c2" "auto"; row "muoi" "" "auto"]%string false []
  = (inr {| ResolveCollisions.t_alias_norms := 0;
            ResolveCollisions.t_skipped_manual := 1;
            ResolveCollisions.t_aliases := 0;
            ResolveCollisions.t_ri_conflicts_deleted := 0;
            ResolveCollisions.t_ri_updated := 0;
            ResolveCollisions.t_ingredients_deleted := 0 |}%Z, []).
Proof.
  intros St row.
  apply (@unselected_rows_untouched St
           [row "bot ngot" "c1" "manual"; row "" "c2" "auto"; row "muoi" "" "auto"]%string
           false []).
  repeat constructor.
Defined.

(** X25: rows read by [read_csv] that lack the alias norm or the
    canonical id (a missing column, an empty or whitespace cell) are
    ignored by [run_apply]: nothing is counted, nothing is sent to the
    store. *)
Theorem rows_without_group_ignored (U : Unicode) (St : Store) (rows : list csv_row)
  (dry_run : bool) (conn : connection) :
  Forall (fun row => strip (or_empty (row_get row (py "alias_norm"))) = []
                     \/ strip (or_empty (row_get row (py "canonical_id"))) = []) rows ->
  ResolveCollisions.run_apply (ResolveCollisions.read_csv rows) dry_run conn
  = (inr {| ResolveCollisions.t_alias_norms := 0;
            ResolveCollisions.t_skipped_manual := 0;
            ResolveCollisions.t_aliases := 0;
            ResolveCollisions.t_ri_conflicts_deleted := 0;
            ResolveCollisions.t_ri_updated := 0;
            ResolveCollisions.t_ingredients_deleted := 0 |}%Z, conn).
Proof.
  intros H. unfold ResolveCollisions.run_apply.
  assert (Hsel : Forall (fun r => selected r = false /\ manual r = false)
                   (ResolveCollisions.read_csv rows)).
  { unfold ResolveCollisions.read_csv. apply Forall_forall. intros r Hr.
    apply in_map_iff in Hr as (row & <- & Hrow).
    rewrite Forall_forall in H. unfold selected, manual.
    cbn [ResolveCollisions.alias_norm ResolveCollisions.canonical_id].
    destruct (H row Hrow) as [-> | ->]; cbn [truthy andb]; [auto|].
    now rewrite !andb_false_r. }
  rewrite run_apply_loop_unselected
    by (eapply Forall_impl; [|exact Hsel]; cbv beta; tauto).
  cbn [ResolveCollisions.t_alias_norms ResolveCollisions.t_skipped_manual
       ResolveCollisions.t_aliases ResolveCollisions.t_ri_conflicts_deleted
       ResolveCollisions.t_ri_updated ResolveCollisions.t_ingredients_deleted].
  assert (Hc : count_rows manual (ResolveCollisions.read_csv rows) = 0%Z).
  { unfold count_rows. replace (filter manual (ResolveCollisions.read_csv rows)) with
      (@nil ResolveCollisions.Row); [reflexivity|].
    symmetry. induction Hsel as [|r rest [_ Hm] _ IH]; [reflexivity|].
    cbn [filter]. now rewrite Hm. }
  now rewrite Hc.
Qed.

Lemma rows_without_group_ignored_witness :
  let St := Scripted.store [] (fun _ _ => {| rowcount := 1; fetchall := [] |}) in
  ResolveCollisions.run_apply (St := St)
    (ResolveCollisions.read_csv (U := LatinVN.unicode)
       [ [(py "canonical_id", Some (py "1")); (py "canonical_key", Some (py "muối"));
          (py "alias_id", Some (py "2")); (py "decision", Some (py "auto_approve"))];
         [(py "alias_norm", Some (py "  ")); (py "canonical_id", Some (py "1"));
          (py "decision", Some (py "auto"))] ])
    false []
  = (inr {| ResolveCollisions.t_alias_norms := 0;
            ResolveCollisions.t_skipped_manual := 0;
            ResolveCollisions.t_aliases := 0;
            ResolveCollisions.t_ri_conflicts_deleted := 0;
            ResolveCollisions.t_ri_updated := 0;
            ResolveCollisions.t_ingredients_deleted := 0 |}%Z, []).
Proof.
  intros St.
  apply (@rows_without_group_ignored LatinVN.unicode St).
  repeat constructor.
Defined.

(** ** The counters of the resolver *)

Section Counters.
Context {St : Store}.

Lemma apply_row_counts dry_run r total conn total' conn' :
  ResolveCollisions.apply_row dry_run r total conn = (inr total', conn') ->
  ResolveCollisions.t_alias_norms total'
  = (ResolveCollisions.t_alias_norms total + (if selected r then 1 else 0))%Z
  /\ ResolveCollisions.t_skipped_manual total'
     = (ResolveCollisions.t_skipped_manual total + (if manual r then 1 else 0))%Z.
Proof.
  destruct (selected r) eqn:S.
  - rewrite apply_row_selected by exact S. unfold bind.
    destruct (ResolveCollisions.attempts 3 0 r dry_run conn) as [[e|st] c]; [discriminate|].
    unfold ret. intros E. injection E as <- <-.
    cbn [ResolveCollisions.t_alias_norms ResolveCollisions.t_skipped_manual].
    assert (M : manual r = false).
    { unfold selected in S. unfold manual.
      apply andb_prop in S as [S1 S2]. now rewrite S1, S2. }
    rewrite M. lia.
  - rewrite apply_row_unselected by exact S. unfold ret. intros E. injection E as <- <-.
    cbn [ResolveCollisions.t_alias_norms ResolveCollisions.t_skipped_manual]. lia.
Qed.

Lemma run_apply_loop_counts dry_run rows total conn total' conn' :
  for_each rows (ResolveCollisions.apply_row dry_run) total conn = (inr total', conn') ->
  ResolveCollisions.t_alias_norms total'
  = (ResolveCollisions.t_alias_norms total + count_rows selected rows)%Z
  /\ ResolveCollisions.t_skipped_manual total'
     = (ResolveCollisions.t_skipped_manual total + count_rows manual rows)%Z.
Proof.
  revert total conn. induction rows as [|r rest IH]; intros total conn; cbn [for_each].
  - unfold ret. intros E. injection E as <- <-. unfold count_rows. cbn. lia.
  - unfold bind.
    destruct (ResolveCollisions.apply_row dry_run r total conn) as [[e|t1] c1] eqn:E1;
      [discriminate|].
    intros E. apply IH in E as [H1 H2]. apply apply_row_counts in E1 as [G1 G2].
    unfold count_rows in *. cbn [filter].
    destruct (selected r), (manual r); cbn [length]; lia.
Qed.

End Counters.

(** X26: when [run_apply] returns, [alias_norms] is the number of
    selected rows and [skipped_manual] the number of rows that name a group
    with a decision other than [auto]. *)
Theorem run_apply_counts (St : Store) (rows : list ResolveCollisions.Row) (dry_run : bool)
  (conn : connection) :
  match ResolveCollisions.run_apply rows dry_run conn with
  | (inr total, _) =>
      ResolveCollisions.t_alias_norms total = count_rows selected rows
      /\ ResolveCollisions.t_skipped_manual total = count_rows manual rows
  | (inl _, _) => True
  end.
Proof.
  unfold ResolveCollisions.run_apply.
  destruct (for_each rows _ _ conn) as [[e|total] conn'] eqn:E; [exact I|].
  apply run_apply_loop_counts in E. exact E.
Qed.

(** ** The retry policy *)

Section Retry.
Context {St : Store}.

Lemma attempts_other_error dry_run r c0 c1 e :
  group_transaction r dry_run c0 = (inl e, c1) -> e <> UniqueViolation ->
  ResolveCollisions.attempts 3 0 r dry_run c0 = (inl e, c1).
Proof.
  unfold group_transaction. intros H He. cbn [ResolveCollisions.attempts]. rewrite H.
  destruct e; [congruence | reflexivity | reflexivity | reflexivity].
Qed.

Lemma attempts_second dry_run r c0 c1 c2 st :
  group_transaction r dry_run c0 = (inl UniqueViolation, c1) ->
  group_transaction r dry_run (rollback c1) = (inr st, c2) ->
  ResolveCollisions.attempts 3 0 r dry_run c0 = (inr st, c2).
Proof.
  unfold group_transaction. intros H1 H2. cbn [ResolveCollisions.attempts].
  rewrite H1. cbn [Nat.eqb]. now rewrite H2.
Qed.

Lemma for_each_app {S A X : Type} (body : X -> A -> M S A) l1 l2 a s a1 s1 :
  for_each l1 body a s = (inr a1, s1) ->
  for_each (l1 ++ l2) body a s = for_each l2 body a1 s1.
Proof.
  revert a s. induction l1 as [|x r IH]; intros a s; cbn [app for_each].
  - unfold ret. intros E. now injection E as <- <-.
  - unfold bind. destruct (body x a s) as [[e|a'] s']; [discriminate|]. apply IH.
Qed.

End Retry.

(** X27: an error other than a uniqueness violation is not retried: the
    transaction of the group is rolled back once and the error leaves
    [run_apply] at the first attempt, the rest of the batch unprocessed. *)
Theorem other_errors_not_retried (St : Store)
  (before after : list ResolveCollisions.Row) (r : ResolveCollisions.Row)
  (dry_run : bool) (conn c0 c1 : connection) (total : ResolveCollisions.totals) (e : exn) :
  ResolveCollisions.run_apply before dry_run conn = (inr total, c0) ->
  selected r = true ->
  group_transaction r dry_run c0 = (inl e, c1) ->
  e <> UniqueViolation ->
  ResolveCollisions.run_apply (before ++ r :: after) dry_run conn = (inl e, c1).
Proof.
  intros Hb Hsel H He. unfold ResolveCollisions.run_apply in *.
  eapply for_each_raises; [exact Hb|].
  rewrite apply_row_selected by exact Hsel. unfold bind.
  now rewrite (@attempts_other_error St dry_run r c0 c1 e H He).
Qed.

(** X28: when the first attempt of a group ends in a uniqueness
    violation and the second succeeds, the group is counted with the
    statistics of the second attempt and [run_apply] goes on with the rest
    of the batch. *)
Theorem second_attempt_continues (St : Store)
  (before after : list ResolveCollisions.Row) (r : ResolveCollisions.Row)
  (dry_run : bool) (conn c0 c1 c2 : connection) (total : ResolveCollisions.totals)
  (st : ResolveCollisions.stats) :
  ResolveCollisions.run_apply before dry_run conn = (inr total, c0) ->
  selected r = true ->
  group_transaction r dry_run c0 = (inl UniqueViolation, c1) ->
  group_transaction r dry_run (rollback c1) = (inr st, c2) ->
  ResolveCollisions.run_apply (before ++ r :: after) dry_run conn
  = for_each after (ResolveCollisions.apply_row dry_run)
      {| ResolveCollisions.t_alias_norms := ResolveCollisions.t_alias_norms total + 1;
         ResolveCollisions.t_skipped_manual := ResolveCollisions.t_skipped_manual total;
         ResolveCollisions.t_aliases :=
           ResolveCollisions.t_aliases total + ResolveCollisions.aliases st;
         ResolveCollisions.t_ri_conflicts_deleted :=
           ResolveCollisions.t_ri_conflicts_deleted total
           + ResolveCollisions.ri_conflicts_deleted st;
         ResolveCollisions.t_ri_updated :=
           ResolveCollisions.t_ri_updated total + ResolveCollisions.ri_updated st;
         ResolveCollisions.t_ingredients_deleted :=
           ResolveCollisions.t_ingredients_deleted total
           + ResolveCollisions.ingredients_deleted st |}%Z
      c2.
Proof.
  intros Hb Hsel H1 H2. unfold ResolveCollisions.run_apply in *.
  rewrite (for_each_app _ _ (r :: after) _ _ Hb). cbn [for_each]. unfold bind at 1.
  rewrite apply_row_selected by exact Hsel. unfold bind at 1.
  now rewrite (@attempts_second St dry_run r c0 c1 c2 st H1 H2).
Qed.

(** ** What a computation sends to the store *)

Section Emits.
Variable St : Store.
Variable P : Scripted.event -> bool.

Lemma emits_ret {A : Type} (a : A) : emits St P (ret a).
Proof. intros c. exists []. split; reflexivity. Qed.

Lemma emits_raise {A : Type} e : emits St P (raise (A := A) e).
Proof. intros c. exists []. split; reflexivity. Qed.

Lemma emits_bind {A B : Type} (m : M _ A) (k : A -> M _ B) :
  emits St P m -> (forall a, emits St P (k a)) -> emits St P (bind m k).
Proof.
  intros Hm Hk c. unfold bind. destruct (Hm c) as (n1 & E1 & F1).
  destruct (m c) as [[e|a] c1]; cbn [snd] in E1.
  - exists n1. split; assumption.
  - destruct (Hk a c1) as (n2 & E2 & F2). exists (n2 ++ n1). split.
    + now rewrite E2, E1, app_assoc.
    + now rewrite forallb_app, F1, F2.
Qed.

Lemma emits_execute q params :
  P (Scripted.Executed q [params]) = true ->
  emits St P (cur_execute (St := Traced.store St) q params).
Proof.
  intros H c. unfold cur_execute. cbn [execute Traced.store].
  destruct (@execute St q [params] (fst c)) as [r c']. cbn [snd].
  exists [Scripted.Executed q [params]]. split; [reflexivity|]. cbn [forallb]. now rewrite H.
Qed.

Lemma emits_for_each {A X : Type} (body : X -> A -> M _ A) l a :
  (forall x a, emits St P (body x a)) -> emits St P (for_each l body a).
Proof.
  intros Hb. revert a. induction l as [|x r IH]; intros a; cbn [for_each].
  - apply emits_ret.
  - apply emits_bind; [apply Hb | intros a'; apply IH].
Qed.

Lemma emits_with_conn {A : Type} (m : M _ A) :
  P Scripted.Committed = true -> P Scripted.RolledBack = true ->
  emits St P m -> emits St P (with_conn (St := Traced.store St) m).
Proof.
  intros Hc Hr Hm c. unfold with_conn. destruct (Hm c) as (n1 & E1 & F1).
  destruct (m c) as [[e|a] c1]; cbn [snd] in E1; cbn [snd commit rollback Traced.store].
  - exists (Scripted.RolledBack :: n1). split; [now rewrite E1|].
    cbn [forallb]. now rewrite Hr, F1.
  - exists (Scripted.Committed :: n1). split; [now rewrite E1|].
    cbn [forallb]. now rewrite Hc, F1.
Qed.

End Emits.

(** ** A dry run only reads *)

Section DryRun.
Variable St : Store.

Lemma fetch_count_emits cur :
  emits St reads (ResolveCollisions.fetch_count (St := Traced.store St) cur).
Proof.
  unfold ResolveCollisions.fetch_count. destruct (fetchone cur) as [row|];
    [|apply emits_raise].
  unfold as_int. destruct (col 0 row); first [apply emits_ret | apply emits_raise].
Qed.

Lemma resolve_other_dry alias_norm canonical_id other_id st :
  emits St reads
    (ResolveCollisions.resolve_other (St := Traced.store St)
       alias_norm canonical_id true other_id st).
Proof.
  unfold ResolveCollisions.resolve_other. cbn [negb].
  repeat first
    [ apply emits_bind; [|intros ?]
    | apply emits_execute; reflexivity
    | apply fetch_count_emits
    | apply emits_ret ].
  destruct (fetchone _); [apply emits_ret | apply emits_raise].
Qed.

Lemma apply_one_alias_dry alias_norm canonical_id :
  emits St reads
    (ResolveCollisions.apply_one_alias (St := Traced.store St) alias_norm canonical_id true).
Proof.
  unfold ResolveCollisions.apply_one_alias.
  apply emits_bind; [apply emits_execute; reflexivity|]. intros cur.
  apply emits_for_each. intros x a. apply resolve_other_dry.
Qed.

Lemma attempts_dry remaining attempt r :
  emits St reads (ResolveCollisions.attempts (St := Traced.store St) remaining attempt r true).
Proof.
  revert attempt. induction remaining as [|n IH]; intros attempt;
    cbn [ResolveCollisions.attempts]; [apply emits_raise|].
  intros c.
  destruct (@emits_with_conn St reads _ _ eq_refl eq_refl
              (apply_one_alias_dry (ResolveCollisions.alias_norm r)
                 (ResolveCollisions.canonical_id r)) c) as (n1 & E1 & F1).
  destruct (with_conn _ c) as [[e|st] c1]; cbn [snd] in E1.
  - destruct e; try (exists n1; split; assumption).
    destruct (attempt =? 2)%nat.
    + exists (Scripted.RolledBack :: n1). cbn [snd rollback Traced.store].
      split; [now rewrite E1|]. cbn [forallb reads]. exact F1.
    + destruct (IH (S attempt) (rollback (Store := Traced.store St) c1)) as (n2 & E2 & F2).
      exists (n2 ++ Scripted.RolledBack :: n1). split.
      * rewrite E2. cbn [snd rollback Traced.store]. now rewrite E1, <- app_assoc.
      * rewrite forallb_app, F2. cbn [forallb reads]. exact F1.
  - exists n1. split; assumption.
Qed.

Lemma apply_row_dry r total :
  emits St reads (ResolveCollisions.apply_row (St := Traced.store St) true r total).
Proof.
  unfold ResolveCollisions.apply_row.
  destruct (negb _ || negb _); [apply emits_ret|].
  destruct (negb (str_eqb _ _)); [apply emits_ret|].
  apply emits_bind; [apply attempts_dry | intros st; apply emits_ret].
Qed.

End DryRun.

(** X29: on any store, a dry run of [run_apply] executes only the
    statements that read (the select of the other ids, the counts and the
    orphan check), between the commits and rollbacks that end its
    transactions: none of the deletes, updates and inserts is sent. *)
Theorem dry_run_only_reads (St : Store) (rows : list ResolveCollisions.Row)
  (conn : @connection St) (trace : list Scripted.event) :
  exists new,
    snd (snd (ResolveCollisions.run_apply (St := Traced.store St) rows true (conn, trace)))
    = new ++ trace
    /\ forallb reads new = true.
Proof.
  unfold ResolveCollisions.run_apply.
  exact (@emits_for_each St reads _ _ _ rows _ (@apply_row_dry St) (conn, trace)).
Qed.

Lemma other_errors_not_retried_witness :
  let St := Faulty.store
              (fun _ q _ => match q with
                            | SQL_UPDATE_RECIPE_INGREDIENTS => Some DatabaseError
                            | _ => None
                            end)
              (fun q _ => {| rowcount := 1;
                             fetchall := match q with
                                         | SQL_OTHER_IDS_FOR_ALIAS => [[VText (py "other")]]
                                         | _ => []
                                         end |}) in
  let row n := {| ResolveCollisions.alias_norm := py n;
                  ResolveCollisions.canonical_id := py "canon";
                  ResolveCollisions.canonical_key := py "k";
                  ResolveCollisions.decision := py "auto";
                  ResolveCollisions.notes := [] |} in
  exists trace,
    ResolveCollisions.run_apply (St := St) ([] ++ row "x" :: [row "y"])%string false []
    = (inl DatabaseError, Scripted.RolledBack :: trace)
    /\ Faulty.rolled_back trace = false.
Proof.
  intros St row. eexists. split.
  - eapply (@other_errors_not_retried St [] [row "y"] (row "x") false [] [])%string.
    + reflexivity.
    + reflexivity.
    + vm_compute. reflexivity.
    + discriminate.
  - vm_compute. reflexivity.
Defined.

Lemma second_attempt_continues_witness :
  let committed trace :=
    existsb (fun e => match e with Scripted.Committed => true | _ => false end) trace in
  let St := Faulty.store
              (fun trace q _ => match q with
                                | SQL_INSERT_ALIASES_TO_CANONICAL =>
                                    if committed trace && negb (Faulty.rolled_back trace)
                                    then Some UniqueViolation else None
                                | _ => None
                                end)
              (fun q _ => {| rowcount := 1;
                             fetchall := match q with
                                         | SQL_OTHER_IDS_FOR_ALIAS => [[VText (py "other")]]
                                         | _ => []
                                         end |}) in
  let row n := {| ResolveCollisions.alias_norm := py n;
                  ResolveCollisions.canonical_id := py "canon";
                  ResolveCollisions.canonical_key := py "k";
                  ResolveCollisions.decision := py "auto";
                  ResolveCollisions.notes := [] |} in
  exists trace,
    ResolveCollisions.run_apply (St := St) ([row "w"] ++ row "x" :: [row "y"])%string false []
    = (inr {| ResolveCollisions.t_alias_norms := 3;
              ResolveCollisions.t_skipped_manual := 0;
              ResolveCollisions.t_aliases := 3;
              ResolveCollisions.t_ri_conflicts_deleted := 3;
              ResolveCollisions.t_ri_updated := 3;
              ResolveCollisions.t_ingredients_deleted := 3 |}%Z,
       Scripted.Committed :: trace)
    /\ length (filter (fun e => match e with Scripted.RolledBack => true | _ => false end)
                 trace) = 2%nat
    /\ length (filter (fun e => match e with Scripted.Committed => true | _ => false end)
                 trace) = 2%nat.
Proof.
  intros committed St row. eexists. split.
  - etransitivity.
    + eapply (@second_attempt_continues St [row "w"] [row "y"] (row "x") false [] _ _ _ _ _)%string.
      * vm_compute. reflexivity.
      * reflexivity.
      * vm_compute. reflexivity.
      * vm_compute. reflexivity.
    + vm_compute. reflexivity.
  - split; vm_compute; reflexivity.
Defined.

(** ** One transaction per recipe *)

Section Transaction.
Context {U : Unicode}.
Variable St : Store.

Lemma emits_execute_values q rows :
  emits St is_statement (execute_values (St := Traced.store St) q rows).
Proof.
  unfold execute_values. apply emits_bind; [|intros ?; apply emits_ret].
  intros c. cbn [execute Traced.store].
  destruct (@execute St q rows (fst c)) as [r c']. cbn [snd].
  exists [Scripted.Executed q rows]. split; reflexivity.
Qed.

Lemma emits_as_int (v : value) :
  emits St is_statement (as_int (S := @connection (Traced.store St)) v).
Proof. destruct v; first [apply emits_ret | apply emits_raise]. Qed.

Lemma emits_map_M {X Y : Type} (f : X -> M _ Y) l :
  (forall x, emits St is_statement (f x)) -> emits St is_statement (map_M f l).
Proof.
  intros Hf. induction l as [|x r IH]; cbn [map_M]; [apply emits_ret|].
  apply emits_bind; [apply Hf|]. intros y.
  apply emits_bind; [apply IH|]. intros ys. apply emits_ret.
Qed.

Ltac statements :=
  repeat first
    [ apply emits_ret
    | apply emits_raise
    | apply emits_execute; reflexivity
    | apply emits_execute_values
    | apply emits_as_int
    | apply emits_bind; [|intros ?] ].

Lemma get_or_create_statements key alias_norm :
  emits St is_statement
    (Pipeline.get_or_create_ingredient (St := Traced.store St) key alias_norm).
Proof.
  unfold Pipeline.get_or_create_ingredient.
  destruct (negb (truthy _)); [apply emits_raise|].
  apply emits_bind; [apply emits_execute; reflexivity|]. intros cur.
  destruct (fetchone cur); [apply emits_ret|].
  apply emits_bind; [apply emits_execute; reflexivity|]. intros cur2.
  destruct (fetchone cur2); [statements|].
  apply emits_bind; [apply emits_execute; reflexivity|]. intros cur3.
  destruct (fetchone cur3); statements.
Qed.

Lemma promote_item_statements pi_ dedup :
  emits St is_statement (Pipeline.promote_item (St := Traced.store St) pi_ dedup).
Proof.
  unfold Pipeline.promote_item.
  apply emits_bind; [apply get_or_create_statements|]. intros ing_id.
  destruct (Pipeline.dedup_get dedup (value_str ing_id)) as [[[[[i0 amt0] unit0] note0] role0]|];
    [|apply emits_ret].
  destruct (if Pipeline.has_amount amt0 then _ else _). apply emits_ret.
Qed.

Lemma promote_line_statements raw dedup :
  emits St is_statement (Pipeline.promote_line (St := Traced.store St) raw dedup).
Proof.
  unfold Pipeline.promote_line.
  apply emits_bind; [destruct raw; first [apply emits_ret | apply emits_raise]|].
  intros s. destruct (Pipeline.looks_like_sentence _); [apply emits_ret|].
  destruct (negb _ || negb _); [apply emits_ret|].
  apply emits_for_each. intros x a. apply promote_item_statements.
Qed.

Lemma promote_body_statements rid_uuid pname slug name hero short_note steps ing_texts :
  emits St is_statement
    (Pipeline.upsert_product_recipe (St := Traced.store St) rid_uuid pname slug hero
       (option_value VText short_note) ;;;
     Pipeline.replace_recipe_steps rid_uuid steps ;;;
     dedup <- for_each ing_texts Pipeline.promote_line [] ;;
     let parsed_rows := map snd dedup in
     Pipeline.replace_recipe_ingredients rid_uuid parsed_rows ;;;
     let active := (3 <=? length steps)%nat && (4 <=? length parsed_rows)%nat
                   && (10 <=? length (text_or name []))%nat in
     Pipeline.set_recipe_active rid_uuid active ;;;
     ret (length parsed_rows, active)).
Proof.
  apply emits_bind; [unfold Pipeline.upsert_product_recipe; statements|]. intros _.
  apply emits_bind.
  { unfold Pipeline.replace_recipe_steps.
    apply emits_bind; [apply emits_execute; reflexivity|]. intros _.
    destruct steps; [apply emits_ret|].
    apply emits_bind; [|intros ?; apply emits_execute_values].
    apply emits_map_M. intros row. statements. }
  intros _.
  apply emits_bind; [apply emits_for_each; intros x a; apply promote_line_statements|].
  intros dedup. cbv zeta.
  apply emits_bind.
  { unfold Pipeline.replace_recipe_ingredients.
    apply emits_bind; [apply emits_execute; reflexivity|]. intros _.
    destruct (map snd dedup); [apply emits_ret | apply emits_execute_values]. }
  intros _.
  apply emits_bind; [unfold Pipeline.set_recipe_active; statements|]. intros _.
  apply emits_ret.
Qed.

Lemma with_conn_bracket {A : Type} (m : M _ A) :
  emits St is_statement m ->
  forall c, exists statements,
    forallb is_statement statements = true
    /\ match with_conn (St := Traced.store St) m c with
       | (inr _, (_, trace')) => trace' = Scripted.Committed :: statements ++ snd c
       | (inl _, (_, trace')) => trace' = Scripted.RolledBack :: statements ++ snd c
       end.
Proof.
  intros Hm c. destruct (Hm c) as (new & E & F). exists new. split; [exact F|].
  unfold with_conn. destruct (m c) as [[e|a] [c' tr']]; cbn [snd] in E;
    cbn [commit rollback Traced.store fst snd]; now rewrite E.
Qed.

End Transaction.

(** X30: on any store, the statements of [promote_into_prod] form one
    transaction: they are followed by a commit when the promotion returns,
    by a rollback when it raises, and nothing is committed or rolled back
    in between. *)
Theorem promotion_is_one_transaction (U : Unicode) (St : Store) (rid_uuid pname slug : str)
  (name hero : value) (short_note : option str) (steps : list (list value))
  (ing_texts : list value) (conn : @connection St) (trace : list Scripted.event) :
  exists statements,
    forallb is_statement statements = true
    /\ match Pipeline.promote_into_prod (St := Traced.store St)
               rid_uuid pname slug name hero short_note steps ing_texts (conn, trace) with
       | (inr _, (_, trace')) => trace' = Scripted.Committed :: statements ++ trace
       | (inl _, (_, trace')) => trace' = Scripted.RolledBack :: statements ++ trace
       end.
Proof.
  unfold Pipeline.promote_into_prod.
  exact (@with_conn_bracket St _ _
           (@promote_body_statements U St rid_uuid pname slug name hero short_note
              steps ing_texts) (conn, trace)).
Qed.

(** ** The value of a parsed amount *)

Section AmountParts.
Context {U : Unicode}.

(** The group [val] is the beginning of the subject. *)
Lemma decimal_val_prefix s m :
  Regex.re_match true Pipeline.RE_DECIMAL_UNIT s = Some m ->
  exists v rest, Regex.group (py "val") m = Some v /\ s = v ++ rest.
Proof.
  unfold Regex.re_match, Regex.match_at.
  destruct (Regex.matches true Pipeline.RE_DECIMAL_UNIT _ _) as [e|] eqn:H; [|discriminate].
  intros E. injection E as <-.
  unfold Pipeline.RE_DECIMAL_UNIT in H. cbn [Regex.seq] in H.
  rewrite matches_seq in H. apply matches_sound in H; [|reflexivity].
  destruct H as (s1 & w1 & H & G1 & A1 & L1).
  rewrite matches_seq in H. apply matches_group_sound in H; [|reflexivity].
  destruct H as (s2 & v & H & G2 & A2 & _).
  step_free H s3 G3. step_group H s4 u G4 Lu. step_free H s5 G5. step_free H s6 G6.
  step_group H s7 t G7 Lrest.
  apply matches_sound in H; [|reflexivity].
  destruct H as (s8 & ? & H & G8 & _ & _). injection H as <-.
  exists v, (Regex.after s2). split.
  - rewrite G8, G7, G6, G5, G4, G3, G2, G1. reflexivity.
  - cbn [lang] in L1. subst w1. cbn [Regex.after app] in A1. now rewrite A1, A2.
Qed.

Lemma strip_Forall (P : char -> Prop) s : Forall P s -> Forall P (strip s).
Proof. intros H. unfold strip, strip_by. now apply rstrip_by_Forall, lstrip_by_Forall. Qed.

(** A separator of the group [val] that is a comma is a comma of the
    part. *)
Lemma decimal_comma_in_part s m i f :
  Regex.re_match true Pipeline.RE_DECIMAL_UNIT (strip s) = Some m ->
  Regex.group (py "val") m = Some (i ++ 44%N :: f) ->
  existsb (fun x => (x =? 44)%N) s = true.
Proof.
  intros Hm Hv. destruct (decimal_val_prefix _ Hm) as (v & rest & Hv' & E).
  rewrite Hv in Hv'. injection Hv' as <-.
  destruct (existsb (fun x => (x =? 44)%N) s) eqn:X; [reflexivity|exfalso].
  apply no_comma_Forall in X. apply strip_Forall in X. rewrite E in X.
  rewrite <- app_assoc in X. apply Forall_app in X as [_ X]. inversion X; congruence.
Qed.

(** No part of a combination contains a comma. *)
Lemma split_combo_no_comma text_main part :
  In part (Pipeline.split_combo text_main) ->
  existsb (fun x => (x =? 44)%N) part = false.
Proof.
  unfold Pipeline.split_combo.
  destruct (existsb (fun c => (c =? 44)%N) text_main) eqn:E; cbn [negb].
  - intros Hp. apply filter_In in Hp as [Hp _]. apply in_map_iff in Hp as (f & <- & Hf).
    apply no_comma_Forall. apply normalize_spaces_chars; [discriminate|].
    assert (H : Forall (fun _ : char => True) text_main) by (apply Forall_forall; auto).
    apply (fields_Forall (fun c => (c =? 44)%N)) in H.
    rewrite Forall_forall in H. specialize (H f Hf).
    eapply Forall_impl; [|exact H]. cbv beta. intros c [_ Hc]. now apply N.eqb_neq.
  - intros [<-|[]]. exact E.
Qed.

End AmountParts.




(** A line that writes a decimal with a comma is a combination of two
    parts: the amount of [1,5 lít nước] is that of the part [5 lít nước]. *)
Lemma comma_decimal_line_is_split :
  map Pipeline.amount
    (Pipeline.parse_ingredient_text_phase1 (U := LatinVN.unicode) (py "1,5 lít nước"))
  = [Some (mkDecimal 5 0)].
Proof. vm_compute. reflexivity. Qed.

(** A quotient of more than 28 digits that is exact: [3 * 10 ^ 30 / 2]. *)
Lemma large_quotient_is_exact :
  fst (fst (Pipeline.parse_amount_unit_minimal (U := LatinVN.unicode)
              (py "3000000000000000000000000000000/2 kg gạo")))
  = Some (mkDecimal 1500000000000000000000000000 3)
  /\ Decimal_value (mkDecimal 1500000000000000000000000000 3)
     == inject_Z 3000000000000000000000000000000 / inject_Z 2.
Proof. split; [vm_compute; reflexivity | vm_compute; reflexivity]. Qed.
